(** * A spreadsheet cell model: classification, formula evaluation, recalculation

    Shallow embedding of [src/model.c].  A C string is the list of the
    characters that precede its terminator; the global [sheet] array and the
    notifications sent to [update_cell_display] form an explicit world that
    every operation transforms.  An allocation is taken to succeed wherever
    the code does not loop on it.  Who owns which string is left out of
    this first embedding; the module [Heap] embeds the same functions once
    more with pointers, [strdup], [calloc] and [free]. *)

From Stdlib Require Import Ascii String.
From Stdlib Require Import List Bool Arith ZArith Lia.
From Stdlib Require Import Floats.SpecFloat.
Import ListNotations.

(** ** Characters and C strings *)

Abbreviation cstring := (list ascii) (only parsing).

Definition cstr (s : string) : cstring := list_ascii_of_string s.

Definition code (c : ascii) : nat := nat_of_ascii c.

(** The <ctype.h> predicates in the "C" locale. *)
Definition isdigit (c : ascii) : bool := (48 <=? code c) && (code c <=? 57).
Definition isupper (c : ascii) : bool := (65 <=? code c) && (code c <=? 90).
Definition islower (c : ascii) : bool := (97 <=? code c) && (code c <=? 122).
Definition isalpha (c : ascii) : bool := isupper c || islower c.
Definition isspace (c : ascii) : bool :=
  (code c =? 32) || ((9 <=? code c) && (code c <=? 13)).

Definition is_char (k : ascii) (c : ascii) : bool := Ascii.eqb c k.

Definition EQUALS_CHAR : ascii := "="%char.
Definition MAX_LEN : nat := 256.

(** [skip_whitespace]: advance over the leading white space. *)
Fixpoint skip_whitespace (text : cstring) : cstring :=
  match text with
  | c :: rest => if isspace c then skip_whitespace rest else text
  | [] => []
  end.

(** ** Text classification *)

(** The scanning loop of [is_valid_num], with its two flags. *)
Fixpoint is_valid_num_loop (str : cstring) (hasDigit hasDecimalPoint : bool)
  : bool :=
  match str with
  | [] => hasDigit
  | c :: rest =>
      if isdigit c then is_valid_num_loop rest true hasDecimalPoint
      else if is_char "." c then
        if hasDecimalPoint then false
        else is_valid_num_loop rest hasDigit true
      else false
  end.

(** [is_valid_num]; a null pointer is [None]. *)
Definition is_valid_num (str : option cstring) : bool :=
  match str with
  | None => false
  | Some s => is_valid_num_loop (skip_whitespace s) false false
  end.

(** The loop of [is_valid_formula] over the characters after the equals sign.
    Every round skips white space and then consumes one character, so a round
    count equal to the length of the text is never used up. *)
Fixpoint is_valid_formula_loop (rounds : nat) (formula : cstring) : bool :=
  match formula with
  | [] => true
  | _ :: _ =>
      match rounds with
      | O => false
      | S rounds' =>
          match skip_whitespace formula with
          | [] => false
          | c :: rest =>
              if isalpha c then
                if islower c then false
                else is_valid_formula_loop rounds' rest
              else if isdigit c || is_char "." c || is_char "+" c then
                is_valid_formula_loop rounds' rest
              else false
          end
      end
  end.

Definition is_valid_formula (formula : cstring) : bool :=
  match skip_whitespace formula with
  | c :: rest =>
      if is_char EQUALS_CHAR c then is_valid_formula_loop (length rest) rest
      else false
  | [] => false
  end.

(** ** The platform: grid dimensions and floating-point services

    The header [model.h] declares the enumerations [ROW] and [COL], whose
    first enumerators [ROW_1] and [COL_A] are zero and whose last
    enumerators are [NUM_ROWS] and [NUM_COLS]; the numeric work is done by
    the C library.  Both are parameters: nothing below depends on the size
    of the sheet, on how a double is represented, on how [strtod] rounds or
    on what [snprintf] prints for the conversion [%lg]. *)

Class Platform : Type := {
  NUM_ROWS : nat;
  NUM_COLS : nat;
  double : Type;
  dzero : double;                       (* the constant 0 *)
  dadd : double -> double -> double;    (* the operator + on doubles *)
  strtod_value : cstring -> double;     (* value of a subject sequence *)
  fmt_lg : double -> cstring            (* the text printed for %lg *)
}.

(** ** The C library's number scanners *)

(** Length of the longest prefix whose characters all satisfy [p]. *)
Fixpoint span (p : ascii -> bool) (s : cstring) : nat :=
  match s with
  | c :: rest => if p c then S (span p rest) else O
  | [] => O
  end.

Definition isxdigit (c : ascii) : bool :=
  isdigit c || ((65 <=? code c) && (code c <=? 70))
            || ((97 <=? code c) && (code c <=? 102)).

(** Digits with an optional radix point, at least one digit in all. *)
Definition mantissa_len (dig : ascii -> bool) (s : cstring) : nat :=
  let n1 := span dig s in
  match skipn n1 s with
  | c :: rest =>
      if is_char "." c then
        let n2 := span dig rest in
        if n1 + n2 =? 0 then 0 else n1 + 1 + n2
      else n1
  | [] => n1
  end.

(** An exponent part: its marker, an optional sign, at least one digit. *)
Definition exponent_len (mark : ascii -> bool) (s : cstring) : nat :=
  match s with
  | m :: rest =>
      if mark m then
        let sgn := match rest with
                   | c :: _ => if is_char "+" c || is_char "-" c then 1 else 0
                   | [] => 0
                   end in
        let n := span isdigit (skipn sgn rest) in
        if n =? 0 then 0 else 1 + sgn + n
      else 0
  | [] => 0
  end.

Definition dec_len (s : cstring) : nat :=
  let m := mantissa_len isdigit s in
  if m =? 0 then 0
  else m + exponent_len (fun c => is_char "e" c || is_char "E" c) (skipn m s).

Definition hex_len (s : cstring) : nat :=
  let m := mantissa_len isxdigit s in
  if m =? 0 then 0
  else m + exponent_len (fun c => is_char "p" c || is_char "P" c) (skipn m s).

(** Length of the subject sequence [strtod] recognises at the start of [s]:
    the longest decimal or hexadecimal floating constant.  Every text handed
    to [strtod] by this program starts, after white space, with a digit or a
    decimal point, where no sign and none of the INF and NAN forms can match;
    those forms are left out. *)
Definition subject_len (s : cstring) : nat :=
  match s with
  | z :: x :: rest =>
      if is_char "0" z && (is_char "x" x || is_char "X" x) then
        let h := hex_len rest in
        if h =? 0 then dec_len s else 2 + h
      else dec_len s
  | _ => dec_len s
  end.

Definition digit_value (c : ascii) : Z := Z.of_nat (code c) - 48.

Definition decimal_value (ds : cstring) : Z :=
  fold_left (fun acc c => (10 * acc + digit_value c)%Z) ds 0%Z.

Definition LONG_MAX : Z := 2 ^ 63 - 1.

(** [strtol(nptr, &end, 10)] on a text that starts with a digit, the only
    way it is called: the digit run is converted, saturating at [LONG_MAX];
    the result is the value and the end pointer. *)
Definition strtol (nptr : cstring) : Z * cstring :=
  let n := span isdigit nptr in
  (Z.min (decimal_value (firstn n nptr)) LONG_MAX, skipn n nptr).

(** Conversion of a long to the 32-bit enumeration types [ROW] and [COL]. *)
Definition enum_of_long (z : Z) : Z := ((z + 2 ^ 31) mod 2 ^ 32 - 2 ^ 31)%Z.

Section Model.

Context {P : Platform}.

(** [strtod(nptr, &end)]: the value and the end pointer; when nothing is
    converted the value is zero and the end pointer is [nptr]. *)
Definition strtod (nptr : cstring) : double * cstring :=
  let body := skip_whitespace nptr in
  let n := subject_len body in
  if n =? 0 then (dzero, nptr)
  else (strtod_value (firstn n body), skipn n body).

(** ** The operand stack *)

(** [DoubleAssist]: the elements between [base] and [sp], the one below
    [sp] first, and the capacity.  [malloc] and [realloc] are taken to
    succeed, as they do until memory runs out. *)
Record DoubleAssist := mkassist {
  elems : list double;
  capacity : nat
}.

(** The field [size]. *)
Definition size (assist : DoubleAssist) : nat := length (elems assist).

Definition make_double_assist : DoubleAssist := mkassist [] 16.

Definition double_assist_grow (assist : DoubleAssist) : DoubleAssist :=
  mkassist (elems assist) (2 * capacity assist).

Definition double_assist_push (assist : DoubleAssist) (value : double)
  : DoubleAssist :=
  let assist' :=
    if capacity assist <=? size assist then double_assist_grow assist
    else assist in
  mkassist (value :: elems assist') (capacity assist').

(** [double_assist_pop]: [None] is the exit on an empty stack. *)
Definition double_assist_pop (assist : DoubleAssist)
  : option (double * DoubleAssist) :=
  match elems assist with
  | value :: rest => Some (value, mkassist rest (capacity assist))
  | [] => None
  end.

(** ** Cells and the sheet *)

Inductive CELL_TYPE := none | str | num | eqn.

Record cell := mkcell {
  type : CELL_TYPE;
  numVal : double;
  strVal : option cstring      (* [None] is the null pointer *)
}.

(** [sheet[row][col]], zero based. *)
Definition grid := nat -> nat -> cell.

Definition zero_cell : cell := mkcell none dzero None.

(** The zero-initialised global. *)
Definition empty_sheet : grid := fun _ _ => zero_cell.

Definition in_grid (row col : nat) : bool :=
  (row <? NUM_ROWS) && (col <? NUM_COLS).

(** Assignment to one element of the array. *)
Definition store (sh : grid) (row col : nat) (c : cell) : grid :=
  fun i j => if (i =? row) && (j =? col) then c else sh i j.

Definition set_num_value (sh : grid) (row col : nat) (text : cstring) : grid :=
  store sh row col (mkcell num (fst (strtod text)) None).

Definition set_string_value (sh : grid) (row col : nat) (text : cstring)
  : grid :=
  store sh row col (mkcell str dzero (Some text)).

Definition initialize_cell (sh : grid) (row col : nat) : grid :=
  match type (sh row col) with
  | none => store sh row col (mkcell num dzero (Some []))
  | _ => sh
  end.

(** ** Formula evaluation *)

(** [parse_and_calculate_formula] answers true or false.  The tag of a
    failure records which of its [return false] statements was taken;
    [NoReturn] is the case in which the function never returns. *)
Inductive FormulaError :=
| InvalidFormulaSyntax   (* the grammar check at the entry *)
| InvalidToken           (* a letter without a digit behind it, or a
                            character no branch accepts *)
| OutOfRange             (* a reference outside the sheet *)
| ArityMismatch.         (* operands and operators do not match *)

Inductive evaluation :=
| Done (result : double)
| Failed (e : FormulaError)
| NoReturn.

Inductive scanned :=
| Scanned (numAssist : DoubleAssist) (opcount : nat)
| ScanFailed (e : FormulaError)
| ScanStuck.

(** The scanning loop.  A round that goes on to the next one has moved the
    pointer forward, so the [rounds] that [parse_and_calculate_formula]
    grants, as many as the text has characters, are never used up (lemma
    [scan_loop_rounds]).  The one branch that may leave the pointer in
    place is the numeric literal: on a decimal point without digits
    [strtod] converts nothing, the same zero is pushed round after round,
    and the loop only ends when [double_assist_grow] cannot get memory and
    exits the process; that is [ScanStuck]. *)
Fixpoint scan_loop (rounds : nat) (sheet : grid) (formula : cstring)
    (numAssist : DoubleAssist) (opcount : nat) : scanned :=
  match formula with
  | [] => Scanned numAssist opcount
  | c :: rest =>
      match rounds with
      | O => ScanStuck
      | S rounds' =>
          if is_char EQUALS_CHAR c || is_char " " c then
            scan_loop rounds' sheet rest numAssist opcount
          else if is_char "+" c then
            scan_loop rounds' sheet rest numAssist (S opcount)
          else if isalpha c then
            if match rest with d :: _ => isdigit d | [] => false end then
              let curCol := (Z.of_nat (code c) - 65)%Z in
              let (n, formula') := strtol rest in
              let curRow := enum_of_long (n - 1) in
              if (curRow <? 0)%Z || (curRow >=? Z.of_nat NUM_ROWS)%Z
                 || (curCol <? 0)%Z || (curCol >=? Z.of_nat NUM_COLS)%Z
              then ScanFailed OutOfRange
              else
                scan_loop rounds' sheet formula'
                  (double_assist_push numAssist
                     (numVal (sheet (Z.to_nat curRow) (Z.to_nat curCol))))
                  opcount
            else ScanFailed InvalidToken
          else if isdigit c || is_char "." c then
            let (value, formula') := strtod formula in
            if length formula' <? length formula then
              scan_loop rounds' sheet formula'
                (double_assist_push numAssist value) opcount
            else ScanStuck
          else ScanFailed InvalidToken
      end
  end.

(** The final loop: pop and add until the stack is empty, which takes as
    many rounds as the stack has elements. *)
Fixpoint drain (rounds : nat) (numAssist : DoubleAssist) (result : double)
  : double :=
  match rounds with
  | O => result
  | S rounds' =>
      match double_assist_pop numAssist with
      | Some (value, numAssist') =>
          drain rounds' numAssist' (dadd result value)
      | None => result
      end
  end.

Definition parse_and_calculate_formula (sheet : grid) (formula : cstring)
  : evaluation :=
  if negb (is_valid_formula formula) then Failed InvalidFormulaSyntax
  else
    match scan_loop (length formula) sheet formula make_double_assist 0 with
    | Scanned numAssist opcount =>
        if negb (size numAssist =? opcount + 1) then Failed ArityMismatch
        else Done (drain (size numAssist) numAssist dzero)
    | ScanFailed e => Failed e
    | ScanStuck => NoReturn
    end.

(** ** The world: the sheet and the notifications sent so far *)

Record notification := notify {
  at_row : nat;
  at_col : nat;
  shown : cstring
}.

Record world := mkworld {
  sheet : grid;
  display : list notification     (* oldest first *)
}.

(** How a call ends: it returns, the process exits (allocation failure),
    or the behaviour is undefined (an index outside the array, a null
    pointer handed to a string function). *)
Inductive outcome :=
| Returns (w : world)
| Exits
| Undefined.

Definition andthen (o : outcome) (k : world -> outcome) : outcome :=
  match o with
  | Returns w => k w
  | Exits => Exits
  | Undefined => Undefined
  end.

Notation "o ;; k" := (andthen o k) (at level 61, left associativity).

(** The external [update_cell_display]. *)
Definition update_cell_display (row col : nat) (text : cstring) (w : world)
  : outcome :=
  Returns (mkworld (sheet w) (display w ++ [notify row col text])).

Definition ERROR : cstring := cstr "ERROR".

Definition update_cell_value (row col : nat) (w : world) : outcome :=
  let this := sheet w row col in
  match type this with
  | eqn =>
      match strVal this with
      | None => Undefined
      | Some formula =>
          match parse_and_calculate_formula (sheet w) formula with
          | Done result =>
              update_cell_display row col formula
                (mkworld
                   (store (sheet w) row col (mkcell num result (Some formula)))
                   (display w))
          | Failed _ => update_cell_display row col ERROR w
          | NoReturn => Exits
          end
      end
  | _ => Returns w
  end.

(** A [for] loop over the values [xs] of its counter. *)
Fixpoint for_each {A : Type} (xs : list A) (body : A -> world -> outcome)
    (w : world) : outcome :=
  match xs with
  | [] => Returns w
  | x :: rest => body x w ;; for_each rest body
  end.

(** The pass over the whole sheet at the end of [set_cell_value]. *)
Definition update_all (row col : nat) : world -> outcome :=
  for_each (seq 0 NUM_ROWS) (fun i =>
    for_each (seq 0 NUM_COLS) (fun j w =>
      if negb ((i =? row) && (j =? col)) then update_cell_value i j w
      else Returns w)).

(** The text [snprintf] leaves in a buffer of [MAX_LEN] bytes. *)
Definition snprintf_lg (result : double) : cstring :=
  firstn (MAX_LEN - 1) (fmt_lg result).

Definition set_cell_value (row col : nat) (text : option cstring) (w : world)
  : outcome :=
  match text with
  | None => Returns w
  | Some [] => Returns w
  | Some text =>
      if negb (in_grid row col) then Undefined
      else
        let sh0 :=
          match type (sheet w row col) with
          | none => initialize_cell (sheet w) row col
          | _ => sheet w
          end in
        if is_valid_num (Some text) then
          update_all row col
            (mkworld (set_num_value sh0 row col text) (display w))
          ;; update_cell_display row col text
        else
          let sh1 := set_string_value sh0 row col text in
          if is_valid_formula text then
            match parse_and_calculate_formula sh1 text with
            | Done result =>
                let this := sh1 row col in
                update_all row col
                  (mkworld
                     (store sh1 row col
                        (mkcell eqn (numVal this) (strVal this)))
                     (display w))
                ;; update_cell_display row col (snprintf_lg result)
            | Failed _ =>
                update_all row col (mkworld sh1 (display w))
                ;; update_cell_display row col ERROR
            | NoReturn => Exits
            end
          else
            update_all row col (mkworld sh1 (display w))
            ;; update_cell_display row col text
  end.

Definition clear_cell (row col : nat) (w : world) : outcome :=
  if negb (in_grid row col) then Undefined
  else
    match type (sheet w row col) with
    | none => Returns w
    | _ =>
        update_cell_display row col []
          (mkworld (store (sheet w) row col zero_cell) (display w))
    end.

(** [get_textual_value]: the fresh copy handed to the caller; [None] when
    the behaviour is undefined ([strncpy] from a null source, an index
    outside the array). *)
Definition get_textual_value (w : world) (row col : nat) : option cstring :=
  if negb (in_grid row col) then None
  else
    let this := sheet w row col in
    match type this with
    | none => Some []
    | _ =>
        match strVal this with
        | Some s => Some (firstn (MAX_LEN - 1) s)
        | None => None
        end
    end.

Definition initial_world : world := mkworld empty_sheet [].

(** The worlds a caller can bring about. *)
Inductive reachable : world -> Prop :=
| reach_initial : reachable initial_world
| reach_set : forall w row col text w',
    reachable w -> set_cell_value row col text w = Returns w' -> reachable w'
| reach_clear : forall w row col w',
    reachable w -> clear_cell row col w = Returns w' -> reachable w'.

End Model.

Notation "o ;; k" := (andthen o k) (at level 61, left associativity).

(** ** The shapes the specification speaks of *)

(** A decimal literal: digits and at most one point, at least one digit. *)
Definition is_decimal_literal (body : cstring) : bool :=
  forallb (fun c => isdigit c || is_char "." c) body
  && (count_occ ascii_dec body "."%char <=? 1)
  && existsb isdigit body.

Definition whitespace (ws : cstring) : Prop :=
  Forall (fun c => isspace c = true) ws.

(** White space, then a decimal literal. *)
Definition leading_decimal (s : cstring) : Prop :=
  exists ws body,
    s = ws ++ body /\ whitespace ws /\ is_decimal_literal body = true.

(** White space on both sides of a decimal literal. *)
Definition padded_decimal (s : cstring) : Prop :=
  exists ws body ws',
    s = ws ++ body ++ ws' /\ whitespace ws
    /\ is_decimal_literal body = true /\ whitespace ws'.

(** The operands of the formula grammar: a decimal literal, or a column
    letter followed by a row number. *)
Inductive operand :=
| Literal (text : cstring)
| Reference (col : ascii) (row : cstring).

Definition operand_text (o : operand) : cstring :=
  match o with
  | Literal text => text
  | Reference col row => col :: row
  end.

Definition well_formed (o : operand) : bool :=
  match o with
  | Literal text => is_decimal_literal text
  | Reference col row =>
      isupper col && forallb isdigit row && negb (length row =? 0)
  end.

Definition spaces (n : nat) : cstring := repeat " "%char n.

(** One operand of a formula with the blanks written around it: [before]
    blanks ahead of the operand and [after] blanks behind it. *)
Record term := mkterm {
  before : nat;
  what : operand;
  after : nat
}.

Definition term_text (t : term) : cstring :=
  spaces (before t) ++ operand_text (what t) ++ spaces (after t).

(** The text of the formula [= t1 + t2 + ... + tn].  The last operand has
    nothing behind it. *)
Definition formula_text (lead : nat) (init : list term)
    (last_before : nat) (last : operand) : cstring :=
  spaces lead ++ EQUALS_CHAR ::
  flat_map (fun t => term_text t ++ ["+"%char]) init
  ++ spaces last_before ++ operand_text last.

(** The tokens of a formula, in any order: plus signs and operands. *)
Inductive token :=
| Plus
| Operand (o : operand).

Definition token_text (t : token) : cstring :=
  match t with
  | Plus => ["+"%char]
  | Operand o => operand_text o
  end.

(** A token with the blanks written ahead of it. *)
Record spaced := mkspaced {
  blanks : nat;
  tok : token
}.

Definition spaced_text (s : spaced) : cstring :=
  spaces (blanks s) ++ token_text (tok s).

(** The text of an equals sign followed by tokens. *)
Definition tokens_text (lead : nat) (toks : list spaced) : cstring :=
  spaces lead ++ EQUALS_CHAR :: flat_map spaced_text toks.

Definition is_operand (t : token) : bool :=
  match t with
  | Operand _ => true
  | Plus => false
  end.

(** Two operands in a row have a blank between them. *)
Fixpoint separated (toks : list spaced) : bool :=
  match toks with
  | s :: rest =>
      match rest with
      | u :: _ =>
          negb (is_operand (tok s)) || negb (is_operand (tok u))
          || (0 <? blanks u)
      | [] => true
      end
      && separated rest
  | [] => true
  end.

Definition operands_of (toks : list spaced) : list operand :=
  flat_map (fun s => match tok s with Operand o => [o] | Plus => [] end) toks.

Definition pluses_of (toks : list spaced) : nat :=
  length (filter (fun s => negb (is_operand (tok s))) toks).

Section Grammar.

Context {P : Platform}.

Definition column_index (col : ascii) : nat := code col - 65.

Definition row_index (row : cstring) : nat := Z.to_nat (decimal_value row - 1).

(** A reference names a cell of the sheet. *)
Definition inside (o : operand) : bool :=
  match o with
  | Literal _ => true
  | Reference col row =>
      (column_index col <? NUM_COLS)
      && (1 <=? decimal_value row)%Z
      && (decimal_value row <=? Z.of_nat NUM_ROWS)%Z
  end.

Definition contribution (sh : grid) (o : operand) : double :=
  match o with
  | Literal text => strtod_value text
  | Reference col row => numVal (sh (row_index row) (column_index col))
  end.

(** Every operand among the tokens is well formed and names no cell
    outside the sheet. *)
Definition token_ok (s : spaced) : bool :=
  match tok s with
  | Operand o => well_formed o && inside o
  | Plus => true
  end.

(** The sum as the code forms it: from zero, the last operand first. *)
Definition sum_of (values : list double) : double :=
  fold_right (fun v acc => dadd acc v) dzero values.

End Grammar.

(** ** A reference platform: IEEE binary64 and a sheet of 10 rows, 7 columns

    The doubles are the numbers of [SpecFloat] at precision 53; [strtod]
    rounds the exact value of its subject sequence to the nearest double
    and [%lg] rounds the exact value of a double to six significant
    digits, both with ties to even. *)

Module Binary64.

Definition prec : Z := 53.
Definition emax : Z := 1024.

Definition zero : spec_float := S754_zero false.
Definition add : spec_float -> spec_float -> spec_float := SFadd prec emax.

(** The double nearest to [num / den]. *)
Definition nearest (num den : positive) : spec_float :=
  SFdiv prec emax (S754_finite false num 0) (S754_finite false den 0).

Definition hex_digit_value (c : ascii) : Z :=
  if isdigit c then Z.of_nat (code c) - 48
  else if code c <=? 70 then Z.of_nat (code c) - 55
  else Z.of_nat (code c) - 87.

(** The digits of a mantissa as one integer, the number of digits behind
    the radix point, and the text that follows the mantissa. *)
Fixpoint mantissa (base : Z) (dig : ascii -> bool) (val : ascii -> Z)
    (s : cstring) (point : bool) (m frac : Z) : Z * Z * cstring :=
  match s with
  | c :: rest =>
      if dig c then
        mantissa base dig val rest point (base * m + val c)
          (if point then frac + 1 else frac)
      else if is_char "." c && negb point then
        mantissa base dig val rest true m frac
      else (m, frac, s)
  | [] => (m, frac, [])
  end.

(** The value of an exponent part; zero when there is none. *)
Definition exponent (s : cstring) : Z :=
  match s with
  | _ :: sign :: ds =>
      if is_char "+" sign then decimal_value ds
      else if is_char "-" sign then - decimal_value ds
      else decimal_value (sign :: ds)
  | _ => 0
  end.

Definition of_decimal (m e10 : Z) : spec_float :=
  match m with
  | Zpos p =>
      if (0 <=? e10)%Z then nearest (p * Z.to_pos (10 ^ e10)) 1
      else nearest p (Z.to_pos (10 ^ (- e10)))
  | _ => zero
  end.

Definition of_hex (m e2 : Z) : spec_float :=
  match m with
  | Zpos p => binary_round prec emax false p e2
  | _ => zero
  end.

(** The value of a subject sequence as [subject_len] delimits it. *)
Definition strtod_value (s : cstring) : spec_float :=
  match s with
  | z :: x :: rest =>
      if is_char "0" z && (is_char "x" x || is_char "X" x) then
        let '(m, frac, tail) :=
          mantissa 16 isxdigit hex_digit_value rest false 0 0 in
        of_hex m (exponent tail - 4 * frac)
      else
        let '(m, frac, tail) := mantissa 10 isdigit digit_value s false 0 0 in
        of_decimal m (exponent tail - frac)
  | _ =>
      let '(m, frac, tail) := mantissa 10 isdigit digit_value s false 0 0 in
      of_decimal m (exponent tail - frac)
  end.

(** *** Printing with [%lg] *)

Definition digit_char (d : Z) : ascii := ascii_of_nat (48 + Z.to_nat d).

(** The last [n] decimal digits of [z], most significant first. *)
Fixpoint digits (n : nat) (z : Z) (acc : cstring) : cstring :=
  match n with
  | O => acc
  | S n' => digits n' (z / 10) (digit_char (z mod 10) :: acc)
  end.

Fixpoint strip_zeros_rev (r : cstring) : cstring :=
  match r with
  | c :: rest => if is_char "0" c then strip_zeros_rev rest else r
  | [] => []
  end.

(** Trailing zeros are not printed. *)
Definition strip_zeros (s : cstring) : cstring := rev (strip_zeros_rev (rev s)).

(** [10 ^ x <= num / den]. *)
Definition reaches (x : Z) (num den : Z) : bool :=
  if (0 <=? x)%Z then (den * 10 ^ x <=? num)%Z
  else (den <=? num * 10 ^ (- x))%Z.

(** The greatest [x] with [10 ^ x <= num / den], searched downwards. *)
Fixpoint decimal_exponent_from (steps : nat) (x : Z) (num den : Z) : Z :=
  match steps with
  | O => x
  | S steps' =>
      if reaches x num den then x
      else decimal_exponent_from steps' (x - 1) num den
  end.

(** The decimal exponent of [num / den] for positive [num] and [den]: it
    lies between minus the number of bits of [den] and the number of bits
    of [num]. *)
Definition decimal_exponent (num den : Z) : Z :=
  decimal_exponent_from (Z.to_nat (Z.log2 num + Z.log2 den + 3))
    (Z.log2 num + 1) num den.

(** [num / den] over [10 ^ (x - 5)], rounded to an integer, ties to even. *)
Definition six_digits (x : Z) (num den : Z) : Z :=
  let a := if (0 <=? x - 5)%Z then num else (num * 10 ^ (5 - x))%Z in
  let b := if (0 <=? x - 5)%Z then (den * 10 ^ (x - 5))%Z else den in
  let q := (a / b)%Z in
  let r := (a mod b)%Z in
  match (2 * r ?= b)%Z with
  | Lt => q
  | Gt => (q + 1)%Z
  | Eq => if Z.even q then q else (q + 1)%Z
  end.

Definition with_point (int frac : cstring) : cstring :=
  match strip_zeros frac with
  | [] => int
  | f => int ++ "."%char :: f
  end.

Definition exponent_text (x : Z) : cstring :=
  (if (x <? 0)%Z then "-"%char else "+"%char)
  :: (if (Z.abs x <? 100)%Z then digits 2 (Z.abs x) []
      else digits 3 (Z.abs x) []).

Definition print_positive (num den : Z) : cstring :=
  let x0 := decimal_exponent num den in
  let d0 := six_digits x0 num den in
  let x := if (d0 =? 1000000)%Z then (x0 + 1)%Z else x0 in
  let d := if (d0 =? 1000000)%Z then 100000%Z else d0 in
  let ds := digits 6 d [] in
  if (x <? -4)%Z || (6 <=? x)%Z then
    with_point (firstn 1 ds) (skipn 1 ds) ++ "e"%char :: exponent_text x
  else if (0 <=? x)%Z then
    with_point (firstn (Z.to_nat x + 1) ds) (skipn (Z.to_nat x + 1) ds)
  else
    with_point ["0"%char] (repeat "0"%char (Z.to_nat (- x - 1)) ++ ds).

Definition signed (s : bool) (text : cstring) : cstring :=
  if s then "-"%char :: text else text.

Definition fmt_lg (x : spec_float) : cstring :=
  match x with
  | S754_zero s => signed s ["0"%char]
  | S754_infinity s => signed s (cstr "inf")
  | S754_nan => cstr "nan"
  | S754_finite s m e =>
      signed s
        (if (0 <=? e)%Z then print_positive (Zpos m * 2 ^ e) 1
         else print_positive (Zpos m) (2 ^ (- e)))
  end.

End Binary64.

#[export] Instance reference_platform : Platform := {|
  NUM_ROWS := 10;
  NUM_COLS := 7;
  double := spec_float;
  dzero := Binary64.zero;
  dadd := Binary64.add;
  strtod_value := Binary64.strtod_value;
  fmt_lg := Binary64.fmt_lg
|}.

(** ** Relations used in the proofs *)

Section Relations.

Context {P : Platform}.

(** Two scans that ran the same course: the same end, as many operands,
    as many operators. *)
Definition same_shape (a b : scanned) : Prop :=
  match a, b with
  | Scanned s1 o1, Scanned s2 o2 => size s1 = size s2 /\ o1 = o2
  | ScanFailed e1, ScanFailed e2 => e1 = e2
  | ScanStuck, ScanStuck => True
  | _, _ => False
  end.

Definition same_course (a b : evaluation) : Prop :=
  match a, b with
  | Done _, Done _ => True
  | Failed e1, Failed e2 => e1 = e2
  | NoReturn, NoReturn => True
  | _, _ => False
  end.

(** The scanning loop with the rounds the evaluator gives it. *)
Definition scan (sh : grid) (f : cstring) (st : DoubleAssist) (ops : nat)
  : scanned :=
  scan_loop (length f) sh f st ops.

(** The text behind an operand may not prolong it: it is empty or starts
    with a blank or a plus sign. *)
Definition closes (rest : cstring) : Prop :=
  match rest with
  | [] => True
  | c :: _ => c = " "%char \/ c = "+"%char
  end.

(** The characters the grammar check lets pass. *)
Definition formula_char (c : ascii) : bool :=
  isspace c || isupper c || isdigit c || is_char "." c || is_char "+" c.

(** The last character, if any, is not white space. *)
Fixpoint ends_well (s : cstring) : bool :=
  match s with
  | [] => true
  | [c] => negb (isspace c)
  | _ :: rest => ends_well rest
  end.

(** A formula text that evaluates whatever the sheet holds. *)
Definition evaluable (f : cstring) : Prop :=
  forall sh, exists r, parse_and_calculate_formula sh f = Done r.

(** Every formula cell holds an evaluable formula text. *)
Definition formulas_evaluable (sh : grid) : Prop :=
  forall i j, type (sh i j) = eqn ->
    exists f, strVal (sh i j) = Some f /\ evaluable f.

(** The part of the string invariant that holds: a Text or Formula cell
    holds a string and an Empty cell holds none. *)
Definition strings_kept (sh : grid) : Prop :=
  forall i j,
    match type (sh i j) with
    | none => strVal (sh i j) = None
    | str | eqn => strVal (sh i j) <> None
    | num => True
    end.

(** The coordinates of the sheet in the order of the two nested loops. *)
Definition cells : list (nat * nat) :=
  list_prod (seq 0 NUM_ROWS) (seq 0 NUM_COLS).

(** The body of the inner loop of the pass. *)
Definition visit (row col : nat) (p : nat * nat) (w : world) : outcome :=
  if negb ((fst p =? row) && (snd p =? col))
  then update_cell_value (fst p) (snd p) w
  else Returns w.

(** The notification is about the cell at [p]. *)
Definition about (p : nat * nat) (n : notification) : Prop :=
  (at_row n, at_col n) = p.

(** What a run of visits over the coordinates [cs] may have done: a cell
    is as it was, or it was a formula cell on the way and is now numeric
    with the same text; the notifications added are about formula cells
    on the way. *)
Definition pass_effect (row col : nat) (cs : list (nat * nat))
    (w w' : world) : Prop :=
  (forall i j,
      sheet w' i j = sheet w i j
      \/ (In (i, j) cs /\ (i, j) <> (row, col)
          /\ type (sheet w i j) = eqn
          /\ exists f r, strVal (sheet w i j) = Some f
                         /\ sheet w' i j = mkcell num r (Some f)))
  /\ exists evs,
       display w' = display w ++ evs
       /\ Forall (fun n => In (at_row n, at_col n) cs
                           /\ (at_row n, at_col n) <> (row, col)
                           /\ type (sheet w (at_row n) (at_col n)) = eqn)
                 evs.

(** The cell a write commits at its coordinate and the text it shows in
    the end, from the text's class; [None] when the evaluator does not
    return. *)
Definition committed (sh : grid) (row col : nat) (text : cstring)
  : option (cell * cstring) :=
  if is_valid_num (Some text) then
    Some (mkcell num (fst (strtod text)) None, text)
  else if is_valid_formula text then
    match parse_and_calculate_formula (set_string_value sh row col text) text
    with
    | Done result => Some (mkcell eqn dzero (Some text), snprintf_lg result)
    | Failed _ => Some (mkcell str dzero (Some text), ERROR)
    | NoReturn => None
    end
  else Some (mkcell str dzero (Some text), text).

End Relations.

(** ** Further relations *)

(** The last token is an operand. *)
Definition ends_with_operand (toks : list spaced) : bool :=
  match rev toks with
  | s :: _ => is_operand (tok s)
  | [] => false
  end.

(** The text behind an operand is none that [strtod] or [strtol] could
    take for more of the number: it is empty, or it starts with a
    character that is no digit, no decimal point, no letter E (which
    starts an exponent) and no letter X (which, behind a zero, starts a
    hexadecimal constant). *)
Definition stops (rest : cstring) : Prop :=
  match rest with
  | [] => True
  | c :: _ =>
      isdigit c = false /\ is_char "." c = false
      /\ (is_char "e" c || is_char "E" c) = false
      /\ (is_char "x" c || is_char "X" c) = false
  end.

Section Shapes.

Context {P : Platform}.

Definition within_capacity (st : DoubleAssist) : Prop :=
  size st <= capacity st /\ 0 < capacity st.

Definition well_shaped (c : cell) : Prop :=
  match type c with
  | none => c = zero_cell
  | str => exists s, c = mkcell str dzero (Some s) /\ s <> []
  | eqn => exists f, c = mkcell eqn dzero (Some f) /\ evaluable f
  | num => strVal c = None \/ exists f, strVal c = Some f /\ evaluable f
  end.

Definition sheet_shaped (sh : grid) : Prop :=
  forall i j,
    well_shaped (sh i j) /\ (in_grid i j = false -> sh i j = zero_cell).

End Shapes.

(** ** The strings on the heap

    A finer embedding of the functions that allocate and release strings:
    a cell holds a pointer, the heap maps the addresses of the live blocks
    to their contents, and the text a caller hands to [set_cell_value] is a
    pointer as well.  An address is never handed out twice, so that a
    pointer to a released block stays dangling; allocation succeeds.  The
    operand stack of the evaluator lives and dies inside one call and is
    left as it is above. *)

Module Heap.

Definition pointer := nat.
Definition NULL : pointer := 0.

Record memory := mkmemory {
  blocks : pointer -> option cstring;   (* the live blocks *)
  fresh : pointer                            (* the next address handed out *)
}.

(** The string a pointer points to, when it points to a live block. *)
Definition deref (m : memory) (p : pointer) : option cstring :=
  if p =? NULL then None else blocks m p.

Section Model.

Context {P : Platform}.

Record cell := mkslot {
  type : CELL_TYPE;
  numVal : double;
  strVal : pointer
}.

Record world := mkstate {
  sheet : nat -> nat -> cell;
  display : list notification;
  heap : memory
}.

(** How a call ends, with the value it returns. *)
Inductive result (A : Type) :=
| Returns (a : A) (w : world)
| Exits
| Undefined.

Arguments Returns {A} a w.
Arguments Exits {A}.
Arguments Undefined {A}.

(** A statement: it runs in a world and ends in one of the three ways. *)
Definition stmt (A : Type) : Type := world -> result A.

Definition ret {A : Type} (a : A) : stmt A := fun w => Returns a w.

Definition bind {A B : Type} (m : stmt A) (k : A -> stmt B) : stmt B :=
  fun w =>
    match m w with
    | Returns a w' => k a w'
    | Exits => Exits
    | Undefined => Undefined
    end.

Definition undefined {A : Type} : stmt A := fun _ => Undefined.
Definition exits {A : Type} : stmt A := fun _ => Exits.

Notation "'let*' x ':=' m 'in' k" := (bind m (fun x => k))
  (at level 10, x name, m at level 100, k at level 200).
Notation "m >> k" := (bind m (fun _ => k))
  (at level 62, right associativity).

(** *** The allocator *)

(** [malloc], [calloc] or [strdup] followed by the writes that fill the
    block with [content]. *)
Definition allocate (content : cstring) : stmt pointer :=
  fun w =>
    let m := heap w in
    Returns (fresh m)
      (mkstate (sheet w) (display w)
         (mkmemory
            (fun q => if q =? fresh m then Some content else blocks m q)
            (S (fresh m)))).

(** [free]: nothing for the null pointer, undefined for a pointer that
    points to no live block. *)
Definition free (p : pointer) : stmt unit :=
  fun w =>
    if p =? NULL then Returns tt w
    else
      match blocks (heap w) p with
      | Some _ =>
          Returns tt
            (mkstate (sheet w) (display w)
               (mkmemory
                  (fun q => if q =? p then None else blocks (heap w) q)
                  (fresh (heap w))))
      | None => Undefined
      end.

(** Reading the string behind a pointer. *)
Definition read (p : pointer) : stmt cstring :=
  fun w =>
    match deref (heap w) p with
    | Some s => Returns s w
    | None => Undefined
    end.

Definition strdup (p : pointer) : stmt pointer :=
  let* s := read p in allocate s.

(** *** The sheet *)

Definition get_cell (row col : nat) : stmt cell :=
  fun w => Returns (sheet w row col) w.

(** Assignment to [sheet[row][col]]. *)
Definition assign (row col : nat) (c : cell) : stmt unit :=
  fun w =>
    Returns tt
      (mkstate
         (fun i j => if (i =? row) && (j =? col) then c else sheet w i j)
         (display w) (heap w)).

Definition set_type (row col : nat) (t : CELL_TYPE) : stmt unit :=
  let* c := get_cell row col in
  assign row col (mkslot t (numVal c) (strVal c)).

Definition set_numVal (row col : nat) (v : double) : stmt unit :=
  let* c := get_cell row col in
  assign row col (mkslot (type c) v (strVal c)).

Definition set_strVal (row col : nat) (p : pointer) : stmt unit :=
  let* c := get_cell row col in
  assign row col (mkslot (type c) (numVal c) p).

(** The sheet as the evaluator and the display see it: every pointer
    replaced by the string it points to. *)
Definition view (w : world) : grid :=
  fun i j =>
    let c := sheet w i j in
    mkcell (type c) (numVal c) (deref (heap w) (strVal c)).

Definition set_num_value (row col : nat) (text : pointer) : stmt unit :=
  let* c := get_cell row col in
  free (strVal c) >>
  set_type row col num >>
  let* s := read text in
  set_numVal row col (fst (strtod s)) >>
  set_strVal row col NULL.

Definition set_string_value (row col : nat) (text : pointer) : stmt unit :=
  let* c := get_cell row col in
  free (strVal c) >>
  set_type row col str >>
  set_numVal row col dzero >>
  let* p := strdup text in
  set_strVal row col p.

Definition initialize_cell (row col : nat) : stmt unit :=
  let* c := get_cell row col in
  match type c with
  | none =>
      free (strVal c) >>
      let* p := allocate [] in
      assign row col (mkslot num dzero p)
  | _ => ret tt
  end.

(** [parse_and_calculate_formula] on the string behind [formula]: the
    result when it answers true, [None] when it answers false. *)
Definition parse_and_calculate_formula (formula : pointer)
  : stmt (option double) :=
  let* s := read formula in
  fun w =>
    match parse_and_calculate_formula (view w) s with
    | Done result => Returns (Some result) w
    | Failed _ => Returns None w
    | NoReturn => Exits
    end.

(** The external [update_cell_display], given a string constant. *)
Definition show (row col : nat) (text : cstring) : stmt unit :=
  fun w =>
    Returns tt
      (mkstate (sheet w) (display w ++ [notify row col text]) (heap w)).

(** The external [update_cell_display], given a pointer. *)
Definition update_cell_display (row col : nat) (text : pointer) : stmt unit :=
  let* s := read text in show row col s.

Definition update_cell_value (row col : nat) : stmt unit :=
  let* c := get_cell row col in
  match type c with
  | eqn =>
      let* r := parse_and_calculate_formula (strVal c) in
      match r with
      | Some result =>
          set_numVal row col result >>
          set_type row col num >>
          let* c' := get_cell row col in
          update_cell_display row col (strVal c')
      | None => show row col ERROR
      end
  | _ => ret tt
  end.

Fixpoint for_each {A : Type} (xs : list A) (body : A -> stmt unit)
  : stmt unit :=
  match xs with
  | [] => ret tt
  | x :: rest => body x >> for_each rest body
  end.

Definition update_all (row col : nat) : stmt unit :=
  for_each (seq 0 NUM_ROWS) (fun i =>
    for_each (seq 0 NUM_COLS) (fun j =>
      if negb ((i =? row) && (j =? col)) then update_cell_value i j
      else ret tt)).

Definition set_cell_value (row col : nat) (text : pointer) : stmt unit :=
  if text =? NULL then ret tt
  else
    let* s := read text in
    match s with
    | [] => ret tt
    | _ :: _ =>
        if negb (in_grid row col) then undefined
        else
          let* c := get_cell row col in
          match type c with
          | none => initialize_cell row col
          | _ => ret tt
          end >>
          let* s := read text in
          let* text :=
            if is_valid_num (Some s) then
              set_num_value row col text >> ret text
            else
              set_string_value row col text >>
              let* s := read text in
              if is_valid_formula s then
                let* r := parse_and_calculate_formula text in
                match r with
                | Some result =>
                    set_type row col eqn >>
                    let* formattedResult := allocate (snprintf_lg result) in
                    free text >>
                    ret formattedResult
                | None =>
                    free text >>
                    allocate ERROR
                end
              else ret text
          in
          update_all row col >>
          update_cell_display row col text >>
          let* c := get_cell row col in
          match type c with
          | eqn | str => free text
          | _ => ret tt
          end
    end.

Definition clear_cell (row col : nat) : stmt unit :=
  if negb (in_grid row col) then undefined
  else
    let* c := get_cell row col in
    match type c with
    | none => ret tt
    | _ =>
        free (strVal c) >>
        assign row col (mkslot none dzero NULL) >>
        show row col []
    end.

(** [get_textual_value]: the block it allocates, filled by [strncpy]. *)
Definition get_textual_value (row col : nat) : stmt pointer :=
  if negb (in_grid row col) then undefined
  else
    let* this := get_cell row col in
    match type this with
    | none => allocate []
    | _ =>
        let* s := read (strVal this) in
        allocate (firstn (MAX_LEN - 1) s)
    end.

Definition free_textual_value (textual_value : pointer) : stmt unit :=
  free textual_value.

(** The zero-initialised sheet and an empty heap. *)
Definition initial_world : world :=
  mkstate (fun _ _ => mkslot none dzero NULL) [] (mkmemory (fun _ => None) 1).

End Model.

Arguments Returns {P A} a w.
Arguments Exits {P A}.
Arguments Undefined {P A}.

End Heap.

(** ** Who owns the strings *)

Section Ownership.

Context {P : Platform}.

(** The abstract world a world with a heap stands for. *)
Definition similar (wa : world) (w : Heap.world) : Prop :=
  (forall i j, sheet wa i j = Heap.view w i j)
  /\ display wa = Heap.display w.

(** Every string of the sheet is a live block that no other cell points
    to; the null pointer and the addresses not handed out so far are no
    live blocks. *)
Definition owned (w : Heap.world) : Prop :=
  let m := Heap.heap w in
  0 < Heap.fresh m
  /\ (forall q, Heap.fresh m <= q -> Heap.blocks m q = None)
  /\ Heap.blocks m Heap.NULL = None
  /\ (forall i j,
        Heap.strVal (Heap.sheet w i j) <> Heap.NULL ->
        Heap.blocks m (Heap.strVal (Heap.sheet w i j)) <> None)
  /\ (forall i j a b,
        Heap.strVal (Heap.sheet w i j) <> Heap.NULL ->
        Heap.strVal (Heap.sheet w i j) = Heap.strVal (Heap.sheet w a b) ->
        (i, j) = (a, b)).

(** No cell points to [p]. *)
Definition unshared (w : Heap.world) (p : Heap.pointer) : Prop :=
  forall i j, Heap.strVal (Heap.sheet w i j) <> p.

(** What a world on the heap consists of, field by field. *)
Definition becomes (w : Heap.world) (sh : nat -> nat -> Heap.cell)
    (d : list notification) (bl : Heap.pointer -> option cstring)
    (fr : Heap.pointer) : Prop :=
  (forall i j, Heap.sheet w i j = sh i j)
  /\ Heap.display w = d
  /\ (forall q, Heap.blocks (Heap.heap w) q = bl q)
  /\ Heap.fresh (Heap.heap w) = fr.

(** A step of the pass on the heap ends like the abstract step and leaves
    the heap and every pointer of the sheet as they are. *)
Definition kept (w : Heap.world) (o : outcome) (r : Heap.result unit)
  : Prop :=
  match o, r with
  | Returns wa', Heap.Returns _ w' =>
      similar wa' w'
      /\ Heap.heap w' = Heap.heap w
      /\ forall a b,
           Heap.strVal (Heap.sheet w' a b) = Heap.strVal (Heap.sheet w a b)
  | Exits, Heap.Exits => True
  | Undefined, Heap.Undefined => True
  | _, _ => False
  end.

(** The heap and the pointers of the sheet after a write of the string [s]
    at [text] to the cell at [row] and [col]. *)
Definition heap_after_write (w w' : Heap.world) (row col : nat)
    (text : Heap.pointer) (s : cstring) : Prop :=
  let old := Heap.strVal (Heap.sheet w row col) in
  let new := Heap.strVal (Heap.sheet w' row col) in
  (forall i j, (i, j) <> (row, col) ->
     Heap.strVal (Heap.sheet w' i j) = Heap.strVal (Heap.sheet w i j))
  /\ Heap.fresh (Heap.heap w) <= Heap.fresh (Heap.heap w')
  /\ if is_valid_num (Some s) then
       new = Heap.NULL
       /\ forall q,
            Heap.blocks (Heap.heap w') q
            = if q =? old then None else Heap.blocks (Heap.heap w) q
     else
       Heap.fresh (Heap.heap w) <= new < Heap.fresh (Heap.heap w')
       /\ forall q,
            Heap.blocks (Heap.heap w') q
            = if q =? new then Some s
              else if (q =? old) || (q =? text) then None
              else Heap.blocks (Heap.heap w) q.

(** The worlds brought about by a program that keeps to the calling
    discipline: it allocates strings, it releases blocks of its own only,
    and the text it hands to [set_cell_value] is the null pointer or a
    block of its own. *)
Inductive served : Heap.world -> Prop :=
| served_initial : served Heap.initial_world
| served_allocate : forall w s p w',
    served w -> Heap.allocate s w = Heap.Returns p w' -> served w'
| served_release : forall w p w',
    served w -> p = Heap.NULL \/ unshared w p ->
    Heap.free p w = Heap.Returns tt w' -> served w'
| served_set : forall w row col text w',
    served w -> text = Heap.NULL \/ unshared w text ->
    Heap.set_cell_value row col text w = Heap.Returns tt w' -> served w'
| served_clear : forall w row col w',
    served w -> Heap.clear_cell row col w = Heap.Returns tt w' -> served w'
| served_get : forall w row col p w',
    served w -> Heap.get_textual_value row col w = Heap.Returns p w' ->
    served w'.

End Ownership.

(** ** Worlds on the reference platform *)

Definition returned (o : @outcome reference_platform) : world :=
  match o with
  | Returns w => w
  | _ => initial_world
  end.

(** B1 holds the formula text [=A1]. *)
Definition world_b1 : world :=
  returned (set_cell_value 0 1 (Some (cstr "=A1")) initial_world).

(** Then 1 is written to A1. *)
Definition world_a1 : world :=
  returned (set_cell_value 0 0 (Some (cstr "1")) world_b1).

(** Then 2 is written to A1. *)
Definition world_a2 : world :=
  returned (set_cell_value 0 0 (Some (cstr "2")) world_a1).

(** A sheet, not one a caller can reach, whose cell A1 is a formula cell
    with a text that fails to evaluate. *)
Definition world_broken : world :=
  mkworld (store empty_sheet 0 0 (mkcell eqn dzero (Some (cstr "=A1+")))) [].

Definition number_1 : @double reference_platform := strtod_value (cstr "1").
Definition number_2 : @double reference_platform := strtod_value (cstr "2").

(** The world a statement on the heap leaves behind. *)
Definition left_by {A : Type} (r : @Heap.result reference_platform A)
  : Heap.world :=
  match r with
  | Heap.Returns _ w => w
  | _ => Heap.initial_world
  end.

(** The caller has allocated the text [=1+2]: the block at address 1. *)
Definition heap_formula : Heap.world :=
  left_by (Heap.allocate (cstr "=1+2") Heap.initial_world).

(** Then it has written that text to A1. *)
Definition heap_written : Heap.world :=
  left_by (Heap.set_cell_value 0 0 1 heap_formula).

(** Then it has read A1: the copy is the block at address 5. *)
Definition heap_read : Heap.world :=
  left_by (Heap.get_textual_value 0 0 heap_written).

(** ** Proof automation *)

(** A fact about one character, settled on each of the 256 characters. *)
Ltac by_cases_on c :=
  destruct c as [[] [] [] [] [] [] [] []]; vm_compute; try reflexivity;
  try discriminate; auto.

(** * Properties *)

(** ** Characters *)

Lemma space_is_plain (c : ascii) :
  isspace c = true ->
  isdigit c = false /\ isalpha c = false /\ islower c = false
  /\ is_char "." c = false /\ is_char "+" c = false
  /\ is_char EQUALS_CHAR c = false.
Proof. by_cases_on c; intros; repeat split; discriminate. Qed.

Lemma digit_is_plain (c : ascii) :
  isdigit c = true ->
  isspace c = false /\ isalpha c = false /\ islower c = false
  /\ is_char "." c = false /\ is_char "+" c = false
  /\ is_char EQUALS_CHAR c = false /\ is_char " " c = false.
Proof. by_cases_on c; intros; repeat split; discriminate. Qed.

Lemma upper_is_plain (c : ascii) :
  isupper c = true ->
  isspace c = false /\ isalpha c = true /\ islower c = false
  /\ isdigit c = false /\ is_char "." c = false /\ is_char "+" c = false
  /\ is_char EQUALS_CHAR c = false /\ is_char " " c = false.
Proof. by_cases_on c; intros; repeat split; discriminate. Qed.

Lemma is_char_eq (k c : ascii) : is_char k c = true <-> c = k.
Proof. unfold is_char. apply Ascii.eqb_eq. Qed.

Lemma is_char_neq (k c : ascii) : is_char k c = false <-> c <> k.
Proof. unfold is_char. apply Ascii.eqb_neq. Qed.

(** ** White space *)

Lemma skip_whitespace_split (s : cstring) :
  exists ws, s = ws ++ skip_whitespace s /\ whitespace ws.
Proof.
  induction s as [|c s IH]; simpl.
  - exists []. split; [reflexivity | constructor].
  - destruct (isspace c) eqn:Hc.
    + destruct IH as (ws & Hs & Hws). exists (c :: ws). split.
      * simpl. now rewrite <- Hs.
      * now constructor.
    + exists []. split; [reflexivity | constructor].
Qed.

Lemma skip_whitespace_head (s : cstring) (c : ascii) (rest : cstring) :
  skip_whitespace s = c :: rest -> isspace c = false.
Proof.
  induction s as [|a s IH]; simpl; [discriminate|].
  destruct (isspace a) eqn:Ha; [exact IH|].
  intros H. now inversion H; subst.
Qed.

Lemma skip_whitespace_app (ws body : cstring) :
  whitespace ws ->
  match body with c :: _ => isspace c = false | [] => True end ->
  skip_whitespace (ws ++ body) = body.
Proof.
  intros Hws Hb. induction Hws as [|a ws Ha _ IH]; simpl.
  - destruct body as [|c r]; simpl; [reflexivity | now rewrite Hb].
  - now rewrite Ha.
Qed.

Lemma skip_whitespace_length (s : cstring) :
  length (skip_whitespace s) <= length s.
Proof.
  induction s as [|c s IH]; simpl; [lia|].
  destruct (isspace c); simpl; lia.
Qed.

(** ** The numeric test *)

Lemma is_valid_num_loop_spec (s : cstring) (hasDigit hasDecimalPoint : bool) :
  is_valid_num_loop s hasDigit hasDecimalPoint
  = forallb (fun c => isdigit c || is_char "." c) s
    && (count_occ ascii_dec s "."%char + (if hasDecimalPoint then 1 else 0)
        <=? 1)
    && (hasDigit || existsb isdigit s).
Proof.
  revert hasDigit hasDecimalPoint.
  induction s as [|c s IH]; intros hd hp; simpl.
  - destruct hp, hd; reflexivity.
  - destruct (isdigit c) eqn:Hd.
    + destruct (digit_is_plain c Hd) as (_ & _ & _ & Hdot & _).
      apply is_char_neq in Hdot.
      rewrite IH. simpl.
      destruct (ascii_dec c "."); [congruence|].
      now rewrite !orb_true_r.
    + simpl. destruct (is_char "." c) eqn:Hdot; [|reflexivity].
      apply is_char_eq in Hdot. subst c.
      destruct (ascii_dec "." "."); [|congruence].
      destruct hp.
      * replace (S (count_occ ascii_dec s "."%char) + 1 <=? 1) with false
          by (symmetry; apply Nat.leb_gt; lia).
        now rewrite andb_false_r.
      * rewrite IH.
        now replace (S (count_occ ascii_dec s "."%char) + 0)
          with (count_occ ascii_dec s "."%char + 1) by lia.
Qed.

Lemma is_valid_num_literal (s : cstring) :
  is_valid_num (Some s) = is_decimal_literal (skip_whitespace s).
Proof.
  unfold is_valid_num, is_decimal_literal.
  rewrite is_valid_num_loop_spec. now rewrite Nat.add_0_r.
Qed.

Lemma decimal_literal_head (body : cstring) :
  is_decimal_literal body = true ->
  exists c rest, body = c :: rest /\ (isdigit c || is_char "." c) = true.
Proof.
  unfold is_decimal_literal. destruct body as [|c rest]; simpl.
  - discriminate.
  - intros H. apply andb_prop in H as [H _]. apply andb_prop in H as [H _].
    apply andb_prop in H as [H _]. now exists c, rest.
Qed.

Lemma literal_char_not_space (c : ascii) :
  (isdigit c || is_char "." c) = true -> isspace c = false.
Proof. by_cases_on c. Qed.

(** C6 (amended): a text is classified Numeric exactly when it is a decimal
    literal (digits, at most one decimal point, at least one digit, no sign,
    no exponent) with optional white space in front of it and nothing behind
    it. *)
Theorem numeric_iff_leading_decimal (s : cstring) :
  is_valid_num (Some s) = true <-> leading_decimal s.
Proof.
  rewrite is_valid_num_literal. split.
  - intros H. destruct (skip_whitespace_split s) as (ws & Hs & Hws).
    now exists ws, (skip_whitespace s).
  - intros (ws & body & Hs & Hws & Hbody). subst s.
    rewrite skip_whitespace_app; trivial.
    destruct (decimal_literal_head body Hbody) as (c & rest & -> & Hc).
    now apply literal_char_not_space.
Qed.

(** ** The formula grammar check *)

Lemma whitespace_no_lower (ws : cstring) :
  whitespace ws -> Forall (fun c => islower c = false) ws.
Proof.
  intros H. eapply Forall_impl; [|exact H].
  intros c Hc. now destruct (space_is_plain c Hc) as (_ & _ & ? & _).
Qed.

Lemma is_valid_formula_loop_no_lower (rounds : nat) (s : cstring) :
  is_valid_formula_loop rounds s = true ->
  Forall (fun c => islower c = false) s.
Proof.
  revert s. induction rounds as [|n IH]; intros s; destruct s as [|a s'].
  - constructor.
  - discriminate.
  - constructor.
  - cbn [is_valid_formula_loop].
    destruct (skip_whitespace_split (a :: s')) as (ws & Hs & Hws).
    destruct (skip_whitespace (a :: s')) as [|c rest]; [discriminate|].
    intros H. rewrite Hs. apply Forall_app. split.
    + now apply whitespace_no_lower.
    + destruct (isalpha c) eqn:Ha.
      * destruct (islower c) eqn:Hl; [discriminate|].
        constructor; [exact Hl | now apply IH].
      * destruct (isdigit c || is_char "." c || is_char "+" c) eqn:Hok;
          [|discriminate].
        constructor; [|now apply IH].
        destruct (islower c) eqn:Hl; [|reflexivity].
        unfold isalpha in Ha. rewrite Hl, orb_true_r in Ha. discriminate.
Qed.

Lemma is_valid_formula_no_lower (s : cstring) :
  is_valid_formula s = true -> Forall (fun c => islower c = false) s.
Proof.
  unfold is_valid_formula.
  destruct (skip_whitespace_split s) as (ws & Hs & Hws).
  destruct (skip_whitespace s) as [|c rest]; [discriminate|].
  destruct (is_char EQUALS_CHAR c) eqn:Hc; [|discriminate].
  intros H. rewrite Hs. apply Forall_app. split.
  - now apply whitespace_no_lower.
  - constructor.
    + apply is_char_eq in Hc. now subst c.
    + eapply is_valid_formula_loop_no_lower; eauto.
Qed.

Section Properties.

Context {P : Platform}.

(** ** The operand stack *)

Lemma elems_push (st : DoubleAssist) (v : double) :
  elems (double_assist_push st v) = v :: elems st.
Proof.
  unfold double_assist_push. now destruct (capacity st <=? size st).
Qed.

Lemma size_push (st : DoubleAssist) (v : double) :
  size (double_assist_push st v) = S (size st).
Proof. unfold size. now rewrite elems_push. Qed.

Lemma elems_pushes (vs : list double) (st : DoubleAssist) :
  elems (fold_left double_assist_push vs st) = rev vs ++ elems st.
Proof.
  revert st. induction vs as [|v vs IH]; intros st; simpl; [reflexivity|].
  now rewrite IH, elems_push, <- app_assoc.
Qed.

(** Draining adds the elements from the top of the stack downwards. *)
Lemma drain_elems (st : DoubleAssist) (acc : double) :
  drain (size st) st acc = fold_left dadd (elems st) acc.
Proof.
  destruct st as [es cap]. unfold size. simpl.
  revert cap acc. induction es as [|v es IH]; intros cap acc; simpl;
    [reflexivity|].
  unfold double_assist_pop. simpl. apply IH.
Qed.

(** ** The scanning loop *)

Lemma strtol_length (s : cstring) : length (snd (strtol s)) <= length s.
Proof. unfold strtol. simpl. rewrite length_skipn. lia. Qed.

Lemma is_valid_formula_loop_rounds (n m : nat) (s : cstring) :
  length s <= n -> length s <= m ->
  is_valid_formula_loop n s = is_valid_formula_loop m s.
Proof.
  revert m s. induction n as [|n IH]; intros m s Hn Hm.
  - destruct s; [|simpl in Hn; lia]. now destruct m.
  - destruct s as [|a s']; [now destruct m|].
    destruct m as [|m]; [simpl in Hm; lia|].
    cbn [is_valid_formula_loop].
    pose proof (skip_whitespace_length (a :: s')) as Hlen.
    destruct (skip_whitespace (a :: s')) as [|c rest]; [reflexivity|].
    simpl in Hlen, Hn, Hm.
    rewrite (IH m rest) by lia. reflexivity.
Qed.

Lemma scan_loop_rounds (n m : nat) (sh : grid) (f : cstring)
    (st : DoubleAssist) (ops : nat) :
  length f <= n -> length f <= m ->
  scan_loop n sh f st ops = scan_loop m sh f st ops.
Proof.
  revert m f st ops. induction n as [|n IH]; intros m f st ops Hn Hm.
  - destruct f; [|simpl in Hn; lia]. now destruct m.
  - destruct f as [|c rest]; [now destruct m|].
    destruct m as [|m]; [simpl in Hm; lia|].
    simpl in Hn, Hm. cbn [scan_loop].
    destruct (is_char EQUALS_CHAR c || is_char " " c); [apply IH; lia|].
    destruct (is_char "+" c); [apply IH; lia|].
    destruct (isalpha c).
    + destruct (match rest with d :: _ => isdigit d | [] => false end);
        [|reflexivity].
      pose proof (strtol_length rest) as Hl.
      destruct (strtol rest) as [v f']. simpl in Hl.
      match goal with |- (if ?b then _ else _) = _ => destruct b end;
        [reflexivity|].
      apply IH; lia.
    + destruct (isdigit c || is_char "." c); [|reflexivity].
      destruct (strtod (c :: rest)) as [v f'].
      destruct (length f' <? length (c :: rest)) eqn:Hl; [|reflexivity].
      apply Nat.ltb_lt in Hl. simpl in Hl. apply IH; lia.
Qed.

(** The course of a scan does not depend on the contents of the sheet:
    only the values pushed do. *)
Lemma scan_loop_shape (n : nat) (sh1 sh2 : grid) (f : cstring)
    (st1 st2 : DoubleAssist) (ops : nat) :
  size st1 = size st2 ->
  same_shape (scan_loop n sh1 f st1 ops) (scan_loop n sh2 f st2 ops).
Proof.
  revert f st1 st2 ops. induction n as [|n IH]; intros f st1 st2 ops Hst.
  - destruct f; simpl; auto.
  - destruct f as [|c rest]; [simpl; auto|].
    cbn [scan_loop].
    destruct (is_char EQUALS_CHAR c || is_char " " c); [now apply IH|].
    destruct (is_char "+" c); [now apply IH|].
    destruct (isalpha c).
    + destruct (match rest with d :: _ => isdigit d | [] => false end);
        [|simpl; auto].
      destruct (strtol rest) as [v f'].
      match goal with |- same_shape (if ?b then _ else _) _ => destruct b end;
        [simpl; auto|].
      apply IH. now rewrite !size_push, Hst.
    + destruct (isdigit c || is_char "." c); [|simpl; auto].
      destruct (strtod (c :: rest)) as [v f'].
      destruct (length f' <? length (c :: rest)); [|simpl; auto].
      apply IH. now rewrite !size_push, Hst.
Qed.

Lemma parse_shape (sh1 sh2 : grid) (f : cstring) :
  same_course (parse_and_calculate_formula sh1 f)
              (parse_and_calculate_formula sh2 f).
Proof.
  unfold parse_and_calculate_formula.
  destruct (is_valid_formula f); simpl; [|reflexivity].
  pose proof (scan_loop_shape (length f) sh1 sh2 f
                make_double_assist make_double_assist 0 eq_refl) as H.
  destruct (scan_loop (length f) sh1 f make_double_assist 0) as [s1 o1|e1|];
    destruct (scan_loop (length f) sh2 f make_double_assist 0) as [s2 o2|e2|];
    simpl in H; try contradiction; simpl; auto.
  destruct H as [Hl ->]. rewrite Hl.
  destruct (size s2 =? o2 + 1); simpl; auto.
Qed.

Lemma parse_failed_any (sh1 sh2 : grid) (f : cstring) (e : FormulaError) :
  parse_and_calculate_formula sh1 f = Failed e ->
  parse_and_calculate_formula sh2 f = Failed e.
Proof.
  intros H. pose proof (parse_shape sh1 sh2 f) as S. rewrite H in S.
  destruct (parse_and_calculate_formula sh2 f); simpl in S;
    try contradiction. now subst.
Qed.

Lemma parse_done_any (sh1 sh2 : grid) (f : cstring) (r : double) :
  parse_and_calculate_formula sh1 f = Done r ->
  exists r', parse_and_calculate_formula sh2 f = Done r'.
Proof.
  intros H. pose proof (parse_shape sh1 sh2 f) as S. rewrite H in S.
  destruct (parse_and_calculate_formula sh2 f); simpl in S;
    try contradiction. eauto.
Qed.

Lemma parse_done_valid (sh : grid) (f : cstring) (r : double) :
  parse_and_calculate_formula sh f = Done r -> is_valid_formula f = true.
Proof.
  unfold parse_and_calculate_formula.
  destruct (is_valid_formula f); [reflexivity | discriminate].
Qed.

(** ** Loops *)

Lemma for_each_app {A : Type} (xs ys : list A) (body : A -> world -> outcome)
    (w : world) :
  for_each (xs ++ ys) body w = for_each xs body w ;; for_each ys body.
Proof.
  revert w. induction xs as [|x xs IH]; intros w; simpl; [reflexivity|].
  destruct (body x w); simpl; auto.
Qed.

Lemma for_each_map {A B : Type} (g : A -> B) (xs : list A)
    (body : B -> world -> outcome) (w : world) :
  for_each (map g xs) body w = for_each xs (fun x => body (g x)) w.
Proof.
  revert w. induction xs as [|x xs IH]; intros w; simpl; [reflexivity|].
  destruct (body (g x) w); simpl; auto.
Qed.

Lemma for_each_nested (xs ys : list nat) (f : nat -> nat -> world -> outcome)
    (w : world) :
  for_each xs (fun i => for_each ys (f i)) w
  = for_each (list_prod xs ys) (fun p => f (fst p) (snd p)) w.
Proof.
  revert w. induction xs as [|x xs IH]; intros w; simpl; [reflexivity|].
  rewrite for_each_app, for_each_map. simpl.
  destruct (for_each ys (f x) w); simpl; auto.
Qed.

Lemma update_all_cells (row col : nat) (w : world) :
  update_all row col w = for_each cells (visit row col) w.
Proof. unfold update_all, cells. now rewrite for_each_nested. Qed.

Lemma in_cells (i j : nat) : In (i, j) cells <-> in_grid i j = true.
Proof.
  unfold cells, in_grid. rewrite in_prod_iff, !in_seq, andb_true_iff.
  rewrite !Nat.ltb_lt. lia.
Qed.

Lemma list_prod_nodup (xs ys : list nat) :
  NoDup xs -> NoDup ys -> NoDup (list_prod xs ys).
Proof.
  intros Hx Hy. induction Hx as [|x xs Hnin _ IH]; simpl; [constructor|].
  apply NoDup_app; [|exact IH|].
  - apply NoDup_map_NoDup_ForallPairs; [|exact Hy].
    intros a b _ _ E. now inversion E.
  - intros [a b] Ha Hb. apply in_map_iff in Ha as (y & E & _).
    inversion E; subst. apply in_prod_iff in Hb as [Hb _]. contradiction.
Qed.

Lemma cells_nodup : NoDup cells.
Proof. unfold cells. apply list_prod_nodup; apply seq_NoDup. Qed.

(** What holds across one visit holds across the loop. *)
Lemma for_each_induction (row col : nat) (cs : list (nat * nat))
    (R : world -> world -> Prop) :
  (forall w, R w w) ->
  (forall w1 w2 w3, R w1 w2 -> R w2 w3 -> R w1 w3) ->
  (forall p w w', In p cs -> visit row col p w = Returns w' -> R w w') ->
  forall w w', for_each cs (visit row col) w = Returns w' -> R w w'.
Proof.
  intros Hrefl Htrans. induction cs as [|p cs IH]; intros Hstep w w' H.
  - simpl in H. inversion H. apply Hrefl.
  - simpl in H. destruct (visit row col p w) as [w1| |] eqn:Hv;
      simpl in H; try discriminate.
    apply Htrans with w1.
    + apply (Hstep p); [now left | exact Hv].
    + apply IH; [|exact H]. intros q u u' Hq. apply Hstep. now right.
Qed.

(** ** One visit of the pass *)

(** The three ways [update_cell_value] returns. *)
Lemma update_cell_value_returns (i j : nat) (w w' : world) :
  update_cell_value i j w = Returns w' ->
  (type (sheet w i j) <> eqn /\ w' = w)
  \/ (exists f r,
        type (sheet w i j) = eqn /\ strVal (sheet w i j) = Some f
        /\ parse_and_calculate_formula (sheet w) f = Done r
        /\ w' = mkworld (store (sheet w) i j (mkcell num r (Some f)))
                        (display w ++ [notify i j f]))
  \/ (exists f e,
        type (sheet w i j) = eqn /\ strVal (sheet w i j) = Some f
        /\ parse_and_calculate_formula (sheet w) f = Failed e
        /\ w' = mkworld (sheet w) (display w ++ [notify i j ERROR])).
Proof.
  unfold update_cell_value, update_cell_display.
  destruct (type (sheet w i j)) eqn:Ht;
    try (intros H; inversion H; left; split; [discriminate | reflexivity]).
  destruct (strVal (sheet w i j)) as [f|] eqn:Hs; [|discriminate].
  destruct (parse_and_calculate_formula (sheet w) f) as [r|e|] eqn:Hp;
    simpl; intros H; inversion H; subst.
  - right. left. exists f, r. auto.
  - right. right. exists f, e. auto.
Qed.

Lemma store_same (sh : grid) (i j : nat) (c : cell) : store sh i j c i j = c.
Proof. unfold store. now rewrite !Nat.eqb_refl. Qed.

Lemma store_other (sh : grid) (i j a b : nat) (c : cell) :
  (a, b) <> (i, j) -> store sh i j c a b = sh a b.
Proof.
  intros H. unfold store.
  destruct (a =? i) eqn:Ha; [|reflexivity].
  destruct (b =? j) eqn:Hb; [|reflexivity].
  apply Nat.eqb_eq in Ha, Hb. subst. contradiction.
Qed.

Lemma visit_skips (row col : nat) (w : world) :
  visit row col (row, col) w = Returns w.
Proof. unfold visit. simpl. now rewrite !Nat.eqb_refl. Qed.

Lemma visit_updates (row col : nat) (p : nat * nat) (w : world) :
  p <> (row, col) ->
  visit row col p w = update_cell_value (fst p) (snd p) w.
Proof.
  intros H. unfold visit. destruct p as [i j]. simpl.
  destruct (i =? row) eqn:Hi; [|reflexivity].
  destruct (j =? col) eqn:Hj; [|reflexivity].
  apply Nat.eqb_eq in Hi, Hj. subst. contradiction.
Qed.

Lemma pair_eq_dec (p q : nat * nat) : {p = q} + {p <> q}.
Proof. decide equality; apply Nat.eq_dec. Qed.

(** What one visit may do to the sheet and to the display. *)
Lemma visit_returns (row col : nat) (p : nat * nat) (w w' : world) :
  visit row col p w = Returns w' ->
  w' = w
  \/ (p <> (row, col) /\
      exists f,
        type (sheet w (fst p) (snd p)) = eqn
        /\ strVal (sheet w (fst p) (snd p)) = Some f
        /\ ((exists r,
              parse_and_calculate_formula (sheet w) f = Done r
              /\ w' = mkworld
                        (store (sheet w) (fst p) (snd p)
                           (mkcell num r (Some f)))
                        (display w ++ [notify (fst p) (snd p) f]))
            \/ (exists e,
              parse_and_calculate_formula (sheet w) f = Failed e
              /\ w' = mkworld (sheet w)
                        (display w ++ [notify (fst p) (snd p) ERROR])))).
Proof.
  destruct (pair_eq_dec p (row, col)) as [->|Hp].
  - rewrite visit_skips. intros H. inversion H. now left.
  - rewrite visit_updates by exact Hp. intros H.
    apply update_cell_value_returns in H
      as [[_ ->]|[(f & r & Ht & Hs & Hr & ->)|(f & e & Ht & Hs & He & ->)]].
    + now left.
    + right. split; [exact Hp|]. exists f. repeat split; trivial.
      left. now exists r.
    + right. split; [exact Hp|]. exists f. repeat split; trivial.
      right. now exists e.
Qed.

(** ** The pass over the sheet *)

Lemma pass_effect_refl (row col : nat) (cs : list (nat * nat)) (w : world) :
  pass_effect row col cs w w.
Proof.
  split; [now left|]. exists []. now rewrite app_nil_r.
Qed.

Lemma pass_effect_trans (row col : nat) (cs : list (nat * nat))
    (w1 w2 w3 : world) :
  pass_effect row col cs w1 w2 -> pass_effect row col cs w2 w3 ->
  pass_effect row col cs w1 w3.
Proof.
  intros [S1 (e1 & D1 & F1)] [S2 (e2 & D2 & F2)].
  assert (Htype : forall i j, type (sheet w2 i j) = eqn ->
                              sheet w2 i j = sheet w1 i j).
  { intros i j Ht. destruct (S1 i j) as [E|(_ & _ & _ & f & r & _ & E)];
      [exact E|]. rewrite E in Ht. discriminate. }
  split.
  - intros i j.
    destruct (S2 i j) as [E2|(Hin & Hne & Ht & f & r & Hs & E2)].
    + rewrite E2. apply S1.
    + right. pose proof (Htype i j Ht) as E. rewrite E in Ht, Hs.
      repeat split; trivial. now exists f, r.
  - exists (e1 ++ e2). split.
    + now rewrite D2, D1, app_assoc.
    + apply Forall_app. split; [exact F1|].
      eapply Forall_impl; [|exact F2]. intros n (Hin & Hne & Ht).
      repeat split; trivial. now rewrite <- (Htype _ _ Ht).
Qed.

Lemma pass_effect_visit (row col : nat) (cs : list (nat * nat))
    (p : nat * nat) (w w' : world) :
  In p cs -> visit row col p w = Returns w' -> pass_effect row col cs w w'.
Proof.
  intros Hin H. destruct p as [a b].
  apply visit_returns in H
    as [->|(Hp & f & Ht & Hs & [(r & _ & ->)|(e & _ & ->)])];
    simpl in *.
  - apply pass_effect_refl.
  - split.
    + intros i j. simpl.
      destruct (pair_eq_dec (i, j) (a, b)) as [E|N].
      * inversion E; subst. right. repeat split; trivial.
        exists f, r. split; [exact Hs | apply store_same].
      * left. now apply store_other.
    + exists [notify a b f]. split; [reflexivity|].
      constructor; [|constructor]. simpl. auto.
  - split; [now left|].
    exists [notify a b ERROR]. split; [reflexivity|].
    constructor; [|constructor]. simpl. auto.
Qed.

Lemma for_each_effect (row col : nat) (cs : list (nat * nat)) (w w' : world) :
  for_each cs (visit row col) w = Returns w' -> pass_effect row col cs w w'.
Proof.
  apply for_each_induction.
  - apply pass_effect_refl.
  - apply pass_effect_trans.
  - apply pass_effect_visit.
Qed.

Lemma pass_frame (row col : nat) (cs : list (nat * nat)) (w w' : world)
    (i j : nat) :
  pass_effect row col cs w w' ->
  ~ In (i, j) cs \/ (i, j) = (row, col) \/ type (sheet w i j) <> eqn ->
  sheet w' i j = sheet w i j.
Proof.
  intros [S _] H. destruct (S i j) as [E|(Hin & Hne & Ht & _)]; [exact E|].
  destruct H as [H|[H|H]]; contradiction.
Qed.

Lemma pass_strVal (row col : nat) (cs : list (nat * nat)) (w w' : world)
    (i j : nat) :
  pass_effect row col cs w w' ->
  strVal (sheet w' i j) = strVal (sheet w i j).
Proof.
  intros [S _]. destruct (S i j) as [E|(_ & _ & _ & f & r & Hs & E)].
  - now rewrite E.
  - now rewrite E, Hs.
Qed.

Lemma pass_keeps_evaluable (row col : nat) (cs : list (nat * nat))
    (w w' : world) :
  pass_effect row col cs w w' ->
  formulas_evaluable (sheet w) -> formulas_evaluable (sheet w').
Proof.
  intros [S _] Hinv i j Ht.
  destruct (S i j) as [E|(_ & _ & _ & f & r & _ & E)].
  - rewrite E in *. now apply Hinv.
  - rewrite E in Ht. discriminate.
Qed.

Lemma visit_total (row col : nat) (p : nat * nat) (w : world) :
  formulas_evaluable (sheet w) -> exists w', visit row col p w = Returns w'.
Proof.
  intros Hinv. unfold visit.
  destruct (negb ((fst p =? row) && (snd p =? col))); [|now exists w].
  unfold update_cell_value.
  destruct (type (sheet w (fst p) (snd p))) eqn:Ht; try (now exists w).
  destruct (Hinv _ _ Ht) as (f & Hs & Hev). rewrite Hs.
  destruct (Hev (sheet w)) as [r Hr]. rewrite Hr.
  unfold update_cell_display. eauto.
Qed.

Lemma for_each_total (row col : nat) (cs : list (nat * nat)) (w : world) :
  formulas_evaluable (sheet w) ->
  exists w', for_each cs (visit row col) w = Returns w'.
Proof.
  revert w. induction cs as [|p cs IH]; intros w Hinv; simpl.
  - now exists w.
  - destruct (visit_total row col p w Hinv) as [w1 H1]. rewrite H1. simpl.
    apply IH.
    eapply pass_keeps_evaluable; [|exact Hinv].
    apply (pass_effect_visit row col [p] p); [now left | exact H1].
Qed.

(** The turn of one formula cell in a pass: the world [wm] it is evaluated
    in, and what the pass leaves behind for it. *)
Lemma pass_turn (row col : nat) (cs : list (nat * nat)) (w w' : world)
    (i j : nat) (f : cstring) :
  NoDup cs -> In (i, j) cs -> (i, j) <> (row, col) ->
  type (sheet w i j) = eqn -> strVal (sheet w i j) = Some f ->
  for_each cs (visit row col) w = Returns w' ->
  exists wm evs1 evs2,
    (forall a b, sheet wm a b = sheet w a b \/ sheet wm a b = sheet w' a b)
    /\ (forall a b, (a, b) = (row, col) \/ type (sheet w a b) <> eqn ->
                    sheet wm a b = sheet w a b)
    /\ Forall (fun n => ~ about (i, j) n) (evs1 ++ evs2)
    /\ ((exists r,
           parse_and_calculate_formula (sheet wm) f = Done r
           /\ sheet w' i j = mkcell num r (Some f)
           /\ display w' = display w ++ evs1 ++ notify i j f :: evs2)
        \/ (exists e,
           parse_and_calculate_formula (sheet wm) f = Failed e
           /\ sheet w' i j = sheet w i j
           /\ display w' = display w ++ evs1 ++ notify i j ERROR :: evs2)).
Proof.
  intros Hnd Hin Hne Ht Hs H.
  destruct (in_split _ _ Hin) as (pre & post & ->).
  rewrite for_each_app in H.
  destruct (for_each pre (visit row col) w) as [wm| |] eqn:Hpre;
    simpl in H; try discriminate.
  destruct (visit row col (i, j) wm) as [w2| |] eqn:Hv;
    simpl in H; try discriminate.
  pose proof (NoDup_remove_2 _ _ _ Hnd) as Hnin.
  assert (Hnpre : ~ In (i, j) pre) by (intros X; apply Hnin, in_or_app; auto).
  assert (Hnpost : ~ In (i, j) post)
    by (intros X; apply Hnin, in_or_app; auto).
  pose proof (for_each_effect _ _ _ _ _ Hpre) as Epre.
  pose proof (for_each_effect _ _ _ _ _ H) as Epost.
  assert (Hmid : sheet wm i j = sheet w i j)
    by (eapply pass_frame; [exact Epre | now left]).
  assert (Hother : forall a b, (a, b) <> (i, j) ->
                               sheet w2 a b = sheet wm a b).
  { intros a b Hab.
    apply (pass_effect_visit row col [(i, j)]) in Hv; [|now left].
    eapply pass_frame; [exact Hv|]. left. intros [X|[]]. congruence. }
  destruct Epre as [Spre (e1 & D1 & F1)].
  destruct Epost as [Spost (e2 & D2 & F2)].
  exists wm, e1, e2. repeat split.
  - intros a b. destruct (in_dec pair_eq_dec (a, b) pre) as [Hab|Hab].
    + right.
      assert (Hne' : (a, b) <> (i, j)) by (intros X; congruence).
      rewrite <- (Hother a b Hne').
      destruct (Spost a b) as [E|(Hin' & _)]; [now rewrite E|].
      exfalso. apply NoDup_remove_1 in Hnd as Hnd1.
      assert (Hx : NoDup (pre ++ post)) by exact Hnd1.
      clear - Hab Hin' Hx. induction pre as [|q pre IH]; [contradiction|].
      simpl in Hx. inversion Hx; subst. destruct Hab as [->|Hab].
      * apply H1, in_or_app. now right.
      * now apply IH.
    + left. destruct (Spre a b) as [E|(Hin' & _)]; [exact E|contradiction].
  - intros a b Hab.
    destruct (Spre a b) as [E|(_ & Hne' & Ht' & _)]; [exact E|].
    destruct Hab; contradiction.
  - apply Forall_app. split.
    + eapply Forall_impl; [|exact F1]. intros n (Hn & _) X.
      unfold about in X. rewrite X in Hn. contradiction.
    + eapply Forall_impl; [|exact F2]. intros n (Hn & _) X.
      unfold about in X. rewrite X in Hn. contradiction.
  - rewrite visit_updates in Hv by exact Hne. simpl in Hv.
    apply update_cell_value_returns in Hv
      as [[Hx _]|[(f' & r & _ & Hs' & Hr & ->)|(f' & e & _ & Hs' & He & ->)]].
    + rewrite Hmid in Hx. contradiction.
    + rewrite Hmid, Hs in Hs'. inversion Hs'; subst f'.
      left. exists r. repeat split; trivial.
      * destruct (Spost i j) as [E|(Hin' & _)]; [|contradiction].
        rewrite E. simpl. apply store_same.
      * rewrite D2. simpl. rewrite D1. now rewrite <- !app_assoc.
    + rewrite Hmid, Hs in Hs'. inversion Hs'; subst f'.
      right. exists e. repeat split; trivial.
      * destruct (Spost i j) as [E|(Hin' & _)]; [|contradiction].
        rewrite E. simpl. exact Hmid.
      * rewrite D2. simpl. rewrite D1. now rewrite <- !app_assoc.
Qed.

(** ** Evaluation reads the sheet cell by cell *)

Lemma scan_loop_ext (n : nat) (sh1 sh2 : grid) (f : cstring)
    (st : DoubleAssist) (ops : nat) :
  (forall a b, sh1 a b = sh2 a b) ->
  scan_loop n sh1 f st ops = scan_loop n sh2 f st ops.
Proof.
  intros E. revert f st ops. induction n as [|n IH]; intros f st ops.
  - now destruct f.
  - destruct f as [|c rest]; [reflexivity|]. cbn [scan_loop].
    destruct (is_char EQUALS_CHAR c || is_char " " c); [apply IH|].
    destruct (is_char "+" c); [apply IH|].
    destruct (isalpha c).
    + destruct (match rest with d :: _ => isdigit d | [] => false end);
        [|reflexivity].
      destruct (strtol rest) as [v f'].
      match goal with |- (if ?b then _ else _) = _ => destruct b end;
        [reflexivity|].
      rewrite E. apply IH.
    + destruct (isdigit c || is_char "." c); [|reflexivity].
      destruct (strtod (c :: rest)) as [v f'].
      destruct (length f' <? length (c :: rest)); [apply IH | reflexivity].
Qed.

Lemma parse_ext (sh1 sh2 : grid) (f : cstring) :
  (forall a b, sh1 a b = sh2 a b) ->
  parse_and_calculate_formula sh1 f = parse_and_calculate_formula sh2 f.
Proof.
  intros E. unfold parse_and_calculate_formula.
  now rewrite (scan_loop_ext _ sh1 sh2 _ _ _ E).
Qed.

(** ** One write *)

Lemma formula_not_numeric (text : cstring) :
  is_valid_formula text = true -> is_valid_num (Some text) = false.
Proof.
  rewrite is_valid_num_literal. unfold is_valid_formula.
  destruct (skip_whitespace text) as [|c rest]; [discriminate|].
  destruct (is_char EQUALS_CHAR c) eqn:Hc; [|discriminate]. intros _.
  apply is_char_eq in Hc. subst c. reflexivity.
Qed.

Lemma lower_not_numeric (s : cstring) (c : ascii) :
  In c s -> islower c = true -> is_valid_num (Some s) = false.
Proof.
  intros Hin Hl. destruct (is_valid_num (Some s)) eqn:Hn; [|reflexivity].
  rewrite is_valid_num_literal in Hn.
  destruct (skip_whitespace_split s) as (ws & Hs & Hws).
  rewrite Hs in Hin. apply in_app_or in Hin as [Hin|Hin].
  - apply whitespace_no_lower in Hws. rewrite Forall_forall in Hws.
    specialize (Hws c Hin). congruence.
  - unfold is_decimal_literal in Hn. apply andb_prop in Hn as [Hn _].
    apply andb_prop in Hn as [Hn _]. rewrite forallb_forall in Hn.
    specialize (Hn c Hin). revert Hl Hn. clear. by_cases_on c.
Qed.

Lemma numeric_not_empty (text : cstring) :
  is_valid_num (Some text) = true -> text <> [].
Proof. intros H ->. discriminate. Qed.

Lemma formula_not_empty (text : cstring) :
  is_valid_formula text = true -> text <> [].
Proof. intros H ->. discriminate. Qed.

(** A write that gets past its first test commits a cell, runs the pass
    and notifies the display. *)
Lemma set_cell_value_unfold (row col : nat) (text : cstring) (w : world) :
  text <> [] -> in_grid row col = true ->
  exists sh1,
    (forall a b, (a, b) <> (row, col) -> sh1 a b = sheet w a b)
    /\ match committed (sheet w) row col text with
       | Some (c, shown) =>
           sh1 row col = c
           /\ set_cell_value row col (Some text) w
              = update_all row col (mkworld sh1 (display w))
                ;; update_cell_display row col shown
       | None => set_cell_value row col (Some text) w = Exits
       end.
Proof.
  intros Hne Hin. destruct text as [|c0 t0]; [contradiction|].
  set (text := c0 :: t0) in *.
  set (sh0 := match type (sheet w row col) with
              | none => initialize_cell (sheet w) row col
              | _ => sheet w
              end).
  assert (H0 : forall a b, (a, b) <> (row, col) -> sh0 a b = sheet w a b).
  { intros a b Hab. unfold sh0, initialize_cell.
    destruct (type (sheet w row col)); trivial. now apply store_other. }
  assert (Hp : parse_and_calculate_formula
                 (set_string_value sh0 row col text) text
               = parse_and_calculate_formula
                   (set_string_value (sheet w) row col text) text).
  { apply parse_ext. intros a b. unfold set_string_value.
    destruct (pair_eq_dec (a, b) (row, col)) as [E|N].
    - inversion E; subst. now rewrite !store_same.
    - rewrite !store_other by exact N. now apply H0. }
  unfold committed, set_cell_value. fold text. rewrite Hin. simpl negb.
  cbv iota. fold sh0.
  destruct (is_valid_num (Some text)).
  - exists (set_num_value sh0 row col text). split.
    + intros a b Hab. unfold set_num_value. rewrite store_other; auto.
    + cbv beta iota. split; [apply store_same | reflexivity].
  - destruct (is_valid_formula text).
    + rewrite Hp.
      destruct (parse_and_calculate_formula
                  (set_string_value (sheet w) row col text) text).
      * eexists. split; [|cbv beta iota; split; [|reflexivity]].
        -- intros a b Hab. unfold set_string_value.
           rewrite !store_other; auto.
        -- unfold set_string_value. now rewrite !store_same.
      * exists (set_string_value sh0 row col text). split.
        -- intros a b Hab. unfold set_string_value.
           rewrite store_other; auto.
        -- cbv beta iota. split; [apply store_same | reflexivity].
      * exists (sheet w). split; auto.
    + exists (set_string_value sh0 row col text). split.
      * intros a b Hab. unfold set_string_value. rewrite store_other; auto.
      * cbv beta iota. split; [apply store_same | reflexivity].
Qed.

Lemma committed_keeps_evaluable (sh sh1 : grid) (row col : nat)
    (text shown : cstring) (c : cell) :
  formulas_evaluable sh ->
  committed sh row col text = Some (c, shown) ->
  (forall a b, (a, b) <> (row, col) -> sh1 a b = sh a b) ->
  sh1 row col = c ->
  formulas_evaluable sh1.
Proof.
  intros Hinv Hc Hother Hat i j Ht.
  destruct (pair_eq_dec (i, j) (row, col)) as [E|N].
  - inversion E; subst i j. unfold committed in Hc.
    destruct (is_valid_num (Some text)).
    { inversion Hc; subst. rewrite <- H0 in Ht. discriminate. }
    destruct (is_valid_formula text).
    + destruct (parse_and_calculate_formula
                  (set_string_value sh row col text) text) as [r|e|] eqn:Hp;
        inversion Hc; subst.
      * exists text. rewrite <- H0. split; [reflexivity|].
        intros sh'. eapply parse_done_any. exact Hp.
      * rewrite <- H0 in Ht. discriminate.
    + inversion Hc; subst. rewrite <- H0 in Ht. discriminate.
  - rewrite (Hother i j N) in *. now apply Hinv.
Qed.

(** The pass of a write, seen from the outside. *)
Lemma update_all_effect (row col : nat) (w w' : world) :
  update_all row col w = Returns w' -> pass_effect row col cells w w'.
Proof. rewrite update_all_cells. apply for_each_effect. Qed.

Lemma update_all_total (row col : nat) (w : world) :
  formulas_evaluable (sheet w) ->
  exists w', update_all row col w = Returns w'.
Proof. rewrite update_all_cells. apply for_each_total. Qed.

Lemma set_cell_value_keeps_evaluable (row col : nat) (text : option cstring)
    (w w' : world) :
  formulas_evaluable (sheet w) ->
  set_cell_value row col text w = Returns w' ->
  formulas_evaluable (sheet w').
Proof.
  intros Hinv H.
  destruct text as [text|]; [|simpl in H; inversion H; now subst].
  destruct text as [|c0 t0]; [simpl in H; inversion H; now subst|].
  destruct (in_grid row col) eqn:Hin;
    [|unfold set_cell_value in H; rewrite Hin in H; discriminate].
  destruct (set_cell_value_unfold row col (c0 :: t0) w) as (sh1 & Ho & Hc);
    [discriminate | exact Hin |].
  destruct (committed (sheet w) row col (c0 :: t0)) as [[c shown]|] eqn:Hcm;
    [|congruence].
  destruct Hc as [Hat Heq]. rewrite Heq in H.
  destruct (update_all row col (mkworld sh1 (display w))) as [w1| |] eqn:Hu;
    simpl in H; try discriminate.
  inversion H; subst w'. simpl.
  eapply pass_keeps_evaluable; [apply update_all_effect; exact Hu|].
  simpl. eapply committed_keeps_evaluable; eauto.
Qed.

Lemma clear_cell_keeps_evaluable (row col : nat) (w w' : world) :
  formulas_evaluable (sheet w) ->
  clear_cell row col w = Returns w' ->
  formulas_evaluable (sheet w').
Proof.
  intros Hinv. unfold clear_cell.
  destruct (in_grid row col); simpl; [|discriminate].
  assert (Hst : formulas_evaluable (store (sheet w) row col zero_cell)).
  { intros i j. destruct (pair_eq_dec (i, j) (row, col)) as [E|N].
    - inversion E; subst. rewrite store_same. discriminate.
    - rewrite store_other by exact N. apply Hinv. }
  destruct (type (sheet w row col)); intros H; inversion H; subst; auto.
Qed.

(** In every world a caller can reach, the formula cells hold texts that
    evaluate: the failure branch of the pass is not taken there. *)
Lemma reachable_evaluable (w : world) :
  reachable w -> formulas_evaluable (sheet w).
Proof.
  induction 1 as [|w row col text w' _ IH H|w row col w' _ IH H].
  - intros i j Ht. discriminate.
  - eapply set_cell_value_keeps_evaluable; eauto.
  - eapply clear_cell_keeps_evaluable; eauto.
Qed.

(** In every reachable world a Text cell and a Formula cell hold a string
    and an Empty cell holds none; a Numeric cell may hold none (C1). *)
Lemma reachable_strings (w : world) : reachable w -> strings_kept (sheet w).
Proof.
  assert (Hpass : forall row col w0 w1,
             pass_effect row col cells w0 w1 ->
             strings_kept (sheet w0) -> strings_kept (sheet w1)).
  { intros row col w0 w1 [S _] Hk i j. specialize (Hk i j).
    destruct (S i j) as [E|(_ & _ & _ & f & r & _ & E)]; rewrite E;
      [exact Hk | exact I]. }
  induction 1 as [|w row col text w' _ IH H|w row col w' _ IH H].
  - intros i j. reflexivity.
  - destruct text as [text|]; [|simpl in H; inversion H; now subst].
    destruct text as [|c0 t0]; [simpl in H; inversion H; now subst|].
    destruct (in_grid row col) eqn:Hin;
      [|unfold set_cell_value in H; rewrite Hin in H; discriminate].
    destruct (set_cell_value_unfold row col (c0 :: t0) w) as (sh1 & Ho & Hc);
      [discriminate | exact Hin |].
    destruct (committed (sheet w) row col (c0 :: t0)) as [[c shown]|] eqn:Hcm;
      [|congruence].
    destruct Hc as [Hat Heq]. rewrite Heq in H.
    destruct (update_all row col (mkworld sh1 (display w))) as [w1| |] eqn:Hu;
      simpl in H; try discriminate.
    inversion H; subst w'. simpl.
    apply (Hpass row col _ _ (update_all_effect _ _ _ _ Hu)). simpl.
    intros i j. destruct (pair_eq_dec (i, j) (row, col)) as [E|N].
    + inversion E; subst i j. rewrite Hat. unfold committed in Hcm.
      destruct (is_valid_num (Some (c0 :: t0))); [now inversion Hcm|].
      destruct (is_valid_formula (c0 :: t0)).
      * destruct (parse_and_calculate_formula _ _); inversion Hcm;
          simpl; discriminate.
      * inversion Hcm. simpl. discriminate.
    + rewrite (Ho i j N). apply IH.
  - unfold clear_cell in H. destruct (in_grid row col); [|discriminate].
    simpl in H.
    assert (Hst : strings_kept (store (sheet w) row col zero_cell)).
    { intros i j. destruct (pair_eq_dec (i, j) (row, col)) as [E|N].
      - inversion E; subst. now rewrite store_same.
      - rewrite store_other by exact N. apply IH. }
    destruct (type (sheet w row col)); inversion H; subst; auto.
Qed.

(** A write into the sheet returns unless its own formula text keeps the
    evaluator from returning. *)
Lemma set_cell_value_total (row col : nat) (text : cstring) (w : world) :
  formulas_evaluable (sheet w) -> text <> [] -> in_grid row col = true ->
  forall c shown, committed (sheet w) row col text = Some (c, shown) ->
  exists w1 evs,
    set_cell_value row col (Some text) w
    = Returns (mkworld (sheet w1) (display w ++ evs ++ [notify row col shown]))
    /\ sheet w1 row col = c
    /\ (forall a b, type (sheet w a b) <> eqn -> (a, b) <> (row, col) ->
                    sheet w1 a b = sheet w a b)
    /\ Forall (fun n => ~ about (row, col) n) evs.
Proof.
  intros Hinv Hne Hin c shown Hcm.
  destruct (set_cell_value_unfold row col text w Hne Hin) as (sh1 & Ho & Hc).
  rewrite Hcm in Hc. destruct Hc as [Hat Heq].
  assert (Hinv1 : formulas_evaluable sh1)
    by (eapply committed_keeps_evaluable; eauto).
  destruct (update_all_total row col (mkworld sh1 (display w)) Hinv1)
    as [w1 Hu].
  pose proof (update_all_effect _ _ _ _ Hu) as Eff.
  pose proof Eff as [S (evs & D & F)]. simpl in D.
  exists w1, evs. rewrite Heq, Hu. simpl. unfold update_cell_display.
  rewrite D, <- app_assoc. repeat split.
  - rewrite <- Hat. eapply (pass_frame _ _ _ _ _ _ _ Eff). right. now left.
  - intros a b Ht Hab.
    rewrite (pass_frame _ _ _ _ _ a b Eff); [now apply Ho|].
    right. right. simpl. now rewrite (Ho a b Hab).
  - eapply Forall_impl; [|exact F]. intros n (_ & Hn & _) X.
    unfold about in X. contradiction.
Qed.

(** ** What a write leaves behind *)

(** C1 (the code breaks it): writing a plain number leaves a Numeric cell
    whose string is the null pointer, so that reading its display text
    copies from a null string.  This holds for every write of a numeric
    text into the sheet, from every world a caller can reach. *)
Theorem plain_number_has_null_string (w : world) (row col : nat)
    (text : cstring) :
  reachable w -> in_grid row col = true -> is_valid_num (Some text) = true ->
  exists w',
    set_cell_value row col (Some text) w = Returns w'
    /\ reachable w'
    /\ type (sheet w' row col) = num
    /\ strVal (sheet w' row col) = None
    /\ get_textual_value w' row col = None.
Proof.
  intros Hr Hin Hnum.
  assert (Hcm : committed (sheet w) row col text
                = Some (mkcell num (fst (strtod text)) None, text))
    by (unfold committed; now rewrite Hnum).
  destruct (set_cell_value_total row col text w (reachable_evaluable w Hr)
              (numeric_not_empty text Hnum) Hin _ _ Hcm)
    as (w1 & evs & Hset & Hat & _).
  eexists. split; [exact Hset|].
  split; [eapply reach_set; eauto|].
  unfold get_textual_value. simpl. rewrite Hin, Hat. simpl. auto.
Qed.

(** C2 (amended): a write of a text that passes the formula grammar and
    evaluates returns; the written cell is then a Formula cell that holds
    the formula text as its string, and the last notification of the write
    shows the formatted result for the written cell. *)
Theorem formula_write_stays_formula (w : world) (row col : nat)
    (text : cstring) (r : double) :
  reachable w -> in_grid row col = true -> is_valid_formula text = true ->
  parse_and_calculate_formula (set_string_value (sheet w) row col text) text
  = Done r ->
  exists w' evs,
    set_cell_value row col (Some text) w = Returns w'
    /\ type (sheet w' row col) = eqn
    /\ strVal (sheet w' row col) = Some text
    /\ get_textual_value w' row col = Some (firstn (MAX_LEN - 1) text)
    /\ display w' = display w ++ evs ++ [notify row col (snprintf_lg r)]
    /\ Forall (fun n => ~ about (row, col) n) evs.
Proof.
  intros Hr Hin Hf Hp.
  assert (Hcm : committed (sheet w) row col text
                = Some (mkcell eqn dzero (Some text), snprintf_lg r)).
  { unfold committed. now rewrite (formula_not_numeric text Hf), Hf, Hp. }
  destruct (set_cell_value_total row col text w (reachable_evaluable w Hr)
              (formula_not_empty text Hf) Hin _ _ Hcm)
    as (w1 & evs & Hset & Hat & _ & Hevs).
  eexists. exists evs. split; [exact Hset|].
  unfold get_textual_value. simpl. rewrite Hin, Hat. simpl. auto.
Qed.

(** C8 (amended): a write of a text that passes the formula grammar and
    whose evaluation fails, for whichever reason, returns; the written
    cell is a Text cell and the last notification of the write shows ERROR
    for it.  The marker is shown only: the string of the cell is the
    formula text as it was written, and reading the cell gives that text,
    cut to 255 characters. *)
Theorem failed_formula_shows_error (w : world) (row col : nat)
    (text : cstring) (e : FormulaError) :
  reachable w -> in_grid row col = true -> is_valid_formula text = true ->
  parse_and_calculate_formula (set_string_value (sheet w) row col text) text
  = Failed e ->
  exists w' evs,
    set_cell_value row col (Some text) w = Returns w'
    /\ type (sheet w' row col) = str
    /\ strVal (sheet w' row col) = Some text
    /\ get_textual_value w' row col = Some (firstn (MAX_LEN - 1) text)
    /\ display w' = display w ++ evs ++ [notify row col ERROR]
    /\ Forall (fun n => ~ about (row, col) n) evs.
Proof.
  intros Hr Hin Hf Hp.
  assert (Hcm : committed (sheet w) row col text
                = Some (mkcell str dzero (Some text), ERROR)).
  { unfold committed. now rewrite (formula_not_numeric text Hf), Hf, Hp. }
  destruct (set_cell_value_total row col text w (reachable_evaluable w Hr)
              (formula_not_empty text Hf) Hin _ _ Hcm)
    as (w1 & evs & Hset & Hat & _ & Hevs).
  eexists. exists evs. split; [exact Hset|].
  unfold get_textual_value. cbn [sheet display]. rewrite Hin, Hat.
  cbn [type strVal negb]. auto.
Qed.

(** C9: a text with a lowercase letter at any place fails the formula
    grammar check; no sheet makes the evaluator go past that check, and a
    write stores the text as plain text and shows it as it is. *)
Theorem lowercase_rejected (s : cstring) (c : ascii) :
  In c s -> islower c = true ->
  is_valid_formula s = false
  /\ (forall sh,
        parse_and_calculate_formula sh s = Failed InvalidFormulaSyntax)
  /\ (forall w row col,
        reachable w -> in_grid row col = true ->
        exists w' evs,
          set_cell_value row col (Some s) w = Returns w'
          /\ type (sheet w' row col) = str
          /\ strVal (sheet w' row col) = Some s
          /\ display w' = display w ++ evs ++ [notify row col s]).
Proof.
  intros Hin Hl.
  assert (Hv : is_valid_formula s = false).
  { destruct (is_valid_formula s) eqn:Hv; [|reflexivity].
    apply is_valid_formula_no_lower in Hv.
    rewrite Forall_forall in Hv. specialize (Hv c Hin). congruence. }
  split; [exact Hv|]. split.
  - intros sh. unfold parse_and_calculate_formula. now rewrite Hv.
  - intros w row col Hr Hg.
    assert (Hcm : committed (sheet w) row col s
                  = Some (mkcell str dzero (Some s), s)).
    { unfold committed. now rewrite (lower_not_numeric s c Hin Hl), Hv. }
    assert (Hne : s <> []) by (intros ->; contradiction).
    destruct (set_cell_value_total row col s w (reachable_evaluable w Hr)
                Hne Hg _ _ Hcm)
      as (w1 & evs & Hset & Hat & _).
    eexists. exists evs. split; [exact Hset|]. simpl. rewrite Hat. auto.
Qed.

(** C10: when the pass meets a formula cell whose text fails to evaluate,
    the cell is after the pass what it was before it (type, number and
    text), and the pass has sent exactly one notification about the cell,
    which shows ERROR. *)
Theorem failed_recalculation_leaves_cell (row col : nat) (w w' : world)
    (i j : nat) (f : cstring) (e : FormulaError) :
  update_all row col w = Returns w' ->
  in_grid i j = true -> (i, j) <> (row, col) ->
  type (sheet w i j) = eqn -> strVal (sheet w i j) = Some f ->
  parse_and_calculate_formula (sheet w) f = Failed e ->
  sheet w' i j = sheet w i j
  /\ exists evs1 evs2,
       display w' = display w ++ evs1 ++ notify i j ERROR :: evs2
       /\ Forall (fun n => ~ about (i, j) n) (evs1 ++ evs2).
Proof.
  intros Hu Hin Hne Ht Hs Hp. rewrite update_all_cells in Hu.
  destruct (pass_turn row col cells w w' i j f cells_nodup
              (proj2 (in_cells i j) Hin) Hne Ht Hs Hu)
    as (wm & evs1 & evs2 & _ & _ & Hev & [(r & Hr & _)|(e' & _ & Hc & Hd)]).
  - rewrite (parse_failed_any _ (sheet wm) _ _ Hp) in Hr. discriminate.
  - split; [exact Hc|]. now exists evs1, evs2.
Qed.

(** What a write does to the cells at the other coordinates.  It never
    changes the string a cell holds.  A cell of the sheet that is a Formula
    cell when the write starts is evaluated by that write, on a sheet [g]
    that already holds the written cell and in which every other cell is
    as before or as after the write; when the evaluation succeeds the cell
    becomes Numeric with the result, when it fails the cell stays as it
    is.  A cell whose type is not Formula when the write starts is left as
    it is, and that is the type [update_cell_value] gives to a formula
    cell it has recalculated. *)
Theorem formula_cell_on_next_write (w w' : world) (row col : nat)
    (text : cstring) (i j : nat) :
  text <> [] -> (i, j) <> (row, col) -> in_grid i j = true ->
  set_cell_value row col (Some text) w = Returns w' ->
  strVal (sheet w' i j) = strVal (sheet w i j)
  /\ (type (sheet w i j) <> eqn -> sheet w' i j = sheet w i j)
  /\ (forall f,
        type (sheet w i j) = eqn -> strVal (sheet w i j) = Some f ->
        exists g,
          g row col = sheet w' row col
          /\ (forall a b, g a b = sheet w a b \/ g a b = sheet w' a b)
          /\ ((exists r,
                 parse_and_calculate_formula g f = Done r
                 /\ sheet w' i j = mkcell num r (Some f))
              \/ (exists e,
                 parse_and_calculate_formula g f = Failed e
                 /\ sheet w' i j = sheet w i j))).
Proof.
  intros Hne Hij Hin H.
  assert (Hrc : in_grid row col = true).
  { destruct (in_grid row col) eqn:E; [reflexivity|].
    unfold set_cell_value in H. destruct text; [contradiction|].
    rewrite E in H. discriminate. }
  destruct (set_cell_value_unfold row col text w Hne Hrc) as (sh1 & Ho & Hc).
  destruct (committed (sheet w) row col text) as [[c shown]|]; [|congruence].
  destruct Hc as [Hat Heq]. rewrite Heq in H.
  destruct (update_all row col (mkworld sh1 (display w))) as [w1| |] eqn:Hu;
    simpl in H; try discriminate.
  inversion H; subst w'. simpl. clear H Heq.
  pose proof (update_all_effect _ _ _ _ Hu) as Eff. simpl in Eff.
  rewrite <- (Ho i j Hij).
  split; [apply (pass_strVal _ _ _ _ _ i j Eff)|].
  split.
  - intros Ht. apply (pass_frame _ _ _ _ _ i j Eff). now right; right.
  - intros f Ht Hs. rewrite update_all_cells in Hu.
    destruct (pass_turn row col cells (mkworld sh1 (display w)) w1 i j f
                cells_nodup (proj2 (in_cells i j) Hin) Hij Ht Hs Hu)
      as (wm & evs1 & evs2 & Hab & Hfr & _ & Hcase).
    simpl in Hab, Hfr, Hcase.
    exists (sheet wm). split; [|split].
    + rewrite (Hfr row col) by now left.
      symmetry. apply (pass_frame _ _ _ _ _ row col Eff). right. now left.
    + intros a b. destruct (pair_eq_dec (a, b) (row, col)) as [E|N].
      * inversion E; subst. right.
        rewrite (Hfr row col) by now left.
        symmetry. apply (pass_frame _ _ _ _ _ row col Eff). right. now left.
      * rewrite <- (Ho a b N). apply Hab.
    + destruct Hcase as [(r & Hr & Hc & _)|(e & He & Hc & _)].
      * left. now exists r.
      * right. now exists e.
Qed.

(** ** Scanning the operands of a formula *)

Lemma span_app (p : ascii -> bool) (ds rest : cstring) :
  forallb p ds = true ->
  match rest with c :: _ => p c = false | [] => True end ->
  span p (ds ++ rest) = length ds.
Proof.
  intros Hds Hrest. induction ds as [|d ds IH]; simpl in *.
  - destruct rest as [|c r]; simpl; [reflexivity | now rewrite Hrest].
  - apply andb_prop in Hds as [Hd Hds]. rewrite Hd. now rewrite IH.
Qed.

Lemma firstn_length_app {A : Type} (xs ys : list A) :
  firstn (length xs) (xs ++ ys) = xs.
Proof. rewrite firstn_app, Nat.sub_diag, firstn_all. apply app_nil_r. Qed.

Lemma skipn_length_app {A : Type} (xs ys : list A) :
  skipn (length xs) (xs ++ ys) = ys.
Proof. rewrite skipn_app, Nat.sub_diag, skipn_all. reflexivity. Qed.

Lemma closes_head (rest : cstring) :
  closes rest ->
  match rest with
  | c :: _ =>
      isdigit c = false /\ is_char "." c = false
      /\ (is_char "e" c || is_char "E" c) = false
      /\ (is_char "x" c || is_char "X" c) = false
  | [] => True
  end.
Proof.
  destruct rest as [|c r]; [trivial|]. intros [->| ->]; repeat split.
Qed.

(** A decimal literal is a run of digits, or two runs around one point. *)
Lemma digits_without_point (lit : cstring) :
  forallb (fun c => isdigit c || is_char "." c) lit = true ->
  count_occ ascii_dec lit "."%char = 0 ->
  forallb isdigit lit = true.
Proof.
  induction lit as [|c lit IH]; simpl; [reflexivity|].
  intros H Hc. apply andb_prop in H as [Hok H].
  destruct (ascii_dec c "."); [discriminate|].
  destruct (isdigit c); simpl in *.
  - now apply IH.
  - apply is_char_eq in Hok. congruence.
Qed.

Lemma decimal_literal_parts (lit : cstring) :
  is_decimal_literal lit = true ->
  (forallb isdigit lit = true /\ lit <> [])
  \/ exists d1 d2,
       lit = d1 ++ "."%char :: d2
       /\ forallb isdigit d1 = true /\ forallb isdigit d2 = true
       /\ length d1 + length d2 <> 0.
Proof.
  unfold is_decimal_literal. intros H.
  apply andb_prop in H as [H Hex]. apply andb_prop in H as [Hok Hcnt].
  apply Nat.leb_le in Hcnt.
  assert (Hparts :
    forallb isdigit lit = true
    \/ exists d1 d2, lit = d1 ++ "."%char :: d2
         /\ forallb isdigit d1 = true /\ forallb isdigit d2 = true).
  { clear Hex. induction lit as [|c lit IH]; [now left|].
    simpl in Hok, Hcnt. apply andb_prop in Hok as [Hc Hok].
    destruct (ascii_dec c ".") as [->|Hn].
    - right. exists [], lit. repeat split.
      apply digits_without_point; [exact Hok | lia].
    - destruct (isdigit c) eqn:Hd;
        [|simpl in Hc; apply is_char_eq in Hc; contradiction].
      destruct (IH Hok Hcnt) as [Hall|(d1 & d2 & -> & H1 & H2)].
      + left. simpl. now rewrite Hd.
      + right. exists (c :: d1), d2. simpl. now rewrite Hd. }
  destruct Hparts as [Hall|(d1 & d2 & -> & H1 & H2)].
  - left. split; [exact Hall|]. intros ->. discriminate.
  - right. exists d1, d2. repeat split; trivial.
    destruct d1, d2; simpl; try lia. discriminate.
Qed.

Lemma mantissa_len_literal (lit rest : cstring) :
  is_decimal_literal lit = true -> closes rest ->
  mantissa_len isdigit (lit ++ rest) = length lit.
Proof.
  intros Hlit Hrest. apply closes_head in Hrest.
  unfold mantissa_len.
  destruct (decimal_literal_parts lit Hlit)
    as [[Hall _]|(d1 & d2 & -> & H1 & H2 & Hlen)].
  - assert (Hr : match rest with c :: _ => isdigit c = false | [] => True end)
      by (destruct rest; tauto).
    rewrite (span_app isdigit lit rest Hall Hr), skipn_length_app.
    destruct rest as [|c r]; [reflexivity|].
    destruct Hrest as (_ & -> & _). reflexivity.
  - rewrite <- app_assoc. simpl.
    rewrite (span_app isdigit d1 ("."%char :: d2 ++ rest) H1 eq_refl).
    rewrite skipn_length_app.
    assert (Hr : match rest with c :: _ => isdigit c = false | [] => True end)
      by (destruct rest; tauto).
    simpl. rewrite (span_app isdigit d2 rest H2 Hr).
    destruct (length d1 + length d2 =? 0) eqn:E;
      [apply Nat.eqb_eq in E; contradiction|].
    rewrite length_app. simpl. lia.
Qed.

Lemma subject_len_literal (lit rest : cstring) :
  is_decimal_literal lit = true -> closes rest ->
  subject_len (lit ++ rest) = length lit.
Proof.
  intros Hlit Hrest.
  assert (Hdec : dec_len (lit ++ rest) = length lit).
  { unfold dec_len.
    rewrite (mantissa_len_literal lit rest Hlit Hrest), skipn_length_app.
    destruct (decimal_literal_head lit Hlit) as (c & r & -> & _).
    change (length (c :: r) =? 0) with false. cbv iota.
    apply closes_head in Hrest. destruct rest as [|x xs]; [simpl; lia|].
    destruct Hrest as (_ & _ & He & _). unfold exponent_len. rewrite He.
    lia. }
  unfold subject_len.
  destruct (lit ++ rest) as [|z [|x more]] eqn:E; trivial.
  destruct (is_char "0" z && (is_char "x" x || is_char "X" x)) eqn:Hx;
    [|exact Hdec].
  exfalso. apply andb_prop in Hx as [_ Hx].
  destruct (decimal_literal_head lit Hlit) as (c & r & -> & _).
  simpl in E. inversion E; subst z.
  destruct r as [|c2 r2]; simpl in H1.
  - subst rest. apply closes_head in Hrest. destruct Hrest as (_ & _ & _ & H).
    congruence.
  - inversion H1; subst.
    unfold is_decimal_literal in Hlit. simpl in Hlit.
    apply andb_prop in Hlit as [Hlit _]. apply andb_prop in Hlit as [Hlit _].
    apply andb_prop in Hlit as [_ Hlit]. apply andb_prop in Hlit as [Hlit _].
    clear - Hx Hlit. revert Hx Hlit. by_cases_on x.
Qed.

Lemma strtod_literal (lit rest : cstring) :
  is_decimal_literal lit = true -> closes rest ->
  strtod (lit ++ rest) = (strtod_value lit, rest).
Proof.
  intros Hlit Hrest. unfold strtod.
  destruct (decimal_literal_head lit Hlit) as (c & r & E & Hc).
  assert (Hs : skip_whitespace (lit ++ rest) = lit ++ rest).
  { rewrite E. simpl. now rewrite (literal_char_not_space c Hc). }
  rewrite Hs, (subject_len_literal lit rest Hlit Hrest).
  rewrite firstn_length_app, skipn_length_app.
  rewrite E. reflexivity.
Qed.

Lemma literal_char_plain (c : ascii) :
  (isdigit c || is_char "." c) = true ->
  (is_char EQUALS_CHAR c || is_char " " c) = false
  /\ is_char "+" c = false /\ isalpha c = false.
Proof. by_cases_on c; intros; repeat split; discriminate. Qed.

Lemma scan_nil (sh : grid) (st : DoubleAssist) (ops : nat) :
  scan sh [] st ops = Scanned st ops.
Proof. reflexivity. Qed.

Lemma scan_skip (sh : grid) (c : ascii) (rest : cstring) (st : DoubleAssist)
    (ops : nat) :
  (is_char EQUALS_CHAR c || is_char " " c) = true ->
  scan sh (c :: rest) st ops = scan sh rest st ops.
Proof. intros H. unfold scan. simpl. now rewrite H. Qed.

Lemma scan_spaces (sh : grid) (k : nat) (rest : cstring) (st : DoubleAssist)
    (ops : nat) :
  scan sh (spaces k ++ rest) st ops = scan sh rest st ops.
Proof.
  induction k as [|k IH]; simpl; [reflexivity|].
  now rewrite scan_skip.
Qed.

Lemma scan_plus (sh : grid) (rest : cstring) (st : DoubleAssist) (ops : nat) :
  scan sh ("+"%char :: rest) st ops = scan sh rest st (S ops).
Proof. reflexivity. Qed.

Lemma scan_literal (sh : grid) (lit rest : cstring) (st : DoubleAssist)
    (ops : nat) :
  is_decimal_literal lit = true -> closes rest ->
  scan sh (lit ++ rest) st ops
  = scan sh rest (double_assist_push st (strtod_value lit)) ops.
Proof.
  intros Hlit Hrest.
  pose proof (strtod_literal lit rest Hlit Hrest) as Hs.
  destruct (decimal_literal_head lit Hlit) as (c & r & -> & Hc).
  destruct (literal_char_plain c Hc) as (H1 & H2 & H3).
  unfold scan. simpl app in *. simpl length. cbn [scan_loop].
  rewrite H1, H2, H3, Hc, Hs.
  replace (length rest <? length (c :: r ++ rest)) with true
    by (symmetry; apply Nat.ltb_lt; simpl; rewrite length_app; lia).
  apply scan_loop_rounds; rewrite ?length_app; lia.
Qed.

Lemma enum_of_long_small (z : Z) :
  (- 2 ^ 31 <= z < 2 ^ 31)%Z -> enum_of_long z = z.
Proof.
  intros H. unfold enum_of_long. rewrite Z.mod_small; lia.
Qed.

Lemma upper_code (c : ascii) : isupper c = true -> 65 <= code c <= 90.
Proof.
  unfold isupper. intros H. apply andb_prop in H as [H1 H2].
  apply Nat.leb_le in H1, H2. lia.
Qed.

Lemma scan_reference (sh : grid) (col : ascii) (row rest : cstring)
    (st : DoubleAssist) (ops : nat) :
  well_formed (Reference col row) = true ->
  column_index col < NUM_COLS ->
  (1 <= decimal_value row <= Z.of_nat NUM_ROWS)%Z ->
  (decimal_value row <= 2 ^ 31)%Z ->
  closes rest ->
  scan sh (col :: row ++ rest) st ops
  = scan sh rest
      (double_assist_push st
         (numVal (sh (row_index row) (column_index col)))) ops.
Proof.
  intros Hwf Hcol Hrow Hfit Hrest. simpl in Hwf.
  apply andb_prop in Hwf as [Hwf Hlen]. apply andb_prop in Hwf as [Hup Hds].
  destruct (upper_is_plain col Hup) as (_ & Ha & _ & _ & _ & Hp & He & Hb).
  pose proof (upper_code col Hup) as Hcode.
  destruct row as [|d ds]; [discriminate|].
  assert (Hd : isdigit d = true) by (simpl in Hds; now apply andb_prop in Hds).
  assert (Hrest' : match rest with c :: _ => isdigit c = false | [] => True end)
    by (apply closes_head in Hrest; destruct rest; tauto).
  assert (Hspan : span isdigit ((d :: ds) ++ rest) = length (d :: ds))
    by (apply span_app; assumption).
  unfold scan.
  change (length (col :: (d :: ds) ++ rest))
    with (S (length ((d :: ds) ++ rest))).
  set (n := length ((d :: ds) ++ rest)).
  assert (Hn : length rest <= n)
    by (unfold n; rewrite length_app; lia).
  clearbody n. cbn [scan_loop].
  rewrite He, Hb, Hp, Ha. simpl orb. cbv match.
  change (match (d :: ds) ++ rest with d0 :: _ => isdigit d0 | [] => false end)
    with (isdigit d). rewrite Hd.
  unfold strtol. rewrite Hspan, firstn_length_app, skipn_length_app.
  set (v := decimal_value (d :: ds)) in *.
  replace (Z.min v LONG_MAX) with v by (unfold LONG_MAX; lia).
  rewrite enum_of_long_small by lia.
  replace (v - 1 <? 0)%Z with false by (symmetry; apply Z.ltb_ge; lia).
  replace (v - 1 >=? Z.of_nat NUM_ROWS)%Z with false
    by (symmetry; rewrite Z.geb_leb; apply Z.leb_gt; lia).
  unfold column_index in *.
  replace (Z.of_nat (code col) - 65 <? 0)%Z with false
    by (symmetry; apply Z.ltb_ge; lia).
  replace (Z.of_nat (code col) - 65 >=? Z.of_nat NUM_COLS)%Z with false
    by (symmetry; rewrite Z.geb_leb; apply Z.leb_gt; lia).
  simpl orb. cbv match. unfold row_index. fold v.
  replace (Z.to_nat (Z.of_nat (code col) - 65)) with (code col - 65) by lia.
  apply scan_loop_rounds; lia.
Qed.

Lemma scan_operand (sh : grid) (o : operand) (rest : cstring)
    (st : DoubleAssist) (ops : nat) :
  (Z.of_nat NUM_ROWS <= 2 ^ 31)%Z ->
  well_formed o = true -> inside o = true -> closes rest ->
  scan sh (operand_text o ++ rest) st ops
  = scan sh rest (double_assist_push st (contribution sh o)) ops.
Proof.
  intros Hfit Hwf Hin Hrest. destruct o as [lit|col row].
  - now apply scan_literal.
  - simpl in Hin. apply andb_prop in Hin as [Hin H3].
    apply andb_prop in Hin as [H1 H2].
    apply Nat.ltb_lt in H1. apply Z.leb_le in H2, H3.
    simpl. apply scan_reference; trivial; lia.
Qed.

Lemma closes_spaces_plus (k : nat) (rest : cstring) :
  closes (spaces k ++ "+"%char :: rest).
Proof. destruct k; simpl; auto. Qed.

(** The scan of the leading operands, each with its plus sign. *)
Lemma scan_terms (sh : grid) (init : list term) (tail : cstring)
    (st : DoubleAssist) (ops : nat) :
  (Z.of_nat NUM_ROWS <= 2 ^ 31)%Z ->
  Forall (fun t => well_formed (what t) = true /\ inside (what t) = true)
         init ->
  scan sh (flat_map (fun t => term_text t ++ ["+"%char]) init ++ tail) st ops
  = scan sh tail
      (fold_left double_assist_push
         (map (contribution sh) (map what init)) st)
      (length init + ops).
Proof.
  intros Hfit Hall. revert st ops.
  induction Hall as [|t init [Hwf Hin] _ IH]; intros st ops; [reflexivity|].
  simpl flat_map. unfold term_text.
  rewrite <- !app_assoc. simpl app.
  rewrite scan_spaces.
  rewrite scan_operand; trivial; [|apply closes_spaces_plus].
  rewrite scan_spaces, scan_plus, IH. simpl.
  f_equal. lia.
Qed.

Lemma sum_of_rev (values : list double) :
  fold_left dadd (rev values) dzero = sum_of values.
Proof.
  induction values as [|v values IH]; [reflexivity|].
  simpl. now rewrite fold_left_app, IH.
Qed.

(** ** The grammar check on a formula of the grammar *)

Lemma skip_whitespace_nil (s : cstring) :
  skip_whitespace s = [] -> whitespace s.
Proof.
  induction s as [|c s IH]; simpl; [constructor|].
  destruct (isspace c) eqn:Hc; [|discriminate].
  intros H. constructor; [exact Hc | exact (IH H)].
Qed.

Lemma ends_well_whitespace (s : cstring) :
  whitespace s -> ends_well s = true -> s = [].
Proof.
  induction 1 as [|c s Hc Hs IH]; [reflexivity|].
  destruct s as [|c' s']; simpl.
  - rewrite Hc. discriminate.
  - intros H. specialize (IH H). discriminate.
Qed.

Lemma ends_well_suffix (ws s : cstring) :
  ends_well (ws ++ s) = true -> s <> [] -> ends_well s = true.
Proof.
  intros H Hs. induction ws as [|c ws IH]; [exact H|].
  apply IH. simpl in H. destruct (ws ++ s) eqn:E; [|exact H].
  destruct ws; [contradiction | discriminate].
Qed.

Lemma ends_well_tail (c : ascii) (s : cstring) :
  ends_well (c :: s) = true -> ends_well s = true.
Proof. destruct s; [reflexivity | trivial]. Qed.

Lemma formula_char_cases (c : ascii) :
  formula_char c = true -> isspace c = false ->
  (isalpha c = true /\ islower c = false)
  \/ (isalpha c = false
      /\ (isdigit c || is_char "." c || is_char "+" c) = true).
Proof. by_cases_on c. Qed.

Lemma is_valid_formula_loop_accepts (n : nat) (s : cstring) :
  length s <= n -> forallb formula_char s = true -> ends_well s = true ->
  is_valid_formula_loop n s = true.
Proof.
  revert s. induction n as [|n IH]; intros s Hn Hall Hend.
  - destruct s; [reflexivity | simpl in Hn; lia].
  - destruct s as [|a s']; [reflexivity|]. cbn [is_valid_formula_loop].
    destruct (skip_whitespace_split (a :: s')) as (ws & Hs & Hws).
    pose proof (skip_whitespace_length (a :: s')) as Hlen.
    destruct (skip_whitespace (a :: s')) as [|c rest] eqn:Hsk.
    + apply skip_whitespace_nil in Hsk.
      now apply ends_well_whitespace in Hsk.
    + pose proof (skip_whitespace_head _ _ _ Hsk) as Hc.
      rewrite Hs in Hall, Hend. rewrite forallb_app in Hall.
      apply andb_prop in Hall as [_ Hall]. simpl in Hall.
      apply andb_prop in Hall as [Hfc Hall].
      apply ends_well_suffix in Hend; [|discriminate].
      apply ends_well_tail in Hend.
      simpl in Hlen, Hn.
      destruct (formula_char_cases c Hfc Hc) as [[-> ->]|[-> ->]];
        apply IH; trivial; lia.
Qed.

Lemma ends_well_app (s t : cstring) :
  t <> [] -> ends_well (s ++ t) = ends_well t.
Proof.
  intros Ht. induction s as [|c s IH]; [reflexivity|].
  simpl. destruct (s ++ t) eqn:E; [|exact IH].
  destruct s; [contradiction | discriminate].
Qed.

Lemma ends_well_plain (t : cstring) :
  forallb (fun c => negb (isspace c)) t = true -> ends_well t = true.
Proof.
  induction t as [|c t IH]; [reflexivity|]. simpl.
  intros H. apply andb_prop in H as [Hc Ht].
  destruct t; [exact Hc | now apply IH].
Qed.

Lemma operand_chars (o : operand) :
  well_formed o = true ->
  forallb (fun c => negb (isspace c) && formula_char c) (operand_text o)
  = true
  /\ operand_text o <> [].
Proof.
  destruct o as [lit|col row]; simpl; intros H.
  - split; [|destruct (decimal_literal_head lit H) as (c & r & -> & _);
             discriminate].
    unfold is_decimal_literal in H. apply andb_prop in H as [H _].
    apply andb_prop in H as [H _].
    rewrite forallb_forall in *. intros c Hc. specialize (H c Hc).
    revert H. clear. by_cases_on c.
  - split; [|discriminate].
    apply andb_prop in H as [H _]. apply andb_prop in H as [Hu Hd].
    apply andb_true_intro. split.
    + revert Hu. clear. by_cases_on col.
    + rewrite forallb_forall in *. intros c Hc. specialize (Hd c Hc).
      revert Hd. clear. by_cases_on c.
Qed.

Lemma spaces_chars (k : nat) : forallb formula_char (spaces k) = true.
Proof. induction k; simpl; auto. Qed.

Lemma spaces_whitespace (k : nat) : whitespace (spaces k).
Proof. induction k; simpl; constructor; auto. Qed.

Lemma forallb_weaken (p q : ascii -> bool) (s : cstring) :
  forallb (fun c => p c && q c) s = true ->
  forallb p s = true /\ forallb q s = true.
Proof.
  induction s as [|c s IH]; simpl; [auto|].
  intros H. apply andb_prop in H as [Hc Hs]. apply andb_prop in Hc as [-> ->].
  now apply IH.
Qed.

Lemma formula_text_valid (lead : nat) (init : list term) (last_before : nat)
    (last : operand) :
  Forall (fun t => well_formed (what t) = true) init ->
  well_formed last = true ->
  is_valid_formula (formula_text lead init last_before last) = true.
Proof.
  intros Hinit Hlast. unfold is_valid_formula, formula_text.
  rewrite skip_whitespace_app; [|apply spaces_whitespace | reflexivity].
  change (is_char EQUALS_CHAR EQUALS_CHAR) with true. cbv iota.
  destruct (operand_chars last Hlast) as [Hl Hne].
  apply forallb_weaken in Hl as [Hl1 Hl2].
  apply is_valid_formula_loop_accepts; [lia| |].
  - rewrite !forallb_app, spaces_chars, Hl2, !andb_true_r.
    induction Hinit as [|t init Ht _ IH]; [reflexivity|].
    simpl. rewrite !forallb_app, IH, andb_true_r. unfold term_text.
    rewrite !forallb_app, !spaces_chars.
    destruct (operand_chars (what t) Ht) as [Hc _].
    apply forallb_weaken in Hc as [_ ->]. reflexivity.
  - rewrite app_assoc, ends_well_app by exact Hne.
    now apply ends_well_plain.
Qed.

(** C5 (amended): a formula of the grammar, that is an equals sign and
    operands separated by plus signs, with blanks allowed ahead of every
    token, each operand a decimal literal or a column letter with a row
    number, all of whose references name cells of the sheet, evaluates to
    the sum of its operands: a literal counts with the value [strtod]
    gives it, a reference with the number stored in the cell at row number
    minus one and at the column of its letter, counted from A. *)
Theorem formula_sums_operands (sh : grid) (lead : nat) (init : list term)
    (last_before : nat) (last : operand) :
  (Z.of_nat NUM_ROWS <= 2 ^ 31)%Z ->
  Forall (fun t => well_formed (what t) = true /\ inside (what t) = true)
         init ->
  well_formed last = true -> inside last = true ->
  parse_and_calculate_formula sh (formula_text lead init last_before last)
  = Done (sum_of (map (contribution sh) (map what init ++ [last]))).
Proof.
  intros Hfit Hinit Hwf Hin. unfold parse_and_calculate_formula.
  rewrite formula_text_valid; trivial;
    [|eapply Forall_impl; [|exact Hinit]; now intros t [? _]].
  simpl negb. cbv iota.
  fold (scan sh (formula_text lead init last_before last)
          make_double_assist 0).
  unfold formula_text.
  rewrite scan_spaces, scan_skip by reflexivity.
  rewrite scan_terms by assumption.
  rewrite scan_spaces.
  rewrite <- (app_nil_r (operand_text last)).
  rewrite scan_operand by (trivial; exact I).
  rewrite scan_nil, Nat.add_0_r.
  set (st := double_assist_push _ _).
  assert (Hel : elems st
                = rev (map (contribution sh) (map what init ++ [last]))).
  { unfold st. rewrite elems_push, elems_pushes, app_nil_r.
    now rewrite map_app, rev_app_distr. }
  assert (Hsz : size st = length init + 1).
  { unfold size. rewrite Hel, length_rev, length_map, length_app, length_map.
    reflexivity. }
  rewrite Hsz, Nat.eqb_refl. simpl negb. cbv iota. f_equal.
  rewrite <- Hsz, drain_elems, Hel. apply sum_of_rev.
Qed.

(** ** Formulas as sequences of tokens *)

Lemma closes_tokens (s : spaced) (rest : list spaced) :
  is_operand (tok s) = true -> separated (s :: rest) = true ->
  closes (flat_map spaced_text rest).
Proof.
  intros Hs Hsep. destruct rest as [|u rest]; [exact I|].
  simpl in Hsep. apply andb_prop in Hsep as [Hsep _]. rewrite Hs in Hsep.
  simpl in Hsep. unfold spaced_text at 1. simpl flat_map.
  destruct (blanks u) as [|k]; [|simpl; auto].
  rewrite orb_false_r in Hsep. destruct (tok u); [simpl; auto|discriminate].
Qed.

(** The scan of a sequence of tokens pushes its operands and counts its
    plus signs. *)
Lemma scan_tokens (sh : grid) (toks : list spaced) (st : DoubleAssist)
    (ops : nat) :
  (Z.of_nat NUM_ROWS <= 2 ^ 31)%Z ->
  forallb token_ok toks = true -> separated toks = true ->
  scan sh (flat_map spaced_text toks) st ops
  = Scanned
      (fold_left double_assist_push
         (map (contribution sh) (operands_of toks)) st)
      (pluses_of toks + ops).
Proof.
  intros Hfit. revert st ops.
  induction toks as [|s toks IH]; intros st ops Hok Hsep; [reflexivity|].
  simpl in Hok. apply andb_prop in Hok as [Hs Hok].
  assert (Hsep' : separated toks = true)
    by (simpl in Hsep; now apply andb_prop in Hsep).
  simpl flat_map. unfold spaced_text at 1. rewrite <- app_assoc, scan_spaces.
  unfold token_ok in Hs. unfold operands_of, pluses_of. simpl.
  destruct (tok s) as [|o] eqn:Ht; simpl.
  - rewrite scan_plus, IH by assumption. unfold pluses_of. f_equal. lia.
  - apply andb_prop in Hs as [Hwf Hin].
    rewrite scan_operand; trivial.
    + now rewrite IH.
    + apply (closes_tokens s); [now rewrite Ht | exact Hsep].
Qed.

Lemma tokens_text_valid (lead : nat) (toks : list spaced) :
  forallb token_ok toks = true ->
  is_valid_formula (tokens_text lead toks) = true.
Proof.
  intros Hok. unfold is_valid_formula, tokens_text.
  rewrite skip_whitespace_app; [|apply spaces_whitespace | reflexivity].
  change (is_char EQUALS_CHAR EQUALS_CHAR) with true. cbv iota.
  assert (Htok : forall s, token_ok s = true ->
            forallb (fun c => negb (isspace c) && formula_char c)
              (token_text (tok s)) = true
            /\ token_text (tok s) <> []).
  { intros s Hs. unfold token_ok in Hs. destruct (tok s) as [|o].
    - split; [reflexivity | discriminate].
    - apply andb_prop in Hs as [Hwf _]. now apply operand_chars. }
  apply is_valid_formula_loop_accepts; [lia| |].
  - induction toks as [|s toks IH]; [reflexivity|].
    simpl in Hok. apply andb_prop in Hok as [Hs Hok].
    simpl. unfold spaced_text at 1.
    rewrite !forallb_app, spaces_chars, (IH Hok), andb_true_r.
    destruct (Htok s Hs) as [Hc _].
    now apply forallb_weaken in Hc as [_ ->].
  - induction toks as [|s toks IH]; [reflexivity|].
    simpl in Hok. apply andb_prop in Hok as [Hs Hok].
    simpl. destruct (Htok s Hs) as [Hc Hne].
    apply forallb_weaken in Hc as [Hc _].
    destruct (flat_map spaced_text toks) as [|x xs] eqn:E.
    + rewrite app_nil_r. unfold spaced_text.
      rewrite ends_well_app by exact Hne. now apply ends_well_plain.
    + rewrite ends_well_app by discriminate. now apply IH.
Qed.

(** An equals sign followed by plus signs and operands in any order
    evaluates to the sum of the operands when there is one operand more
    than there are plus signs, and fails the arity check otherwise. *)
Lemma tokens_evaluate (sh : grid) (lead : nat) (toks : list spaced) :
  (Z.of_nat NUM_ROWS <= 2 ^ 31)%Z ->
  forallb token_ok toks = true -> separated toks = true ->
  parse_and_calculate_formula sh (tokens_text lead toks)
  = if length (operands_of toks) =? pluses_of toks + 1
    then Done (sum_of (map (contribution sh) (operands_of toks)))
    else Failed ArityMismatch.
Proof.
  intros Hfit Hok Hsep. unfold parse_and_calculate_formula.
  rewrite tokens_text_valid by exact Hok. simpl negb. cbv iota.
  fold (scan sh (tokens_text lead toks) make_double_assist 0).
  unfold tokens_text.
  rewrite scan_spaces, scan_skip by reflexivity.
  rewrite scan_tokens by assumption. rewrite Nat.add_0_r.
  set (st := fold_left _ _ _).
  assert (Hel : elems st = rev (map (contribution sh) (operands_of toks)))
    by (unfold st; now rewrite elems_pushes, app_nil_r).
  assert (Hsz : size st = length (operands_of toks))
    by (unfold size; now rewrite Hel, length_rev, length_map).
  rewrite Hsz.
  destruct (length (operands_of toks) =? pluses_of toks + 1);
    [|reflexivity].
  simpl negb. cbv iota. f_equal.
  rewrite <- Hsz, drain_elems, Hel. apply sum_of_rev.
Qed.

(** ** The arity check *)

Lemma parse_after_scan (sh : grid) (f : cstring) :
  is_valid_formula f = true ->
  parse_and_calculate_formula sh f
  = match scan sh f make_double_assist 0 with
    | Scanned st ops =>
        if size st =? ops + 1 then Done (drain (size st) st dzero)
        else Failed ArityMismatch
    | ScanFailed e => Failed e
    | ScanStuck => NoReturn
    end.
Proof.
  intros Hv. unfold parse_and_calculate_formula, scan. rewrite Hv. simpl.
  destruct (scan_loop (length f) sh f make_double_assist 0); trivial.
  now destruct (size numAssist =? opcount + 1).
Qed.

(** C7: an evaluation succeeds only when the scan has collected one
    operand more than it has counted operators, and a scan that ends with
    any other count makes the evaluation fail with ArityMismatch.  For a
    text made of an equals sign, plus signs and operands that name cells
    of the sheet, in any order, this decides the evaluation: it returns
    the sum when there is one operand more than there are plus signs and
    fails with ArityMismatch otherwise.  The texts [=A1+] and [=A1 B2]
    fail in this way on a sheet that has the cells A1 and B2. *)
Theorem arity_is_checked (sh : grid) (f : cstring) :
  2 <= NUM_ROWS -> 2 <= NUM_COLS -> (Z.of_nat NUM_ROWS <= 2 ^ 31)%Z ->
  (forall r, parse_and_calculate_formula sh f = Done r ->
     exists st ops,
       scan sh f make_double_assist 0 = Scanned st ops
       /\ size st = ops + 1 /\ r = drain (size st) st dzero)
  /\ (forall st ops,
        is_valid_formula f = true ->
        scan sh f make_double_assist 0 = Scanned st ops ->
        size st <> ops + 1 ->
        parse_and_calculate_formula sh f = Failed ArityMismatch)
  /\ (forall lead toks,
        forallb token_ok toks = true -> separated toks = true ->
        parse_and_calculate_formula sh (tokens_text lead toks)
        = if length (operands_of toks) =? pluses_of toks + 1
          then Done (sum_of (map (contribution sh) (operands_of toks)))
          else Failed ArityMismatch)
  /\ parse_and_calculate_formula sh (cstr "=A1+") = Failed ArityMismatch
  /\ parse_and_calculate_formula sh (cstr "=A1 B2") = Failed ArityMismatch.
Proof.
  intros Hrows Hcols Hfit. split; [|split; [|split; [|split]]].
  - intros r Hr. pose proof (parse_done_valid sh f r Hr) as Hv.
    rewrite (parse_after_scan sh f Hv) in Hr.
    destruct (scan sh f make_double_assist 0) as [st ops|e|];
      try discriminate.
    destruct (size st =? ops + 1) eqn:E; [|discriminate].
    apply Nat.eqb_eq in E. inversion Hr. now exists st, ops.
  - intros st ops Hv Hs Hne. rewrite (parse_after_scan sh f Hv), Hs.
    apply Nat.eqb_neq in Hne. now rewrite Hne.
  - intros lead toks Hok Hsep. now apply tokens_evaluate.
  - change (cstr "=A1+")
      with (tokens_text 0
              [mkspaced 0 (Operand (Reference "A" (cstr "1")));
               mkspaced 0 Plus]).
    rewrite tokens_evaluate; trivial.
    unfold token_ok, inside, column_index. simpl.
    replace (0 <? NUM_COLS) with true by (symmetry; apply Nat.ltb_lt; lia).
    replace (1 <=? Z.of_nat NUM_ROWS)%Z with true
      by (symmetry; apply Z.leb_le; lia).
    reflexivity.
  - change (cstr "=A1 B2")
      with (tokens_text 0
              [mkspaced 0 (Operand (Reference "A" (cstr "1")));
               mkspaced 1 (Operand (Reference "B" (cstr "2")))]).
    rewrite tokens_evaluate; trivial.
    unfold token_ok, inside, column_index. simpl.
    replace (0 <? NUM_COLS) with true by (symmetry; apply Nat.ltb_lt; lia).
    replace (1 <? NUM_COLS) with true by (symmetry; apply Nat.ltb_lt; lia).
    replace (1 <=? Z.of_nat NUM_ROWS)%Z with true
      by (symmetry; apply Z.leb_le; lia).
    replace (2 <=? Z.of_nat NUM_ROWS)%Z with true
      by (symmetry; apply Z.leb_le; lia).
    reflexivity.
Qed.

(** ** When the evaluator does not return *)



(** A formula text with a decimal point that starts no number passes the
    grammar check, and writing it makes the process exit: [=.] is the
    shortest such text. *)
Lemma lone_point_exits (w : world) (row col : nat) :
  in_grid row col = true ->
  is_valid_formula (cstr "=.") = true
  /\ (forall sh, parse_and_calculate_formula sh (cstr "=.") = NoReturn)
  /\ set_cell_value row col (Some (cstr "=.")) w = Exits.
Proof.
  intros Hin. split; [reflexivity|]. split; [reflexivity|].
  unfold set_cell_value. rewrite Hin. reflexivity.
Qed.

(** Clearing a cell and reading it gives the empty text. *)
Lemma clear_then_read (w w' : world) (row col : nat) :
  clear_cell row col w = Returns w' ->
  get_textual_value w' row col = Some [].
Proof.
  unfold clear_cell, get_textual_value.
  destruct (in_grid row col) eqn:Hin; simpl; [|discriminate].
  destruct (type (sheet w row col)) eqn:Ht; intros H; inversion H; subst;
    simpl; rewrite ?Ht, ?store_same; reflexivity.
Qed.

(** A formula cell of a reachable world holds a text that evaluates on
    every sheet: the pass never shows ERROR for it. *)
Lemma reachable_formula_evaluates (w : world) (i j : nat) :
  reachable w -> type (sheet w i j) = eqn ->
  exists f,
    strVal (sheet w i j) = Some f
    /\ forall sh, exists r, parse_and_calculate_formula sh f = Done r.
Proof. intros Hr Ht. exact (reachable_evaluable w Hr i j Ht). Qed.

End Properties.

(** * Further properties *)

(** ** White space and the formula grammar *)

(** X1: [skip_whitespace] returns exactly what follows the longest run of
    leading white space: the text is a run of white space followed by the
    result, and the result is empty or starts with a character that is no
    white space.  No other split of the text has these two properties. *)
Theorem skip_whitespace_longest_run (s body : cstring) :
  skip_whitespace s = body
  <-> exists ws,
        s = ws ++ body /\ whitespace ws
        /\ match body with c :: _ => isspace c = false | [] => True end.
Proof.
  split.
  - intros <-. destruct (skip_whitespace_split s) as (ws & Hs & Hws).
    exists ws. repeat split; trivial.
    destruct (skip_whitespace s) as [|c rest] eqn:E; [exact I|].
    exact (skip_whitespace_head s c rest E).
  - intros (ws & -> & Hws & Hb). now apply skip_whitespace_app.
Qed.

Lemma is_valid_formula_loop_chars (n : nat) (s : cstring) :
  is_valid_formula_loop n s = true ->
  forallb formula_char s = true /\ ends_well s = true.
Proof.
  revert s. induction n as [|n IH]; intros s; destruct s as [|a s'];
    try (now split); try discriminate.
  cbn [is_valid_formula_loop].
  destruct (skip_whitespace_split (a :: s')) as (ws & Hs & Hws).
  destruct (skip_whitespace (a :: s')) as [|c rest] eqn:Hsk; [discriminate|].
  pose proof (skip_whitespace_head _ _ _ Hsk) as Hc.
  intros H.
  assert (Hok : formula_char c = true /\ is_valid_formula_loop n rest = true).
  { destruct (isalpha c) eqn:Ha.
    - destruct (islower c) eqn:Hl; [discriminate|]. split; [|exact H].
      revert Ha Hl. clear. by_cases_on c.
    - destruct (isdigit c || is_char "." c || is_char "+" c) eqn:Hd;
        [|discriminate].
      split; [|exact H]. revert Hd. clear. by_cases_on c. }
  destruct Hok as [Hfc Hrest]. destruct (IH rest Hrest) as [Hall Hend].
  rewrite Hs. split.
  - rewrite forallb_app. simpl. rewrite Hfc, Hall, andb_true_r.
    apply forallb_forall. intros x Hx.
    unfold whitespace in Hws. rewrite Forall_forall in Hws.
    unfold formula_char. now rewrite (Hws x Hx).
  - rewrite ends_well_app by discriminate.
    destruct rest as [|d rest']; [simpl; now rewrite Hc | exact Hend].
Qed.

(** X2: [is_valid_formula] accepts exactly the texts made of optional
    white space, an equals sign and then only white space, uppercase
    letters, digits, decimal points and plus signs, the last of which is no
    white space. *)
Theorem formula_grammar_shape (s : cstring) :
  is_valid_formula s = true
  <-> exists ws rest,
        s = ws ++ EQUALS_CHAR :: rest /\ whitespace ws
        /\ forallb formula_char rest = true /\ ends_well rest = true.
Proof.
  unfold is_valid_formula. split.
  - destruct (skip_whitespace_split s) as (ws & Hs & Hws).
    destruct (skip_whitespace s) as [|c rest]; [discriminate|].
    destruct (is_char EQUALS_CHAR c) eqn:Hc; [|discriminate].
    apply is_char_eq in Hc. subst c. intros H.
    apply is_valid_formula_loop_chars in H as [Hall Hend].
    now exists ws, rest.
  - intros (ws & rest & -> & Hws & Hall & Hend).
    rewrite skip_whitespace_app; [|exact Hws | reflexivity].
    change (is_char EQUALS_CHAR EQUALS_CHAR) with true. cbv iota.
    now apply is_valid_formula_loop_accepts.
Qed.

Section Cells.

Context {P : Platform}.

(** ** The cells of a reachable world *)

Lemma committed_shaped (sh : grid) (row col : nat) (text shown : cstring)
    (c : cell) :
  text <> [] -> committed sh row col text = Some (c, shown) -> well_shaped c.
Proof.
  intros Hne. unfold committed.
  destruct (is_valid_num (Some text)).
  { intros H. inversion H. unfold well_shaped. simpl. now left. }
  destruct (is_valid_formula text).
  - destruct (parse_and_calculate_formula (set_string_value sh row col text)
                text) as [r|e|] eqn:Hp; intros H; inversion H.
    + unfold well_shaped. simpl. exists text. split; [reflexivity|].
      intros sh'. eapply parse_done_any. exact Hp.
    + unfold well_shaped. simpl. exists text. split; [reflexivity | exact Hne].
  - intros H. injection H as <- _. unfold well_shaped. simpl. exists text.
    split; [reflexivity | exact Hne].
Qed.

Lemma pass_keeps_shape (row col : nat) (w w' : world) :
  pass_effect row col cells w w' ->
  sheet_shaped (sheet w) -> sheet_shaped (sheet w').
Proof.
  intros [S _] Hk i j. destruct (Hk i j) as [Hs Ho].
  destruct (S i j) as [E|(Hin & _ & Ht & f & r & Hf & E)].
  - rewrite E. now split.
  - rewrite E. split.
    + unfold well_shaped. simpl. right. exists f. split; [reflexivity|].
      unfold well_shaped in Hs. rewrite Ht in Hs.
      destruct Hs as (f' & Hc & Hev). rewrite Hc in Hf. simpl in Hf.
      inversion Hf. now subst.
    + intros Hout. apply in_cells in Hin. congruence.
Qed.

Lemma write_parts (row col : nat) (text : cstring) (w w' : world) :
  text <> [] -> set_cell_value row col (Some text) w = Returns w' ->
  in_grid row col = true
  /\ exists sh1 c shown w1,
       committed (sheet w) row col text = Some (c, shown)
       /\ (forall a b, (a, b) <> (row, col) -> sh1 a b = sheet w a b)
       /\ sh1 row col = c
       /\ update_all row col (mkworld sh1 (display w)) = Returns w1
       /\ w' = mkworld (sheet w1) (display w1 ++ [notify row col shown]).
Proof.
  intros Hne H.
  assert (Hrc : in_grid row col = true).
  { destruct (in_grid row col) eqn:E; [reflexivity|].
    unfold set_cell_value in H. destruct text; [contradiction|].
    rewrite E in H. discriminate. }
  split; [exact Hrc|].
  destruct (set_cell_value_unfold row col text w Hne Hrc) as (sh1 & Ho & Hc).
  destruct (committed (sheet w) row col text) as [[c shown]|]; [|congruence].
  destruct Hc as [Hat Heq]. rewrite Heq in H.
  destruct (update_all row col (mkworld sh1 (display w))) as [w1| |] eqn:Hu;
    simpl in H; try discriminate.
  inversion H. exists sh1, c, shown, w1. repeat split; trivial.
Qed.

Lemma set_cell_value_keeps_shape (row col : nat) (text : option (cstring))
    (w w' : world) :
  sheet_shaped (sheet w) ->
  set_cell_value row col text w = Returns w' ->
  sheet_shaped (sheet w').
Proof.
  intros Hk H.
  destruct text as [text|]; [|simpl in H; inversion H; now subst].
  destruct text as [|c0 t0]; [simpl in H; inversion H; now subst|].
  apply write_parts in H; [|discriminate].
  destruct H as (Hrc & sh1 & c & shown & w1 & Hcm & Ho & Hat & Hu & ->).
  simpl. apply (pass_keeps_shape row col _ _ (update_all_effect _ _ _ _ Hu)).
  simpl. intros i j. destruct (pair_eq_dec (i, j) (row, col)) as [E|N].
  - inversion E; subst i j. rewrite Hat. split.
    + eapply committed_shaped; [|exact Hcm]. discriminate.
    + congruence.
  - rewrite (Ho i j N). apply Hk.
Qed.

Lemma clear_cell_keeps_shape (row col : nat) (w w' : world) :
  sheet_shaped (sheet w) ->
  clear_cell row col w = Returns w' ->
  sheet_shaped (sheet w').
Proof.
  intros Hk. unfold clear_cell.
  destruct (in_grid row col); simpl; [|discriminate].
  assert (Hst : sheet_shaped (store (sheet w) row col zero_cell)).
  { intros i j. destruct (pair_eq_dec (i, j) (row, col)) as [E|N].
    - inversion E; subst. rewrite store_same. split; reflexivity.
    - rewrite store_other by exact N. apply Hk. }
  destruct (type (sheet w row col)); intros H; inversion H; subst; auto.
Qed.

Lemma reachable_shaped (w : world) : reachable w -> sheet_shaped (sheet w).
Proof.
  induction 1 as [|w row col text w' _ IH H|w row col w' _ IH H].
  - intros i j. split; reflexivity.
  - eapply set_cell_value_keeps_shape; eauto.
  - eapply clear_cell_keeps_shape; eauto.
Qed.

(** X3: in every world a caller can reach, an Empty cell is all zero
    (no string, the number 0); a Text cell holds a non-empty string and the
    number 0; a Formula cell holds the number 0 and a text that evaluates
    whatever the sheet holds; a Numeric cell holds no string at all or, after
    a recalculation, a formula text that evaluates.  Nothing outside the
    sheet is ever written. *)
Theorem reachable_cell_shapes (w : world) (i j : nat) :
  reachable w ->
  match type (sheet w i j) with
  | none => sheet w i j = zero_cell
  | str => exists s, sheet w i j = mkcell str dzero (Some s) /\ s <> []
  | eqn =>
      exists f,
        sheet w i j = mkcell eqn dzero (Some f)
        /\ forall sh, exists r, parse_and_calculate_formula sh f = Done r
  | num =>
      strVal (sheet w i j) = None
      \/ exists f,
           strVal (sheet w i j) = Some f
           /\ forall sh, exists r, parse_and_calculate_formula sh f = Done r
  end
  /\ (in_grid i j = false -> sheet w i j = zero_cell).
Proof. intros Hr. exact (reachable_shaped w Hr i j). Qed.

(** The pass turns every formula cell it meets into a Numeric cell. *)
Lemma pass_settles (row col : nat) (w w' : world) (i j : nat) :
  formulas_evaluable (sheet w) ->
  update_all row col w = Returns w' ->
  in_grid i j = true -> (i, j) <> (row, col) ->
  type (sheet w' i j) <> eqn.
Proof.
  intros Hinv Hu Hin Hne Ht.
  pose proof (update_all_effect _ _ _ _ Hu) as Eff.
  destruct Eff as [S _].
  destruct (S i j) as [E|(_ & _ & _ & f & r & _ & E)];
    [|rewrite E in Ht; discriminate].
  rewrite E in Ht.
  destruct (Hinv i j Ht) as (f & Hs & Hev).
  rewrite update_all_cells in Hu.
  destruct (pass_turn row col cells w w' i j f cells_nodup
              (proj2 (in_cells i j) Hin) Hne Ht Hs Hu)
    as (wm & _ & _ & _ & _ & _ & [(r & _ & Hc & _)|(e & He & _)]).
  - rewrite E in Hc. rewrite Hc in Ht. discriminate.
  - destruct (Hev (sheet wm)) as [r Hr]. congruence.
Qed.

Lemma write_settles_formulas (row col : nat) (text : cstring)
    (w w' : world) (i j : nat) :
  reachable w -> text <> [] ->
  set_cell_value row col (Some text) w = Returns w' ->
  (i, j) <> (row, col) -> type (sheet w' i j) <> eqn.
Proof.
  intros Hr Hne H Hij.
  pose proof (reach_set _ _ _ _ _ Hr H) as Hr'.
  destruct (in_grid i j) eqn:Hin.
  2:{ destruct (reachable_shaped w' Hr' i j) as [_ Ho].
      rewrite (Ho Hin). discriminate. }
  apply write_parts in H; [|exact Hne].
  destruct H as (Hrc & sh1 & c & shown & w1 & Hcm & Ho & Hat & Hu & ->).
  simpl. eapply pass_settles; eauto. simpl.
  eapply committed_keeps_evaluable; eauto.
  now apply reachable_evaluable.
Qed.

(** X4: in every world a caller can reach at most one cell has the
    type Formula: the pass of a write turns every other formula cell into a
    Numeric cell. *)
Theorem at_most_one_formula_cell (w : world) (i j a b : nat) :
  reachable w ->
  type (sheet w i j) = eqn -> type (sheet w a b) = eqn -> (i, j) = (a, b).
Proof.
  induction 1 as [|w row col text w' Hr IH H|w row col w' Hr IH H].
  - discriminate.
  - destruct text as [text|]; [|simpl in H; inversion H; subst; exact IH].
    destruct text as [|c0 t0]; [simpl in H; inversion H; subst; exact IH|].
    intros H1 H2.
    destruct (pair_eq_dec (i, j) (row, col)) as [E1|N1];
      [|exfalso; revert H1; eapply write_settles_formulas; eauto;
        discriminate].
    destruct (pair_eq_dec (a, b) (row, col)) as [E2|N2];
      [|exfalso; revert H2; eapply write_settles_formulas; eauto;
        discriminate].
    congruence.
  - unfold clear_cell in H. destruct (in_grid row col); [|discriminate].
    simpl in H.
    assert (Hst : forall x y, type (store (sheet w) row col zero_cell x y) = eqn
                              -> type (sheet w x y) = eqn).
    { intros x y. destruct (pair_eq_dec (x, y) (row, col)) as [E|N].
      - inversion E; subst. rewrite store_same. discriminate.
      - now rewrite store_other by exact N. }
    destruct (type (sheet w row col)); inversion H; subst; simpl; auto.
Qed.

(** ** Writes of the three classes of text *)

(** X5: a write of a non-empty text that is neither a number nor a
    formula returns; the written cell is a Text cell with the number 0 and
    the text as its string, reading it gives the first 255 characters of the
    text, and the last notification of the write shows the text for the
    written cell. *)
Theorem plain_text_is_stored (w : world) (row col : nat) (text : cstring) :
  reachable w -> in_grid row col = true -> text <> [] ->
  is_valid_num (Some text) = false -> is_valid_formula text = false ->
  exists w' evs,
    set_cell_value row col (Some text) w = Returns w'
    /\ sheet w' row col = mkcell str dzero (Some text)
    /\ get_textual_value w' row col = Some (firstn (MAX_LEN - 1) text)
    /\ display w' = display w ++ evs ++ [notify row col text]
    /\ Forall (fun n => ~ about (row, col) n) evs.
Proof.
  intros Hr Hin Hne Hnum Hf.
  assert (Hcm : committed (sheet w) row col text
                = Some (mkcell str dzero (Some text), text))
    by (unfold committed; now rewrite Hnum, Hf).
  destruct (set_cell_value_total row col text w (reachable_evaluable w Hr)
              Hne Hin _ _ Hcm)
    as (w1 & evs & Hset & Hat & _ & Hevs).
  eexists. exists evs. split; [exact Hset|].
  unfold get_textual_value. simpl. rewrite Hin, Hat. simpl. auto.
Qed.

Lemma strtod_padded_literal (ws lit : cstring) :
  whitespace ws -> is_decimal_literal lit = true ->
  strtod (ws ++ lit) = (strtod_value lit, []).
Proof.
  intros Hws Hlit.
  pose proof (strtod_literal lit [] Hlit I) as H.
  rewrite app_nil_r in H. unfold strtod in *.
  destruct (decimal_literal_head lit Hlit) as (c & r & E & Hc).
  assert (Hsk : skip_whitespace (ws ++ lit) = lit).
  { apply skip_whitespace_app; [exact Hws|]. rewrite E.
    now apply literal_char_not_space. }
  assert (Hsk' : skip_whitespace lit = lit).
  { rewrite E. simpl. now rewrite (literal_char_not_space c Hc). }
  rewrite Hsk. rewrite Hsk' in H.
  destruct (subject_len lit =? 0); [|exact H].
  inversion H. subst lit. discriminate.
Qed.

(** X6: a write of a decimal literal, with or without white space in
    front of it, stores the value [strtod] gives to the whole literal in a
    Numeric cell without a string, and its last notification shows the text
    as it was written, white space included. *)
Theorem number_write_stores_value (w : world) (row col : nat)
    (ws lit : cstring) :
  reachable w -> in_grid row col = true ->
  whitespace ws -> is_decimal_literal lit = true ->
  exists w' evs,
    set_cell_value row col (Some (ws ++ lit)) w = Returns w'
    /\ sheet w' row col = mkcell num (strtod_value lit) None
    /\ display w' = display w ++ evs ++ [notify row col (ws ++ lit)]
    /\ Forall (fun n => ~ about (row, col) n) evs.
Proof.
  intros Hr Hin Hws Hlit.
  assert (Hnum : is_valid_num (Some (ws ++ lit)) = true).
  { rewrite is_valid_num_literal, skip_whitespace_app; trivial.
    destruct (decimal_literal_head lit Hlit) as (c & r & -> & Hc).
    now apply literal_char_not_space. }
  assert (Hcm : committed (sheet w) row col (ws ++ lit)
                = Some (mkcell num (strtod_value lit) None, ws ++ lit)).
  { unfold committed. rewrite Hnum.
    now rewrite (strtod_padded_literal ws lit Hws Hlit). }
  destruct (set_cell_value_total row col (ws ++ lit) w
              (reachable_evaluable w Hr) (numeric_not_empty _ Hnum) Hin
              _ _ Hcm)
    as (w1 & evs & Hset & Hat & _ & Hevs).
  eexists. exists evs. split; [exact Hset|]. simpl. auto.
Qed.


(** X8: [clear_cell] on a cell of the sheet returns and leaves the
    cell Empty; a cell that was not Empty is all zero afterwards and one
    notification with the empty text is sent for it, an Empty cell causes no
    notification; no other cell changes (nothing is recalculated), reading
    the cell gives the empty text, and clearing it once more changes
    nothing. *)
Theorem clear_cell_empties (w : world) (row col : nat) :
  in_grid row col = true ->
  exists w',
    clear_cell row col w = Returns w'
    /\ type (sheet w' row col) = none
    /\ (type (sheet w row col) <> none -> sheet w' row col = zero_cell)
    /\ get_textual_value w' row col = Some []
    /\ (forall i j, (i, j) <> (row, col) -> sheet w' i j = sheet w i j)
    /\ display w'
       = display w ++ match type (sheet w row col) with
                      | none => []
                      | _ => [notify row col []]
                      end
    /\ clear_cell row col w' = Returns w'.
Proof.
  intros Hin. unfold clear_cell, get_textual_value. rewrite Hin. simpl.
  destruct (type (sheet w row col)) eqn:Ht.
  - exists w. rewrite Ht. repeat split; trivial.
    + intros X. contradiction.
    + now rewrite app_nil_r.
  - eexists. split; [reflexivity|]. simpl. rewrite store_same. simpl.
    repeat split; trivial. intros i j N. now apply store_other.
  - eexists. split; [reflexivity|]. simpl. rewrite store_same. simpl.
    repeat split; trivial. intros i j N. now apply store_other.
  - eexists. split; [reflexivity|]. simpl. rewrite store_same. simpl.
    repeat split; trivial. intros i j N. now apply store_other.
Qed.





End Cells.

Section Evaluation.

Context {P : Platform}.

(** ** The operand stack and the evaluator *)

Lemma push_within_capacity (st : DoubleAssist) (v : double) :
  within_capacity st -> within_capacity (double_assist_push st v).
Proof.
  intros [Hs Hc]. unfold within_capacity, double_assist_push, size in *.
  destruct (capacity st <=? length (elems st)) eqn:E; simpl.
  - apply Nat.leb_le in E. lia.
  - apply Nat.leb_gt in E. lia.
Qed.

(** X11: a push on a stack that holds no more elements than its
    capacity leaves it so, doubling the capacity exactly when the stack is
    full; the pop that follows returns the value pushed and leaves the
    elements that were there before. *)
Theorem push_then_pop (st : DoubleAssist) (v : double) :
  within_capacity st ->
  within_capacity (double_assist_push st v)
  /\ exists st',
       double_assist_pop (double_assist_push st v) = Some (v, st')
       /\ elems st' = elems st
       /\ capacity st' = (if size st =? capacity st then 2 * capacity st
                          else capacity st).
Proof.
  intros H. split; [now apply push_within_capacity|].
  destruct H as [Hs Hc]. unfold double_assist_push, double_assist_pop.
  simpl. eexists. split; [reflexivity|]. simpl.
  unfold size in *.
  destruct (capacity st <=? length (elems st)) eqn:E; simpl.
  - apply Nat.leb_le in E.
    replace (length (elems st) =? capacity st) with true
      by (symmetry; apply Nat.eqb_eq; lia). auto.
  - apply Nat.leb_gt in E.
    replace (length (elems st) =? capacity st) with false
      by (symmetry; apply Nat.eqb_neq; lia). auto.
Qed.

Lemma scan_loop_stack (n : nat) (sh : grid) (f : cstring)
    (st st' : DoubleAssist) (ops ops' : nat) :
  within_capacity st ->
  scan_loop n sh f st ops = Scanned st' ops' ->
  within_capacity st'
  /\ size st' + ops' <= size st + ops + length f.
Proof.
  revert f st ops. induction n as [|n IH]; intros f st ops Hst H.
  - destruct f; [|discriminate]. inversion H; subst. simpl. split; [auto|lia].
  - destruct f as [|c rest]; [inversion H; subst; simpl; split; [auto|lia]|].
    cbn [scan_loop] in H. cbn [length].
    destruct (is_char EQUALS_CHAR c || is_char " " c).
    { destruct (IH _ _ _ Hst H). split; [auto|lia]. }
    destruct (is_char "+" c).
    { destruct (IH _ _ _ Hst H). split; [auto|lia]. }
    destruct (isalpha c).
    + destruct (match rest with d :: _ => isdigit d | [] => false end);
        [|discriminate].
      pose proof (strtol_length rest) as Hl.
      destruct (strtol rest) as [v f']. simpl in Hl.
      match type of H with (if ?b then _ else _) = _ => destruct b end;
        [discriminate|].
      apply IH in H; [|now apply push_within_capacity].
      rewrite size_push in H. destruct H. split; [auto|lia].
    + destruct (isdigit c || is_char "." c); [|discriminate].
      destruct (strtod (c :: rest)) as [v f'].
      destruct (length f' <? length (c :: rest)) eqn:Hl; [|discriminate].
      apply Nat.ltb_lt in Hl. cbn [length] in Hl.
      apply IH in H; [|now apply push_within_capacity].
      rewrite size_push in H. destruct H. split; [auto|lia].
Qed.

(** X12: when the scan of a formula ends, the operand stack holds no
    more elements than its capacity, and the operands pushed and the
    operators counted are together no more than the text has characters. *)
Theorem operand_stack_stays_in_bounds (sh : grid) (f : cstring)
    (st : DoubleAssist) (ops : nat) :
  scan sh f make_double_assist 0 = Scanned st ops ->
  size st <= capacity st /\ size st + ops <= length f.
Proof.
  intros H. apply scan_loop_stack in H.
  - destruct H as [[H1 _] H2].
    change (size make_double_assist) with 0 in H2.
    split; [exact H1 | lia].
  - unfold within_capacity, size, make_double_assist. simpl. lia.
Qed.

Lemma scan_loop_numbers (n : nat) (sh1 sh2 : grid) (f : cstring)
    (st : DoubleAssist) (ops : nat) :
  (forall a b, in_grid a b = true -> numVal (sh1 a b) = numVal (sh2 a b)) ->
  scan_loop n sh1 f st ops = scan_loop n sh2 f st ops.
Proof.
  intros E. revert f st ops. induction n as [|n IH]; intros f st ops.
  - now destruct f.
  - destruct f as [|c rest]; [reflexivity|]. cbn [scan_loop].
    destruct (is_char EQUALS_CHAR c || is_char " " c); [apply IH|].
    destruct (is_char "+" c); [apply IH|].
    destruct (isalpha c).
    + destruct (match rest with d :: _ => isdigit d | [] => false end);
        [|reflexivity].
      destruct (strtol rest) as [v f'].
      set (curRow := enum_of_long (v - 1)).
      set (curCol := (Z.of_nat (code c) - 65)%Z).
      destruct ((curRow <? 0)%Z) eqn:H1; [reflexivity|].
      destruct ((curRow >=? Z.of_nat NUM_ROWS)%Z) eqn:H2; [reflexivity|].
      destruct ((curCol <? 0)%Z) eqn:H3; [reflexivity|].
      destruct ((curCol >=? Z.of_nat NUM_COLS)%Z) eqn:H4; [reflexivity|].
      simpl. rewrite E; [apply IH|].
      unfold in_grid. apply andb_true_intro.
      rewrite !Nat.ltb_lt. rewrite Z.geb_leb in H2, H4.
      apply Z.ltb_ge in H1, H3. apply Z.leb_gt in H2, H4. lia.
    + destruct (isdigit c || is_char "." c); [|reflexivity].
      destruct (strtod (c :: rest)) as [v f'].
      destruct (length f' <? length (c :: rest)); [apply IH | reflexivity].
Qed.

(** X13: the evaluation of a formula depends on the sheet only
    through the numbers of the cells inside the sheet: it reads no type, no
    string and nothing outside the sheet. *)
Theorem evaluation_reads_numbers_of_sheet (sh1 sh2 : grid) (f : cstring) :
  (forall a b, in_grid a b = true -> numVal (sh1 a b) = numVal (sh2 a b)) ->
  parse_and_calculate_formula sh1 f = parse_and_calculate_formula sh2 f.
Proof.
  intros E. unfold parse_and_calculate_formula.
  now rewrite (scan_loop_numbers _ sh1 sh2 _ _ _ E).
Qed.

(** X14: whether a formula evaluates, fails, and with which error, or
    never returns depends on its text alone, not on the contents of the
    sheet. *)
Theorem evaluation_course_is_textual (sh1 sh2 : grid) (f : cstring) :
  (forall e, parse_and_calculate_formula sh1 f = Failed e
             <-> parse_and_calculate_formula sh2 f = Failed e)
  /\ ((exists r, parse_and_calculate_formula sh1 f = Done r)
      <-> (exists r, parse_and_calculate_formula sh2 f = Done r))
  /\ (parse_and_calculate_formula sh1 f = NoReturn
      <-> parse_and_calculate_formula sh2 f = NoReturn).
Proof.
  pose proof (parse_shape sh1 sh2 f) as S.
  destruct (parse_and_calculate_formula sh1 f) as [r1|e1|];
    destruct (parse_and_calculate_formula sh2 f) as [r2|e2|];
    simpl in S; try contradiction; subst;
    (split; [|split]); try intros e; split;
    try discriminate; try (intros [r Hr]; discriminate); eauto.
Qed.

Lemma ends_with_operand_cons (s u : spaced) (toks : list spaced) :
  ends_with_operand (s :: u :: toks) = ends_with_operand (u :: toks).
Proof.
  unfold ends_with_operand. simpl.
  destruct (rev toks) as [|x xs]; reflexivity.
Qed.

Lemma closes_stops (rest : cstring) : closes rest -> stops rest.
Proof. exact (closes_head rest). Qed.

Lemma stops_no_digit (rest : cstring) :
  stops rest -> match rest with c :: _ => isdigit c = false | [] => True end.
Proof. destruct rest; [trivial | intros H; apply H]. Qed.

Lemma stops_blanks (k : nat) (tail : cstring) :
  0 < k -> stops (spaces k ++ tail).
Proof. destruct k; [lia|]. intros _. repeat split. Qed.

Lemma stops_upper (c : ascii) (tail : cstring) :
  isupper c = true -> c <> "E"%char -> c <> "X"%char -> stops (c :: tail).
Proof.
  intros Hup HE HX.
  destruct (upper_is_plain c Hup) as (_ & _ & Hlow & Hd & Hdot & _).
  apply is_char_neq in HE, HX. simpl. rewrite HE, HX, !orb_false_r.
  repeat split; trivial.
  - revert Hlow. by_cases_on c.
  - revert Hlow. by_cases_on c.
Qed.

Lemma stops_space (c : ascii) (tail : cstring) :
  isspace c = true -> stops (c :: tail).
Proof. revert c. intros c H. simpl. revert H. by_cases_on c. Qed.

(** [strtod] takes a decimal literal whole, and no more, whatever text
    that stops it comes behind. *)
Lemma mantissa_len_stops (lit rest : cstring) :
  is_decimal_literal lit = true -> stops rest ->
  mantissa_len isdigit (lit ++ rest) = length lit.
Proof.
  intros Hlit Hrest. unfold mantissa_len.
  destruct (decimal_literal_parts lit Hlit)
    as [[Hall _]|(d1 & d2 & -> & H1 & H2 & Hlen)].
  - rewrite (span_app isdigit lit rest Hall (stops_no_digit rest Hrest)).
    rewrite skipn_length_app.
    destruct rest as [|c r]; [reflexivity|].
    destruct Hrest as (_ & -> & _). reflexivity.
  - rewrite <- app_assoc. simpl.
    rewrite (span_app isdigit d1 ("."%char :: d2 ++ rest) H1 eq_refl).
    rewrite skipn_length_app. simpl.
    rewrite (span_app isdigit d2 rest H2 (stops_no_digit rest Hrest)).
    destruct (length d1 + length d2 =? 0) eqn:E;
      [apply Nat.eqb_eq in E; contradiction|].
    rewrite length_app. simpl. lia.
Qed.

Lemma subject_len_stops (lit rest : cstring) :
  is_decimal_literal lit = true -> stops rest ->
  subject_len (lit ++ rest) = length lit.
Proof.
  intros Hlit Hrest.
  assert (Hdec : dec_len (lit ++ rest) = length lit).
  { unfold dec_len.
    rewrite (mantissa_len_stops lit rest Hlit Hrest), skipn_length_app.
    destruct (decimal_literal_head lit Hlit) as (c & r & -> & _).
    change (length (c :: r) =? 0) with false. cbv iota.
    destruct rest as [|x xs]; [simpl; lia|].
    destruct Hrest as (_ & _ & He & _). unfold exponent_len. rewrite He.
    lia. }
  unfold subject_len.
  destruct (lit ++ rest) as [|z [|x more]] eqn:E; trivial.
  destruct (is_char "0" z && (is_char "x" x || is_char "X" x)) eqn:Hx;
    [|exact Hdec].
  exfalso. apply andb_prop in Hx as [_ Hx].
  destruct (decimal_literal_head lit Hlit) as (c & r & -> & _).
  simpl in E. inversion E; subst z.
  destruct r as [|c2 r2]; simpl in H1.
  - subst rest. destruct Hrest as (_ & _ & _ & H). congruence.
  - inversion H1; subst.
    unfold is_decimal_literal in Hlit. simpl in Hlit.
    apply andb_prop in Hlit as [Hlit _]. apply andb_prop in Hlit as [Hlit _].
    apply andb_prop in Hlit as [_ Hlit]. apply andb_prop in Hlit as [Hlit _].
    clear - Hx Hlit. revert Hx Hlit. by_cases_on x.
Qed.

Lemma strtod_stops (lit rest : cstring) :
  is_decimal_literal lit = true -> stops rest ->
  strtod (lit ++ rest) = (strtod_value lit, rest).
Proof.
  intros Hlit Hrest. unfold strtod.
  destruct (decimal_literal_head lit Hlit) as (c & r & E & Hc).
  assert (Hs : skip_whitespace (lit ++ rest) = lit ++ rest).
  { rewrite E. simpl. now rewrite (literal_char_not_space c Hc). }
  rewrite Hs, (subject_len_stops lit rest Hlit Hrest).
  rewrite firstn_length_app, skipn_length_app.
  rewrite E. reflexivity.
Qed.

Lemma scan_literal_stops (sh : grid) (lit rest : cstring) (st : DoubleAssist)
    (ops : nat) :
  is_decimal_literal lit = true -> stops rest ->
  scan sh (lit ++ rest) st ops
  = scan sh rest (double_assist_push st (strtod_value lit)) ops.
Proof.
  intros Hlit Hrest.
  pose proof (strtod_stops lit rest Hlit Hrest) as Hs.
  destruct (decimal_literal_head lit Hlit) as (c & r & -> & Hc).
  destruct (literal_char_plain c Hc) as (H1 & H2 & H3).
  unfold scan. simpl app in *. simpl length. cbn [scan_loop].
  rewrite H1, H2, H3, Hc, Hs.
  replace (length rest <? length (c :: r ++ rest)) with true
    by (symmetry; apply Nat.ltb_lt; simpl; rewrite length_app; lia).
  apply scan_loop_rounds; rewrite ?length_app; lia.
Qed.

(** [strtol] takes the row number of a reference whole when no digit
    comes behind it. *)
Lemma scan_reference_stops (sh : grid) (col : ascii) (row rest : cstring)
    (st : DoubleAssist) (ops : nat) :
  well_formed (Reference col row) = true ->
  column_index col < NUM_COLS ->
  (1 <= decimal_value row <= Z.of_nat NUM_ROWS)%Z ->
  (decimal_value row <= 2 ^ 31)%Z ->
  match rest with c :: _ => isdigit c = false | [] => True end ->
  scan sh (col :: row ++ rest) st ops
  = scan sh rest
      (double_assist_push st
         (numVal (sh (row_index row) (column_index col)))) ops.
Proof.
  intros Hwf Hcol Hrow Hfit Hrest. simpl in Hwf.
  apply andb_prop in Hwf as [Hwf Hlen]. apply andb_prop in Hwf as [Hup Hds].
  destruct (upper_is_plain col Hup) as (_ & Ha & _ & _ & _ & Hp & He & Hb).
  pose proof (upper_code col Hup) as Hcode.
  destruct row as [|d ds]; [discriminate|].
  assert (Hd : isdigit d = true) by (simpl in Hds; now apply andb_prop in Hds).
  assert (Hspan : span isdigit ((d :: ds) ++ rest) = length (d :: ds))
    by (apply span_app; assumption).
  unfold scan.
  change (length (col :: (d :: ds) ++ rest))
    with (S (length ((d :: ds) ++ rest))).
  set (n := length ((d :: ds) ++ rest)).
  assert (Hn : length rest <= n)
    by (unfold n; rewrite length_app; lia).
  clearbody n. cbn [scan_loop].
  rewrite He, Hb, Hp, Ha. simpl orb. cbv match.
  change (match (d :: ds) ++ rest with d0 :: _ => isdigit d0 | [] => false end)
    with (isdigit d). rewrite Hd.
  unfold strtol. rewrite Hspan, firstn_length_app, skipn_length_app.
  set (v := decimal_value (d :: ds)) in *.
  replace (Z.min v LONG_MAX) with v by (unfold LONG_MAX; lia).
  rewrite enum_of_long_small by lia.
  replace (v - 1 <? 0)%Z with false by (symmetry; apply Z.ltb_ge; lia).
  replace (v - 1 >=? Z.of_nat NUM_ROWS)%Z with false
    by (symmetry; rewrite Z.geb_leb; apply Z.leb_gt; lia).
  unfold column_index in *.
  replace (Z.of_nat (code col) - 65 <? 0)%Z with false
    by (symmetry; apply Z.ltb_ge; lia).
  replace (Z.of_nat (code col) - 65 >=? Z.of_nat NUM_COLS)%Z with false
    by (symmetry; rewrite Z.geb_leb; apply Z.leb_gt; lia).
  simpl orb. cbv match. unfold row_index. fold v.
  replace (Z.to_nat (Z.of_nat (code col) - 65)) with (code col - 65) by lia.
  apply scan_loop_rounds; lia.
Qed.

Lemma scan_operand_stops (sh : grid) (o : operand) (rest : cstring)
    (st : DoubleAssist) (ops : nat) :
  (Z.of_nat NUM_ROWS <= 2 ^ 31)%Z ->
  well_formed o = true -> inside o = true -> stops rest ->
  scan sh (operand_text o ++ rest) st ops
  = scan sh rest (double_assist_push st (contribution sh o)) ops.
Proof.
  intros Hfit Hwf Hin Hrest. destruct o as [lit|col row].
  - now apply scan_literal_stops.
  - simpl in Hin. apply andb_prop in Hin as [Hin H3].
    apply andb_prop in Hin as [H1 H2].
    apply Nat.ltb_lt in H1. apply Z.leb_le in H2, H3.
    simpl. apply scan_reference_stops; trivial; try lia.
    now apply stops_no_digit.
Qed.

Lemma closes_next (s u : spaced) (rest : list spaced) (tail : cstring) :
  is_operand (tok s) = true -> separated (s :: u :: rest) = true ->
  closes (flat_map spaced_text (u :: rest) ++ tail).
Proof.
  intros Hs Hsep.
  simpl in Hsep. apply andb_prop in Hsep as [Hsep _]. rewrite Hs in Hsep.
  simpl in Hsep. unfold spaced_text at 1. simpl flat_map.
  destruct (blanks u) as [|k]; [|simpl; auto].
  rewrite orb_false_r in Hsep. destruct (tok u); [simpl; auto|discriminate].
Qed.

(** The scan of a sequence of tokens with more text behind it. *)
Lemma scan_tokens_then (sh : grid) (toks : list spaced) (tail : cstring)
    (st : DoubleAssist) (ops : nat) :
  (Z.of_nat NUM_ROWS <= 2 ^ 31)%Z ->
  forallb token_ok toks = true -> separated toks = true ->
  (ends_with_operand toks = true -> stops tail) ->
  scan sh (flat_map spaced_text toks ++ tail) st ops
  = scan sh tail
      (fold_left double_assist_push
         (map (contribution sh) (operands_of toks)) st)
      (pluses_of toks + ops).
Proof.
  intros Hfit. revert st ops.
  induction toks as [|s toks IH]; intros st ops Hok Hsep Hend; [reflexivity|].
  simpl in Hok. apply andb_prop in Hok as [Hs Hok].
  assert (Hsep' : separated toks = true)
    by (simpl in Hsep; now apply andb_prop in Hsep).
  assert (Hend' : ends_with_operand toks = true -> stops tail).
  { destruct toks as [|u toks']; [discriminate|].
    now rewrite ends_with_operand_cons in Hend. }
  simpl flat_map. unfold spaced_text at 1.
  rewrite <- !app_assoc, scan_spaces.
  unfold token_ok in Hs. unfold operands_of, pluses_of. simpl.
  destruct (tok s) as [|o] eqn:Ht; simpl.
  - rewrite scan_plus, IH by assumption. unfold pluses_of. f_equal. lia.
  - apply andb_prop in Hs as [Hwf Hin].
    rewrite scan_operand_stops; trivial.
    + now rewrite IH.
    + destruct toks as [|u toks'].
      * simpl. apply Hend. unfold ends_with_operand. simpl. now rewrite Ht.
      * apply closes_stops, (closes_next s); [now rewrite Ht | exact Hsep].
Qed.

Lemma decimal_value_nonneg (ds : cstring) :
  forallb isdigit ds = true -> (0 <= decimal_value ds)%Z.
Proof.
  unfold decimal_value.
  assert (H : forall l acc, forallb isdigit l = true -> (0 <= acc)%Z ->
            (0 <= fold_left (fun a c => (10 * a + digit_value c)%Z) l acc)%Z).
  { induction l as [|x l IH]; intros acc Hl Hacc;
      cbn [fold_left forallb] in *; [lia|].
    apply andb_prop in Hl as [Hx Hl]. apply IH; [exact Hl|].
    unfold digit_value. unfold isdigit in Hx. apply andb_prop in Hx as [Hx _].
    apply Nat.leb_le in Hx. lia. }
  intros Hds. apply H; [exact Hds | lia].
Qed.

Lemma scan_reference_outside (sh : grid) (col : ascii)
    (row rest : cstring) (st : DoubleAssist) (ops : nat) :
  (Z.of_nat NUM_ROWS <= 2 ^ 31)%Z ->
  well_formed (Reference col row) = true ->
  inside (Reference col row) = false ->
  (decimal_value row <= 2 ^ 31)%Z ->
  match rest with d :: _ => isdigit d = false | [] => True end ->
  scan sh (col :: row ++ rest) st ops = ScanFailed OutOfRange.
Proof.
  intros Hfit Hwf Hout Hsmall Hrest. simpl in Hwf.
  apply andb_prop in Hwf as [Hwf Hlen]. apply andb_prop in Hwf as [Hup Hds].
  destruct (upper_is_plain col Hup) as (_ & Ha & _ & _ & _ & Hp & He & Hb).
  pose proof (upper_code col Hup) as Hcode.
  destruct row as [|d ds]; [discriminate|].
  assert (Hd : isdigit d = true) by (simpl in Hds; now apply andb_prop in Hds).
  assert (Hspan : span isdigit ((d :: ds) ++ rest) = length (d :: ds))
    by (apply span_app; assumption).
  assert (Hpos : (0 <= decimal_value (d :: ds))%Z).
  { now apply decimal_value_nonneg. }
  unfold scan.
  change (length (col :: (d :: ds) ++ rest))
    with (S (length ((d :: ds) ++ rest))).
  set (n := length ((d :: ds) ++ rest)). clearbody n. cbn [scan_loop].
  rewrite He, Hb, Hp, Ha. simpl orb. cbv match.
  change (match (d :: ds) ++ rest with d0 :: _ => isdigit d0 | [] => false end)
    with (isdigit d). rewrite Hd.
  unfold strtol. rewrite Hspan, firstn_length_app, skipn_length_app.
  set (v := decimal_value (d :: ds)) in *.
  replace (Z.min v LONG_MAX) with v by (unfold LONG_MAX; lia).
  rewrite enum_of_long_small by lia.
  unfold inside, column_index in Hout. fold v in Hout.
  match goal with |- (if ?b then _ else _) = _ =>
    replace b with true; [reflexivity|] end.
  symmetry.
  apply andb_false_iff in Hout as [Hout|Hout];
    [apply andb_false_iff in Hout as [Hout|Hout]|].
  - apply Nat.ltb_ge in Hout.
    replace (Z.of_nat (code col) - 65 >=? Z.of_nat NUM_COLS)%Z with true
      by (symmetry; rewrite Z.geb_leb; apply Z.leb_le; lia).
    now rewrite !orb_true_r.
  - apply Z.leb_gt in Hout.
    replace (v - 1 <? 0)%Z with true by (symmetry; apply Z.ltb_lt; lia).
    reflexivity.
  - apply Z.leb_gt in Hout.
    replace (v - 1 >=? Z.of_nat NUM_ROWS)%Z with true
      by (symmetry; rewrite Z.geb_leb; apply Z.leb_le; lia).
    now rewrite !orb_true_r.
Qed.

(** The text behind the tokens stops the last of them when it starts with
    a blank, or with an uppercase letter other than E and X. *)
Lemma stops_reference_or_blank (toks : list spaced) (k : nat) (c : ascii)
    (tail : cstring) :
  isupper c = true ->
  (ends_with_operand toks = true ->
   0 < k \/ (c <> "E"%char /\ c <> "X"%char)) ->
  ends_with_operand toks = true -> stops (spaces k ++ c :: tail).
Proof.
  intros Hup Hk Hend. destruct (Hk Hend) as [Hpos|[HE HX]].
  - now apply stops_blanks.
  - destruct k; [now apply stops_upper | now apply stops_blanks; lia].
Qed.

(** X15: take a text that passes the grammar check and starts with an
    equals sign, plus signs and operands that name cells of the sheet, two
    operands in a row having a blank between them.  A reference that
    follows them and names no cell of the sheet (its column letter is
    beyond the last column, or its row number is zero or beyond the last
    row; the row number is at most 2^31, beyond which the 32-bit row of
    the code wraps around) makes the evaluation fail with OutOfRange,
    whatever the text goes on with.  When the reference comes directly
    behind an operand, with no blank between them, its column letter is
    not E or X, which [strtod] can take for a part of the number before
    it.  The sheet has at most 2^31 rows. *)
Theorem reference_outside_sheet_is_refused (sh : grid) (lead : nat)
    (toks : list spaced) (k : nat) (col : ascii) (row rest : cstring) :
  (Z.of_nat NUM_ROWS <= 2 ^ 31)%Z ->
  forallb token_ok toks = true -> separated toks = true ->
  (ends_with_operand toks = true ->
   0 < k \/ (col <> "E"%char /\ col <> "X"%char)) ->
  well_formed (Reference col row) = true ->
  inside (Reference col row) = false ->
  (decimal_value row <= 2 ^ 31)%Z ->
  match rest with d :: _ => isdigit d = false | [] => True end ->
  is_valid_formula (tokens_text lead toks ++ spaces k ++ col :: row ++ rest)
  = true ->
  parse_and_calculate_formula sh
    (tokens_text lead toks ++ spaces k ++ col :: row ++ rest)
  = Failed OutOfRange.
Proof.
  intros Hfit Hok Hsep Hk Hwf Hout Hsmall Hrest Hv.
  assert (Hup : isupper col = true).
  { simpl in Hwf. apply andb_prop in Hwf as [Hwf _].
    now apply andb_prop in Hwf as [Hup _]. }
  rewrite (parse_after_scan _ _ Hv). unfold tokens_text.
  rewrite <- app_assoc. simpl app.
  rewrite scan_spaces, scan_skip by reflexivity.
  rewrite scan_tokens_then; trivial.
  - rewrite scan_spaces.
    now rewrite scan_reference_outside.
  - now apply stops_reference_or_blank.
Qed.

Lemma scan_stray (sh : grid) (c : ascii) (rest : cstring)
    (st : DoubleAssist) (ops : nat) :
  (isupper c = true
   /\ match rest with d :: _ => isdigit d = false | [] => True end)
  \/ (isspace c = true /\ c <> " "%char) ->
  scan sh (c :: rest) st ops = ScanFailed InvalidToken.
Proof.
  intros [[Hup Hrest]|[Hsp Hc]]; unfold scan; cbn [length scan_loop].
  - destruct (upper_is_plain c Hup) as (_ & Ha & _ & _ & _ & Hp & He & Hb).
    rewrite He, Hb, Hp, Ha. simpl.
    destruct rest as [|d r]; [reflexivity | now rewrite Hrest].
  - destruct (space_is_plain c Hsp) as (Hd & Ha & _ & Hdot & Hp & He).
    apply is_char_neq in Hc. rewrite He, Hc, Hp, Ha, Hd, Hdot. reflexivity.
Qed.

(** X16: take a text that passes the grammar check and starts with an
    equals sign, plus signs and operands that name cells of the sheet, two
    operands in a row having a blank between them.  A white-space
    character other than a blank that follows them makes the evaluation
    fail with InvalidToken, whatever the text goes on with, and so does an
    uppercase letter with no digit behind it; when the letter comes
    directly behind an operand, with no blank between them, it is not E or
    X, which [strtod] can take for a part of the number before it.  The
    sheet has at most 2^31 rows. *)
Theorem stray_character_is_refused (sh : grid) (lead : nat)
    (toks : list spaced) (k : nat) (c : ascii) (rest : cstring) :
  (Z.of_nat NUM_ROWS <= 2 ^ 31)%Z ->
  forallb token_ok toks = true -> separated toks = true ->
  (isupper c = true
   /\ match rest with d :: _ => isdigit d = false | [] => True end
   /\ (ends_with_operand toks = true ->
       0 < k \/ (c <> "E"%char /\ c <> "X"%char)))
  \/ (isspace c = true /\ c <> " "%char) ->
  is_valid_formula (tokens_text lead toks ++ spaces k ++ c :: rest) = true ->
  parse_and_calculate_formula sh
    (tokens_text lead toks ++ spaces k ++ c :: rest)
  = Failed InvalidToken.
Proof.
  intros Hfit Hok Hsep Hc Hv.
  rewrite (parse_after_scan _ _ Hv). unfold tokens_text.
  rewrite <- app_assoc. simpl app.
  rewrite scan_spaces, scan_skip by reflexivity.
  rewrite scan_tokens_then; trivial.
  - rewrite scan_spaces. rewrite scan_stray; [reflexivity | tauto].
  - intros Hend. destruct Hc as [(Hup & _ & Hk)|[Hsp _]].
    + now apply (stops_reference_or_blank toks).
    + destruct k; [now apply stops_space | now apply stops_blanks; lia].
Qed.

End Evaluation.

Section Strings.

Context {P : Platform}.

(** ** The strings on the heap *)

Lemma run_bind {A B : Type} (m : Heap.stmt A) (k : A -> Heap.stmt B)
    (w w1 : Heap.world) (a : A) :
  m w = Heap.Returns a w1 -> Heap.bind m k w = k a w1.
Proof. intros H. unfold Heap.bind. now rewrite H. Qed.

Lemma bind_assoc {A B C : Type} (m : Heap.stmt A) (k1 : A -> Heap.stmt B)
    (k2 : B -> Heap.stmt C) (w : Heap.world) :
  Heap.bind (Heap.bind m k1) k2 w
  = Heap.bind m (fun a => Heap.bind (k1 a) k2) w.
Proof. unfold Heap.bind. now destruct (m w). Qed.

Lemma read_run (p : Heap.pointer) (w : Heap.world) (s : cstring) :
  p <> Heap.NULL -> Heap.blocks (Heap.heap w) p = Some s ->
  Heap.read p w = Heap.Returns s w.
Proof.
  intros Hp Hs. unfold Heap.read, Heap.deref.
  apply Nat.eqb_neq in Hp. now rewrite Hp, Hs.
Qed.

Lemma free_run (p : Heap.pointer) (w : Heap.world) :
  Heap.blocks (Heap.heap w) Heap.NULL = None ->
  p = Heap.NULL \/ Heap.blocks (Heap.heap w) p <> None ->
  exists w',
    Heap.free p w = Heap.Returns tt w'
    /\ becomes w' (Heap.sheet w) (Heap.display w)
         (fun q => if q =? p then None else Heap.blocks (Heap.heap w) q)
         (Heap.fresh (Heap.heap w)).
Proof.
  intros H0 Hp. unfold Heap.free.
  destruct (p =? Heap.NULL) eqn:E.
  - exists w. split; [reflexivity|]. apply Nat.eqb_eq in E. subst p.
    repeat split; trivial. intros q.
    destruct (q =? Heap.NULL) eqn:Eq; [|reflexivity].
    apply Nat.eqb_eq in Eq. now subst q.
  - apply Nat.eqb_neq in E. destruct Hp as [Hp|Hp]; [contradiction|].
    destruct (Heap.blocks (Heap.heap w) p); [|contradiction].
    eexists. split; [reflexivity|]. repeat split.
Qed.

Lemma allocate_run (content : cstring) (w : Heap.world) :
  exists w',
    Heap.allocate content w = Heap.Returns (Heap.fresh (Heap.heap w)) w'
    /\ becomes w' (Heap.sheet w) (Heap.display w)
         (fun q => if q =? Heap.fresh (Heap.heap w) then Some content
                   else Heap.blocks (Heap.heap w) q)
         (S (Heap.fresh (Heap.heap w))).
Proof. eexists. split; [reflexivity|]. repeat split. Qed.

Lemma assign_run (row col : nat) (c : Heap.cell) (w : Heap.world) :
  exists w',
    Heap.assign row col c w = Heap.Returns tt w'
    /\ Heap.heap w' = Heap.heap w
    /\ Heap.display w' = Heap.display w
    /\ Heap.sheet w' row col = c
    /\ forall i j, (i, j) <> (row, col) -> Heap.sheet w' i j = Heap.sheet w i j.
Proof.
  eexists. split; [reflexivity|]. simpl. repeat split.
  - now rewrite !Nat.eqb_refl.
  - intros i j N. destruct (i =? row) eqn:Ei; [|reflexivity].
    destruct (j =? col) eqn:Ej; [|reflexivity].
    apply Nat.eqb_eq in Ei, Ej. subst. contradiction.
Qed.

Lemma off_cell (row col i j : nat) :
  (i, j) <> (row, col) -> (i =? row) && (j =? col) = false.
Proof.
  intros N. destruct (i =? row) eqn:Ei; [|reflexivity].
  destruct (j =? col) eqn:Ej; [|reflexivity].
  apply Nat.eqb_eq in Ei, Ej. subst. contradiction.
Qed.

Lemma set_type_run (row col : nat) (t : CELL_TYPE) (w : Heap.world) :
  Heap.set_type row col t w
  = Heap.Returns tt
      (Heap.mkstate
         (fun i j =>
            if (i =? row) && (j =? col)
            then Heap.mkslot t (Heap.numVal (Heap.sheet w row col))
                   (Heap.strVal (Heap.sheet w row col))
            else Heap.sheet w i j)
         (Heap.display w) (Heap.heap w)).
Proof. reflexivity. Qed.

Lemma set_numVal_run (row col : nat) (v : double) (w : Heap.world) :
  Heap.set_numVal row col v w
  = Heap.Returns tt
      (Heap.mkstate
         (fun i j =>
            if (i =? row) && (j =? col)
            then Heap.mkslot (Heap.type (Heap.sheet w row col)) v
                   (Heap.strVal (Heap.sheet w row col))
            else Heap.sheet w i j)
         (Heap.display w) (Heap.heap w)).
Proof. reflexivity. Qed.

Lemma set_strVal_run (row col : nat) (p : Heap.pointer) (w : Heap.world) :
  Heap.set_strVal row col p w
  = Heap.Returns tt
      (Heap.mkstate
         (fun i j =>
            if (i =? row) && (j =? col)
            then Heap.mkslot (Heap.type (Heap.sheet w row col))
                   (Heap.numVal (Heap.sheet w row col)) p
            else Heap.sheet w i j)
         (Heap.display w) (Heap.heap w)).
Proof. reflexivity. Qed.

Lemma get_cell_run (row col : nat) (w : Heap.world) :
  Heap.get_cell row col w = Heap.Returns (Heap.sheet w row col) w.
Proof. reflexivity. Qed.

Lemma strdup_run (p : Heap.pointer) (w : Heap.world) (s : cstring) :
  p <> Heap.NULL -> Heap.blocks (Heap.heap w) p = Some s ->
  Heap.strdup p w
  = Heap.Returns (Heap.fresh (Heap.heap w))
      (Heap.mkstate (Heap.sheet w) (Heap.display w)
         (Heap.mkmemory
            (fun q => if q =? Heap.fresh (Heap.heap w) then Some s
                      else Heap.blocks (Heap.heap w) q)
            (S (Heap.fresh (Heap.heap w))))).
Proof.
  intros Hp Hs. unfold Heap.strdup.
  now rewrite (run_bind _ _ _ _ _ (read_run p w s Hp Hs)).
Qed.

Lemma parse_run (formula : Heap.pointer) (w : Heap.world) (s : cstring) :
  formula <> Heap.NULL -> Heap.blocks (Heap.heap w) formula = Some s ->
  Heap.parse_and_calculate_formula formula w
  = match parse_and_calculate_formula (Heap.view w) s with
    | Done result => Heap.Returns (Some result) w
    | Failed _ => Heap.Returns None w
    | NoReturn => Heap.Exits
    end.
Proof.
  intros Hp Hs. unfold Heap.parse_and_calculate_formula.
  now rewrite (run_bind _ _ _ _ _ (read_run formula w s Hp Hs)).
Qed.

Lemma update_cell_display_run (row col : nat) (p : Heap.pointer)
    (w : Heap.world) (s : cstring) :
  p <> Heap.NULL -> Heap.blocks (Heap.heap w) p = Some s ->
  Heap.update_cell_display row col p w
  = Heap.Returns tt
      (Heap.mkstate (Heap.sheet w) (Heap.display w ++ [notify row col s])
         (Heap.heap w)).
Proof.
  intros Hp Hs. unfold Heap.update_cell_display.
  now rewrite (run_bind _ _ _ _ _ (read_run p w s Hp Hs)).
Qed.

Ltac step H := cbv beta; rewrite (run_bind _ _ _ _ _ H); cbv beta.

(** What the three functions that fill a cell do to the sheet and to the
    heap. *)
Lemma set_num_value_run (row col : nat) (text : Heap.pointer)
    (s : cstring) (w : Heap.world) :
  let old := Heap.strVal (Heap.sheet w row col) in
  Heap.blocks (Heap.heap w) Heap.NULL = None ->
  old = Heap.NULL \/ Heap.blocks (Heap.heap w) old <> None ->
  text <> Heap.NULL -> text <> old ->
  Heap.blocks (Heap.heap w) text = Some s ->
  exists w',
    Heap.set_num_value row col text w = Heap.Returns tt w'
    /\ Heap.display w' = Heap.display w
    /\ Heap.fresh (Heap.heap w') = Heap.fresh (Heap.heap w)
    /\ (forall q, Heap.blocks (Heap.heap w') q
                  = if q =? old then None else Heap.blocks (Heap.heap w) q)
    /\ Heap.sheet w' row col = Heap.mkslot num (fst (strtod s)) Heap.NULL
    /\ (forall i j, (i, j) <> (row, col) ->
                    Heap.sheet w' i j = Heap.sheet w i j).
Proof.
  intros old H0 Hold Htext Hne Hs.
  destruct (free_run old w H0 Hold) as (w1 & E1 & S1 & D1 & B1 & F1).
  unfold Heap.set_num_value.
  step (get_cell_run row col w). fold old. step E1.
  step (set_type_run row col num w1).
  match goal with |- context [Heap.bind _ _ ?x] => set (w2 := x) end.
  assert (Hs2 : Heap.blocks (Heap.heap w2) text = Some s).
  { unfold w2. simpl. rewrite B1.
    apply Nat.eqb_neq in Hne. now rewrite Hne. }
  step (read_run text w2 s Htext Hs2).
  step (set_numVal_run row col (fst (strtod s)) w2).
  rewrite set_strVal_run.
  eexists. split; [reflexivity|]. simpl.
  repeat split; trivial.
  - now rewrite !Nat.eqb_refl.
  - intros i j N. rewrite !(off_cell row col i j N). apply S1.
Qed.

Lemma set_string_value_run (row col : nat) (text : Heap.pointer)
    (s : cstring) (w : Heap.world) :
  let old := Heap.strVal (Heap.sheet w row col) in
  Heap.blocks (Heap.heap w) Heap.NULL = None ->
  old = Heap.NULL \/ Heap.blocks (Heap.heap w) old <> None ->
  text <> Heap.NULL -> text <> old ->
  Heap.blocks (Heap.heap w) text = Some s ->
  exists w',
    Heap.set_string_value row col text w = Heap.Returns tt w'
    /\ Heap.display w' = Heap.display w
    /\ Heap.fresh (Heap.heap w') = S (Heap.fresh (Heap.heap w))
    /\ (forall q, Heap.blocks (Heap.heap w') q
                  = if q =? Heap.fresh (Heap.heap w) then Some s
                    else if q =? old then None
                    else Heap.blocks (Heap.heap w) q)
    /\ Heap.sheet w' row col
       = Heap.mkslot str dzero (Heap.fresh (Heap.heap w))
    /\ (forall i j, (i, j) <> (row, col) ->
                    Heap.sheet w' i j = Heap.sheet w i j).
Proof.
  intros old H0 Hold Htext Hne Hs.
  destruct (free_run old w H0 Hold) as (w1 & E1 & S1 & D1 & B1 & F1).
  unfold Heap.set_string_value.
  step (get_cell_run row col w). fold old. step E1.
  step (set_type_run row col str w1).
  match goal with |- context [Heap.bind _ _ ?x] => set (w2 := x) end.
  step (set_numVal_run row col dzero w2).
  match goal with |- context [Heap.bind _ _ ?x] => set (w3 := x) end.
  assert (Hs3 : Heap.blocks (Heap.heap w3) text = Some s).
  { unfold w3, w2. simpl. rewrite B1.
    apply Nat.eqb_neq in Hne. now rewrite Hne. }
  step (strdup_run text w3 s Htext Hs3). rewrite set_strVal_run.
  eexists. split; [reflexivity|]. simpl.
  rewrite F1. repeat split; trivial.
  - intros q. now rewrite B1.
  - now rewrite !Nat.eqb_refl.
  - intros i j N. rewrite !(off_cell row col i j N). apply S1.
Qed.

Lemma initialize_cell_run (row col : nat) (w : Heap.world) :
  let old := Heap.strVal (Heap.sheet w row col) in
  Heap.blocks (Heap.heap w) Heap.NULL = None ->
  old = Heap.NULL \/ Heap.blocks (Heap.heap w) old <> None ->
  Heap.type (Heap.sheet w row col) = none ->
  exists w',
    Heap.initialize_cell row col w = Heap.Returns tt w'
    /\ Heap.display w' = Heap.display w
    /\ Heap.fresh (Heap.heap w') = S (Heap.fresh (Heap.heap w))
    /\ (forall q, Heap.blocks (Heap.heap w') q
                  = if q =? Heap.fresh (Heap.heap w) then Some []
                    else if q =? old then None
                    else Heap.blocks (Heap.heap w) q)
    /\ Heap.sheet w' row col
       = Heap.mkslot num dzero (Heap.fresh (Heap.heap w))
    /\ (forall i j, (i, j) <> (row, col) ->
                    Heap.sheet w' i j = Heap.sheet w i j).
Proof.
  intros old H0 Hold Ht.
  destruct (free_run old w H0 Hold) as (w1 & E1 & S1 & D1 & B1 & F1).
  unfold Heap.initialize_cell.
  step (get_cell_run row col w). rewrite Ht. fold old. step E1.
  destruct (allocate_run [] w1) as (w2 & E2 & S2 & D2 & B2 & F2).
  step E2.
  destruct (assign_run row col (Heap.mkslot num dzero (Heap.fresh (Heap.heap w1)))
              w2) as (w3 & E3 & H3 & D3 & C3 & O3).
  rewrite E3. exists w3. split; [reflexivity|].
  rewrite H3, D3, D2, D1, F2, F1.
  split; [reflexivity|]. split; [reflexivity|]. split; [|split].
  - intros q. now rewrite B2, F1, B1.
  - now rewrite C3, F1.
  - intros i j N. now rewrite (O3 i j N), S2, S1.
Qed.

(** One statement of a sequence has run. *)
Ltac run H :=
  cbv beta iota; rewrite ?bind_assoc; rewrite (run_bind _ _ _ _ _ H);
  cbv beta iota.

Lemma kept_refl (wa : world) (w : Heap.world) :
  similar wa w -> kept w (Returns wa) (Heap.Returns tt w).
Proof. intros H. simpl. auto. Qed.

Lemma update_cell_value_kept (i j : nat) (wa : world) (w : Heap.world) :
  similar wa w ->
  kept w (update_cell_value i j wa) (Heap.update_cell_value i j w).
Proof.
  intros [Hs Hd]. pose proof (Hs i j) as Hc.
  unfold update_cell_value, Heap.update_cell_value.
  rewrite (run_bind _ _ _ _ _ (get_cell_run i j w)).
  rewrite Hc. unfold Heap.view at 1 2. cbv beta zeta. simpl type.
  destruct (Heap.type (Heap.sheet w i j)) eqn:Ht;
    try (apply kept_refl; now split).
  simpl strVal. unfold Heap.parse_and_calculate_formula.
  unfold Heap.bind at 1 2. unfold Heap.read.
  destruct (Heap.deref (Heap.heap w) (Heap.strVal (Heap.sheet w i j)))
    as [f|] eqn:Hf; [|exact I].
  rewrite (parse_ext (sheet wa) (Heap.view w) f Hs).
  destruct (parse_and_calculate_formula (Heap.view w) f) as [r|e|];
    [| |exact I].
  - rewrite (run_bind _ _ _ _ _ (set_numVal_run i j r w)).
    match goal with |- context [Heap.bind _ _ ?x] => set (w2 := x) end.
    rewrite (run_bind _ _ _ _ _ (set_type_run i j num w2)).
    match goal with |- context [Heap.bind _ _ ?x] => set (w3 := x) end.
    rewrite (run_bind _ _ _ _ _ (get_cell_run i j w3)).
    unfold Heap.update_cell_display, Heap.bind, Heap.read.
    assert (Hp : Heap.strVal (Heap.sheet w3 i j)
                 = Heap.strVal (Heap.sheet w i j)).
    { unfold w3, w2. simpl. now rewrite !Nat.eqb_refl. }
    rewrite Hp. change (Heap.heap w3) with (Heap.heap w). rewrite Hf.
    unfold update_cell_display, Heap.show. simpl.
    split; [|split; [reflexivity|]].
    + split; simpl; [|now rewrite Hd].
      intros a b. unfold Heap.view, store. simpl.
      destruct ((a =? i) && (b =? j)) eqn:E.
      * apply andb_prop in E as [Ea Eb]. apply Nat.eqb_eq in Ea, Eb.
        subst a b. rewrite !Nat.eqb_refl. simpl. now rewrite Hf.
      * apply Hs.
    + intros a b. destruct ((a =? i) && (b =? j)) eqn:E; [|reflexivity].
      apply andb_prop in E as [Ea Eb]. apply Nat.eqb_eq in Ea, Eb.
      subst a b. now rewrite !Nat.eqb_refl.
  - unfold update_cell_display, Heap.show. simpl.
    split; [|split; [reflexivity|reflexivity]].
    split; simpl; [exact Hs | now rewrite Hd].
Qed.

Lemma for_each_kept {A : Type} (xs : list A)
    (body : A -> world -> outcome) (hbody : A -> Heap.stmt unit) :
  (forall x wa w, similar wa w -> kept w (body x wa) (hbody x w)) ->
  forall wa w, similar wa w ->
    kept w (for_each xs body wa) (Heap.for_each xs hbody w).
Proof.
  intros Hbody. induction xs as [|x xs IH]; intros wa w Hsim.
  - now apply kept_refl.
  - simpl. unfold Heap.bind. specialize (Hbody x wa w Hsim).
    destruct (body x wa) as [wa1| |]; destruct (hbody x w) as [[] w1| |];
      simpl in Hbody; try contradiction; simpl; trivial.
    destruct Hbody as (Hs1 & Hh1 & Hp1).
    specialize (IH wa1 w1 Hs1).
    destruct (for_each xs body wa1) as [wa2| |];
      destruct (Heap.for_each xs hbody w1) as [[] w2| |];
      simpl in IH; try contradiction; simpl; trivial.
    destruct IH as (Hs2 & Hh2 & Hp2).
    split; [exact Hs2|]. split; [congruence|].
    intros a b. now rewrite Hp2, Hp1.
Qed.

Lemma update_all_kept (row col : nat) (wa : world) (w : Heap.world) :
  similar wa w ->
  kept w (update_all row col wa) (Heap.update_all row col w).
Proof.
  unfold update_all, Heap.update_all. revert wa w.
  apply for_each_kept. intros i. apply for_each_kept. intros j wa w Hsim.
  destruct (negb ((i =? row) && (j =? col))).
  - now apply update_cell_value_kept.
  - now apply kept_refl.
Qed.

(** The end of a write on the heap: the pass, the notification and the
    release of the text shown. *)
Lemma write_tail (row col : nat) (wa1 w1a : world) (wd : Heap.world)
    (text : Heap.pointer) (shown : cstring) :
  similar wa1 wd ->
  update_all row col wa1 = Returns w1a ->
  text <> Heap.NULL -> Heap.blocks (Heap.heap wd) text = Some shown ->
  (type (sheet wa1 row col) = eqn \/ type (sheet wa1 row col) = str ->
   unshared wd text) ->
  exists w',
    Heap.bind (Heap.update_all row col)
      (fun _ =>
         Heap.bind (Heap.update_cell_display row col text)
           (fun _ =>
              Heap.bind (Heap.get_cell row col)
                (fun c =>
                   match Heap.type c with
                   | eqn | str => Heap.free text
                   | _ => Heap.ret tt
                   end))) wd
    = Heap.Returns tt w'
    /\ similar (mkworld (sheet w1a) (display w1a ++ [notify row col shown])) w'
    /\ (forall a b,
          Heap.strVal (Heap.sheet w' a b) = Heap.strVal (Heap.sheet wd a b))
    /\ Heap.fresh (Heap.heap w') = Heap.fresh (Heap.heap wd)
    /\ (forall q,
          Heap.blocks (Heap.heap w') q
          = match type (sheet wa1 row col) with
            | eqn | str =>
                if q =? text then None else Heap.blocks (Heap.heap wd) q
            | _ => Heap.blocks (Heap.heap wd) q
            end).
Proof.
  intros Hsim Hu Hnull Hshown Hun.
  pose proof (update_all_kept row col wa1 wd Hsim) as K. rewrite Hu in K.
  destruct (Heap.update_all row col wd) as [[] w1| |] eqn:Hp;
    simpl in K; try contradiction.
  destruct K as ([Hs1 Hd1] & Hh1 & Hp1).
  step Hp.
  assert (Hshown1 : Heap.blocks (Heap.heap w1) text = Some shown)
    by now rewrite Hh1.
  step (update_cell_display_run row col text w1 shown Hnull Hshown1).
  match goal with |- context [Heap.bind _ _ ?x] => set (w2 := x) end.
  step (get_cell_run row col w2).
  assert (Ht : Heap.type (Heap.sheet w2 row col) = type (sheet wa1 row col)).
  { change (Heap.sheet w2) with (Heap.sheet w1).
    pose proof (Hs1 row col) as E. unfold Heap.view in E.
    apply (f_equal type) in E. simpl in E. rewrite <- E.
    f_equal. apply (pass_frame _ _ _ _ _ row col
                      (update_all_effect _ _ _ _ Hu)).
    right. now left. }
  rewrite Ht.
  assert (Hfree : type (sheet wa1 row col) = eqn
                  \/ type (sheet wa1 row col) = str ->
            exists w',
              Heap.free text w2 = Heap.Returns tt w'
              /\ similar
                   (mkworld (sheet w1a) (display w1a ++ [notify row col shown]))
                   w'
              /\ (forall a b, Heap.strVal (Heap.sheet w' a b)
                              = Heap.strVal (Heap.sheet wd a b))
              /\ Heap.fresh (Heap.heap w') = Heap.fresh (Heap.heap wd)
              /\ (forall q, Heap.blocks (Heap.heap w') q
                            = if q =? text then None
                              else Heap.blocks (Heap.heap wd) q)).
  { intros Hty. specialize (Hun Hty).
    unfold Heap.free. apply Nat.eqb_neq in Hnull. rewrite Hnull.
    change (Heap.heap w2) with (Heap.heap w1). rewrite Hshown1.
    eexists. split; [reflexivity|].
    split; [split|split; [|split]]; simpl.
    - intros a b. rewrite (Hs1 a b). unfold Heap.view, Heap.deref. simpl.
      destruct (Heap.strVal (Heap.sheet w1 a b) =? Heap.NULL); [reflexivity|].
      destruct (Heap.strVal (Heap.sheet w1 a b) =? text) eqn:E;
        [|reflexivity].
      apply Nat.eqb_eq in E. rewrite Hp1 in E. now apply Hun in E.
    - now rewrite Hd1.
    - exact Hp1.
    - now rewrite Hh1.
    - intros q. now rewrite Hh1. }
  assert (Hkeep : exists w',
              Heap.ret tt w2 = Heap.Returns tt w'
              /\ similar
                   (mkworld (sheet w1a) (display w1a ++ [notify row col shown]))
                   w'
              /\ (forall a b, Heap.strVal (Heap.sheet w' a b)
                              = Heap.strVal (Heap.sheet wd a b))
              /\ Heap.fresh (Heap.heap w') = Heap.fresh (Heap.heap wd)
              /\ (forall q, Heap.blocks (Heap.heap w') q
                            = Heap.blocks (Heap.heap wd) q)).
  { exists w2. split; [reflexivity|]. unfold w2.
    split; [split|split; [|split]]; simpl.
    - exact Hs1.
    - now rewrite Hd1.
    - exact Hp1.
    - now rewrite Hh1.
    - intros q. now rewrite Hh1. }
  destruct (type (sheet wa1 row col)); auto.
Qed.

Lemma owned_text (w : Heap.world) (text : Heap.pointer) (s : cstring) :
  owned w -> Heap.blocks (Heap.heap w) text = Some s ->
  text <> Heap.NULL /\ text < Heap.fresh (Heap.heap w).
Proof.
  intros (_ & Habove & H0 & _) Hs. split.
  - intros ->. congruence.
  - destruct (Nat.lt_ge_cases text (Heap.fresh (Heap.heap w))) as [H|H];
      [exact H|]. rewrite (Habove text H) in Hs. discriminate.
Qed.

Lemma owned_pointer (w : Heap.world) (i j : nat) :
  owned w ->
  Heap.strVal (Heap.sheet w i j) = Heap.NULL
  \/ (Heap.blocks (Heap.heap w) (Heap.strVal (Heap.sheet w i j)) <> None
      /\ Heap.strVal (Heap.sheet w i j) <> Heap.NULL
      /\ Heap.strVal (Heap.sheet w i j) < Heap.fresh (Heap.heap w)).
Proof.
  intros (_ & Habove & H0 & Hlive & _).
  destruct (Nat.eq_dec (Heap.strVal (Heap.sheet w i j)) Heap.NULL) as [E|N];
    [now left|right].
  specialize (Hlive i j N). repeat split; trivial.
  destruct (Nat.lt_ge_cases (Heap.strVal (Heap.sheet w i j))
              (Heap.fresh (Heap.heap w))) as [H|H]; [exact H|].
  now rewrite (Habove _ H) in Hlive.
Qed.

Lemma owned_after_write (w w' : Heap.world) (row col : nat)
    (text : Heap.pointer) (s : cstring) :
  owned w -> unshared w text -> Heap.blocks (Heap.heap w) text = Some s ->
  heap_after_write w w' row col text s -> owned w'.
Proof.
  intros Ho Hun Hs (Hoff & Hfr & Hcase).
  destruct (owned_text w text s Ho Hs) as [Htn Htf].
  pose proof Ho as (Hf0 & Habove & H0 & Hlive & Hshare).
  assert (Hptr : forall i j, (i, j) <> (row, col) ->
            let p := Heap.strVal (Heap.sheet w' i j) in
            p = Heap.NULL
            \/ (p <> Heap.NULL /\ p < Heap.fresh (Heap.heap w)
                /\ p <> text /\ p <> Heap.strVal (Heap.sheet w row col)
                /\ Heap.blocks (Heap.heap w) p <> None)).
  { intros i j N p. unfold p. rewrite (Hoff i j N).
    destruct (owned_pointer w i j Ho) as [E|(Hl & Hn & Hlt)]; [now left|].
    right. split; [exact Hn|]. split; [exact Hlt|]. split; [apply Hun|].
    split; [|exact Hl].
    intros E. apply Hshare in E; [|exact Hn]. contradiction. }
  destruct (is_valid_num (Some s)).
  - destruct Hcase as [Hnew Hbl]. unfold owned.
    split; [lia|]. split; [|split; [|split]].
    + intros q Hq. rewrite Hbl.
      destruct (Nat.eqb_spec q (Heap.strVal (Heap.sheet w row col)));
        [reflexivity|]. apply Habove. lia.
    + rewrite Hbl. now destruct (Heap.NULL =? _).
    + intros i j Hn. destruct (pair_eq_dec (i, j) (row, col)) as [E|N].
      * inversion E; subst. contradiction.
      * destruct (Hptr i j N) as [E|(_ & _ & _ & Hne & Hl)];
          [contradiction|].
        rewrite Hbl. apply Nat.eqb_neq in Hne. now rewrite Hne.
    + intros i j a b Hn E.
      destruct (pair_eq_dec (i, j) (row, col)) as [E1|N1];
        [inversion E1; subst; contradiction|].
      destruct (pair_eq_dec (a, b) (row, col)) as [E2|N2];
        [inversion E2; subst; rewrite Hnew in E; contradiction|].
      rewrite (Hoff i j N1), (Hoff a b N2) in E.
      rewrite (Hoff i j N1) in Hn. now apply Hshare in E.
  - destruct Hcase as [Hnew Hbl]. unfold owned.
    split; [lia|]. split; [|split; [|split]].
    + intros q Hq. rewrite Hbl.
      destruct (Nat.eqb_spec q (Heap.strVal (Heap.sheet w' row col)));
        [lia|].
      destruct ((q =? Heap.strVal (Heap.sheet w row col)) || (q =? text));
        [reflexivity|]. apply Habove. lia.
    + rewrite Hbl.
      destruct (Nat.eqb_spec Heap.NULL (Heap.strVal (Heap.sheet w' row col)));
        [unfold Heap.NULL in *; lia|].
      now destruct ((Heap.NULL =? _) || (Heap.NULL =? _)).
    + intros i j Hn. destruct (pair_eq_dec (i, j) (row, col)) as [E|N].
      * inversion E; subst. rewrite Hbl, Nat.eqb_refl. discriminate.
      * destruct (Hptr i j N) as [E|(_ & Hlt & Hnt & Hne & Hl)];
          [contradiction|].
        rewrite Hbl.
        destruct (Nat.eqb_spec (Heap.strVal (Heap.sheet w' i j))
                    (Heap.strVal (Heap.sheet w' row col))); [lia|].
        apply Nat.eqb_neq in Hne, Hnt. now rewrite Hne, Hnt.
    + intros i j a b Hn E.
      destruct (pair_eq_dec (i, j) (row, col)) as [E1|N1];
        destruct (pair_eq_dec (a, b) (row, col)) as [E2|N2];
        try congruence.
      * inversion E1; subst.
        destruct (Hptr a b N2) as [X|(_ & Hlt & _)]; [congruence|lia].
      * inversion E2; subst.
        destruct (Hptr i j N1) as [X|(_ & Hlt & _)]; [congruence|lia].
      * rewrite (Hoff i j N1), (Hoff a b N2) in E.
        rewrite (Hoff i j N1) in Hn. now apply Hshare in E.
Qed.

(** The view of a cell whose pointer and block are as before. *)
Lemma view_off_cell (w wd : Heap.world) (i j : nat) :
  Heap.sheet wd i j = Heap.sheet w i j ->
  (Heap.strVal (Heap.sheet w i j) <> Heap.NULL ->
   Heap.blocks (Heap.heap wd) (Heap.strVal (Heap.sheet w i j))
   = Heap.blocks (Heap.heap w) (Heap.strVal (Heap.sheet w i j))) ->
  Heap.view wd i j = Heap.view w i j.
Proof.
  intros Hc Hb. unfold Heap.view, Heap.deref. rewrite Hc.
  destruct (Nat.eqb_spec (Heap.strVal (Heap.sheet w i j)) Heap.NULL);
    [reflexivity|]. now rewrite Hb.
Qed.

(** [set_string_value] on the heap, seen through [view]. *)
Lemma string_commit (wa : world) (w : Heap.world) (row col : nat)
    (text : Heap.pointer) (s : cstring) :
  similar wa w -> owned w -> unshared w text ->
  Heap.blocks (Heap.heap w) text = Some s ->
  let old := Heap.strVal (Heap.sheet w row col) in
  let new := Heap.fresh (Heap.heap w) in
  exists wc,
    Heap.set_string_value row col text w = Heap.Returns tt wc
    /\ Heap.display wc = Heap.display w
    /\ Heap.fresh (Heap.heap wc) = S new
    /\ (forall q, Heap.blocks (Heap.heap wc) q
                  = if q =? new then Some s
                    else if q =? old then None
                    else Heap.blocks (Heap.heap w) q)
    /\ Heap.sheet wc row col = Heap.mkslot str dzero new
    /\ (forall i j, (i, j) <> (row, col) ->
          Heap.sheet wc i j = Heap.sheet w i j)
    /\ Heap.blocks (Heap.heap wc) text = Some s
    /\ (forall i j,
          Heap.view wc i j = set_string_value (sheet wa) row col s i j).
Proof.
  intros Hsim Ho Hun Hs old new.
  destruct (owned_text w text s Ho Hs) as [Htn Htf].
  pose proof Ho as (Hf0 & Habove & H0 & Hlive & Hshare).
  pose proof Hsim as [Hcells Hdisp].
  assert (Hold : old = Heap.NULL \/ Heap.blocks (Heap.heap w) old <> None).
  { destruct (Nat.eq_dec old Heap.NULL) as [E|N]; [now left|right].
    now apply Hlive. }
  assert (Hto : text <> old) by (intros E; exact (Hun row col (eq_sym E))).
  destruct (set_string_value_run row col text s w H0 Hold Htn Hto Hs)
    as (wc & Ec & Dc & Fc & Bc & Cc & Oc).
  fold old new in Bc, Cc, Fc.
  assert (Hsc : Heap.blocks (Heap.heap wc) text = Some s).
  { rewrite Bc. destruct (Nat.eqb_spec text new); [unfold new in *; lia|].
    apply Nat.eqb_neq in Hto. now rewrite Hto. }
  exists wc. repeat (split; [assumption|]).
  intros i j. unfold set_string_value.
  destruct (pair_eq_dec (i, j) (row, col)) as [E|N].
  - inversion E; subst i j. rewrite store_same. unfold Heap.view.
    rewrite Cc. simpl. unfold Heap.deref. rewrite Bc.
    destruct (Nat.eqb_spec new Heap.NULL);
      [unfold Heap.NULL, new in *; lia|]. now rewrite Nat.eqb_refl.
  - rewrite (store_other _ _ _ _ _ _ N), Hcells.
    apply view_off_cell; [now apply Oc|]. intros Hp. rewrite Bc.
    destruct (owned_pointer w i j Ho) as [X|(_ & _ & Hpf)]; [contradiction|].
    destruct (Nat.eqb_spec (Heap.strVal (Heap.sheet w i j)) new);
      [unfold new in *; lia|].
    destruct (Nat.eqb_spec (Heap.strVal (Heap.sheet w i j)) old) as [E|];
      [|reflexivity].
    apply Hshare in E; [contradiction | exact Hp].
Qed.

Lemma write_initialised (wa wa' : world) (w : Heap.world) (row col : nat)
    (text : Heap.pointer) (s : cstring) :
  similar wa w -> owned w -> unshared w text ->
  Heap.blocks (Heap.heap w) text = Some s -> s <> [] ->
  Heap.type (Heap.sheet w row col) <> none ->
  set_cell_value row col (Some s) wa = Returns wa' ->
  exists w',
    Heap.set_cell_value row col text w = Heap.Returns tt w'
    /\ similar wa' w'
    /\ heap_after_write w w' row col text s.
Proof.
  intros Hsim Ho Hun Hs Hne Hty H.
  destruct (owned_text w text s Ho Hs) as [Htn Htf].
  pose proof Ho as (Hf0 & Habove & H0 & Hlive & Hshare).
  pose proof Hsim as [Hcells Hdisp].
  set (old := Heap.strVal (Heap.sheet w row col)).
  assert (Hold : old = Heap.NULL \/ Heap.blocks (Heap.heap w) old <> None).
  { destruct (Nat.eq_dec old Heap.NULL) as [E|N]; [now left|right].
    now apply Hlive. }
  assert (Hto : text <> old) by (intros E; exact (Hun row col (eq_sym E))).
  assert (Holdf : old < Heap.fresh (Heap.heap w)).
  { destruct (owned_pointer w row col Ho) as [E|(_ & _ & Hl)];
      [unfold old; rewrite E; exact Hf0 | exact Hl]. }
  (* the other cells *)
  assert (Hother : forall i j, (i, j) <> (row, col) ->
            let p := Heap.strVal (Heap.sheet w i j) in
            p <> Heap.NULL ->
            p <> old /\ p <> text /\ p < Heap.fresh (Heap.heap w)).
  { intros i j N p Hp. split; [|split].
    - intros E. apply Hshare in E; [contradiction | exact Hp].
    - apply Hun.
    - destruct (owned_pointer w i j Ho) as [E|(_ & _ & Hl)];
        [contradiction | exact Hl]. }
  apply write_parts in H; [|exact Hne].
  destruct H as (Hrc & sh1 & c & shown & w1a & Hcm & Hoff & Hat & Hu & ->).
  unfold Heap.set_cell_value.
  apply Nat.eqb_neq in Htn as Htn'. rewrite Htn'.
  run (read_run text w s Htn Hs).
  destruct s as [|c0 t0]; [contradiction|]. cbv iota.
  set (s := c0 :: t0) in *.
  rewrite Hrc. change (negb true) with false. cbv iota.
  run (get_cell_run row col w).
  assert (Hinit : match Heap.type (Heap.sheet w row col) with
                  | none => Heap.initialize_cell row col
                  | _ => Heap.ret tt
                  end w = Heap.Returns tt w).
  { destruct (Heap.type (Heap.sheet w row col)); trivial. contradiction. }
  run Hinit. run (read_run text w s Htn Hs).
  unfold committed in Hcm. unfold heap_after_write. fold old.
  destruct (is_valid_num (Some s)) eqn:Hnum.
  - (* a plain number *)
    injection Hcm as <- <-.
    destruct (set_num_value_run row col text s w H0 Hold Htn Hto Hs)
      as (wc & Ec & Dc & Fc & Bc & Cc & Oc).
    fold old in Bc.
    run Ec. run (eq_refl : Heap.ret text wc = Heap.Returns text wc).
    destruct (write_tail row col (mkworld sh1 (display wa)) w1a wc text s)
      as (w' & Ew & Sw & Pw & Fw & Bw); trivial.
    + split; simpl; [|now rewrite Dc].
      intros i j. destruct (pair_eq_dec (i, j) (row, col)) as [E|N].
      * inversion E; subst i j. rewrite Hat. unfold Heap.view.
        now rewrite Cc.
      * rewrite (Hoff i j N), Hcells. symmetry.
        apply view_off_cell; [now apply Oc|]. intros Hp. rewrite Bc.
        destruct (Hother i j N Hp) as (Hpo & _).
        apply Nat.eqb_neq in Hpo. now rewrite Hpo.
    + rewrite Bc. apply Nat.eqb_neq in Hto. now rewrite Hto.
    + simpl. rewrite Hat. simpl. intros [X|X]; discriminate.
    + exists w'. split; [exact Ew|]. split; [exact Sw|].
      split; [|split; [|split]].
      * intros i j N. now rewrite Pw, (Oc i j N).
      * rewrite Fw, Fc. apply Nat.le_refl.
      * now rewrite Pw, Cc.
      * intros q. rewrite Bw. simpl. rewrite Hat. simpl. apply Bc.
  - (* a string *)
    destruct (string_commit wa w row col text s Hsim Ho Hun Hs)
      as (wc & Ec & Dc & Fc & Bc & Cc & Oc & Hsc & Hvc).
    fold old in Bc. set (new := Heap.fresh (Heap.heap w)) in *.
    run Ec.
    run (read_run text wc s Htn Hsc).
    destruct (is_valid_formula s) eqn:Hf.
    + (* a formula *)
      pose proof (parse_run text wc s Htn Hsc) as Ep.
      rewrite (parse_ext (Heap.view wc) _ s Hvc) in Ep.
      destruct (parse_and_calculate_formula
                  (set_string_value (sheet wa) row col s) s) as [r|e|];
        [| |discriminate]; injection Hcm as <- <-.
      * (* it evaluates *)
        run Ep.
        run (set_type_run row col eqn wc).
        match goal with |- context [Heap.bind _ _ ?x] => set (we := x) end.
        destruct (allocate_run (snprintf_lg r) we)
          as (wf & Ef & Sf & Df & Bf & Ff).
        run Ef.
        change (Heap.fresh (Heap.heap we)) with (Heap.fresh (Heap.heap wc))
          in *.
        change (Heap.blocks (Heap.heap we)) with (Heap.blocks (Heap.heap wc))
          in *.
        change (Heap.display we) with (Heap.display wc) in *.
        rewrite Fc in *. set (tmp := S new) in *.
        assert (Htmp : tmp = S new) by reflexivity. clearbody tmp.
        assert (Htf' : Heap.blocks (Heap.heap wf) text <> None).
        { rewrite Bf. destruct (Nat.eqb_spec text tmp); [discriminate|].
          now rewrite Hsc. }
        assert (H0f : Heap.blocks (Heap.heap wf) Heap.NULL = None).
        { rewrite Bf, Bc. destruct (Nat.eqb_spec Heap.NULL tmp);
            [unfold Heap.NULL in *; lia|].
          destruct (Nat.eqb_spec Heap.NULL new);
            [unfold Heap.NULL in *; lia|].
          now destruct (Heap.NULL =? old). }
        destruct (free_run text wf H0f (or_intror Htf'))
          as (wg & Eg & Sg & Dg & Bg & Fg).
        run Eg. run (eq_refl : Heap.ret tmp wg = Heap.Returns tmp wg).
        assert (Hcg : forall i j, Heap.sheet wg i j = Heap.sheet we i j)
          by (intros i j; now rewrite Sg, Sf).
        destruct (write_tail row col (mkworld sh1 (display wa)) w1a wg tmp
                    (snprintf_lg r))
          as (w' & Ew & Sw & Pw & Fw & Bw); trivial.
        -- split; simpl; [|now rewrite Dg, Df, Dc].
           intros i j. destruct (pair_eq_dec (i, j) (row, col)) as [E|N].
           ++ inversion E; subst i j. rewrite Hat. unfold Heap.view.
              rewrite Hcg. unfold we. simpl. rewrite !Nat.eqb_refl. simpl.
              rewrite Cc. simpl. unfold Heap.deref. rewrite Bg, Bf, Bc.
              destruct (Nat.eqb_spec new Heap.NULL);
                [unfold Heap.NULL in *; lia|].
              destruct (Nat.eqb_spec new text); [lia|].
              destruct (Nat.eqb_spec new tmp); [lia|].
              now rewrite Nat.eqb_refl.
           ++ rewrite (Hoff i j N), Hcells. symmetry.
              assert (Hc : Heap.sheet wg i j = Heap.sheet w i j).
              { rewrite Hcg. unfold we. simpl.
                rewrite (off_cell row col i j N). now apply Oc. }
              apply view_off_cell; [exact Hc|]. intros Hp.
              rewrite Bg, Bf, Bc.
              destruct (Hother i j N Hp) as (Hpo & Hpt & Hpf).
              destruct (Nat.eqb_spec (Heap.strVal (Heap.sheet w i j)) text);
                [contradiction|].
              destruct (Nat.eqb_spec (Heap.strVal (Heap.sheet w i j)) tmp);
                [lia|].
              destruct (Nat.eqb_spec (Heap.strVal (Heap.sheet w i j)) new);
                [lia|].
              apply Nat.eqb_neq in Hpo. now rewrite Hpo.
        -- unfold Heap.NULL. lia.
        -- rewrite Bg, Bf. destruct (Nat.eqb_spec tmp text);
             [lia|]. now rewrite Nat.eqb_refl.
        -- intros _ i j. rewrite Hcg. unfold we. simpl.
           destruct (pair_eq_dec (i, j) (row, col)) as [E|N].
           ++ inversion E; subst i j. rewrite !Nat.eqb_refl. simpl.
              rewrite Cc. simpl. lia.
           ++ rewrite (off_cell row col i j N), (Oc i j N).
              destruct (owned_pointer w i j Ho) as [X|(_ & _ & X)];
                [rewrite X; unfold Heap.NULL; lia | lia].
        -- exists w'. split; [exact Ew|]. split; [exact Sw|].
           assert (Hnew : Heap.strVal (Heap.sheet w' row col) = new).
           { rewrite Pw, Hcg. unfold we. simpl. rewrite !Nat.eqb_refl.
             simpl. now rewrite Cc. }
           split; [|split; [|split]].
           ++ intros i j N. rewrite Pw, Hcg. unfold we. simpl.
              rewrite (off_cell row col i j N). now rewrite (Oc i j N).
           ++ rewrite Fw, Fg, Ff. lia.
           ++ rewrite Hnew, Fw, Fg, Ff. lia.
           ++ intros q. rewrite Bw, Hnew. cbn [sheet]. rewrite Hat.
              cbn [type]. rewrite Bg, Bf, Bc.
              destruct (Nat.eqb_spec q tmp) as [->|]; cbn [orb].
              ** destruct (Nat.eqb_spec tmp new); [lia|].
                 destruct (Nat.eqb_spec tmp old); [reflexivity|].
                 destruct (Nat.eqb_spec tmp text); cbn [orb]; [reflexivity|].
                 symmetry. apply Habove. lia.
              ** destruct (Nat.eqb_spec q text) as [->|]; cbn [orb].
                 --- destruct (Nat.eqb_spec text new); [lia|].
                     now rewrite orb_true_r.
                 --- destruct (Nat.eqb_spec q new); [reflexivity|].
                     now rewrite orb_false_r.
      * (* it fails *)
        run Ep.
        assert (H0c : Heap.blocks (Heap.heap wc) Heap.NULL = None).
        { rewrite Bc. destruct (Nat.eqb_spec Heap.NULL new);
            [unfold Heap.NULL in *; lia|].
          now destruct (Heap.NULL =? old). }
        assert (Htc : Heap.blocks (Heap.heap wc) text <> None)
          by now rewrite Hsc.
        destruct (free_run text wc H0c (or_intror Htc))
          as (wf & Ef & Sf & Df & Bf & Ff).
        run Ef.
        destruct (allocate_run ERROR wf) as (wg & Eg & Sg & Dg & Bg & Fg).
        rewrite Ff, Fc in *. set (tmp := S new) in *.
        assert (Htmp : tmp = S new) by reflexivity. clearbody tmp.
        assert (Hcg : forall i j, Heap.sheet wg i j = Heap.sheet wc i j)
          by (intros i j; now rewrite Sg, Sf).
        destruct (write_tail row col (mkworld sh1 (display wa)) w1a wg tmp
                    ERROR)
          as (w' & Ew & Sw & Pw & Fw & Bw); trivial.
        -- split; simpl; [|now rewrite Dg, Df, Dc].
           intros i j. destruct (pair_eq_dec (i, j) (row, col)) as [E|N].
           ++ inversion E; subst i j. rewrite Hat. unfold Heap.view.
              rewrite Hcg, Cc. simpl. unfold Heap.deref.
              rewrite Bg, Bf, Bc.
              destruct (Nat.eqb_spec new Heap.NULL);
                [unfold Heap.NULL in *; lia|].
              destruct (Nat.eqb_spec new text); [lia|].
              destruct (Nat.eqb_spec new tmp); [lia|].
              now rewrite Nat.eqb_refl.
           ++ rewrite (Hoff i j N), Hcells. symmetry.
              assert (Hc : Heap.sheet wg i j = Heap.sheet w i j)
                by (rewrite Hcg; now apply Oc).
              apply view_off_cell; [exact Hc|]. intros Hp.
              rewrite Bg, Bf, Bc.
              destruct (Hother i j N Hp) as (Hpo & Hpt & Hpf).
              destruct (Nat.eqb_spec (Heap.strVal (Heap.sheet w i j)) text);
                [contradiction|].
              destruct (Nat.eqb_spec (Heap.strVal (Heap.sheet w i j)) tmp);
                [lia|].
              destruct (Nat.eqb_spec (Heap.strVal (Heap.sheet w i j)) new);
                [lia|].
              apply Nat.eqb_neq in Hpo. now rewrite Hpo.
        -- unfold Heap.NULL. lia.
        -- rewrite Bg. now rewrite Nat.eqb_refl.
        -- intros _ i j. rewrite Hcg.
           destruct (pair_eq_dec (i, j) (row, col)) as [E|N].
           ++ inversion E; subst i j. rewrite Cc. simpl. lia.
           ++ rewrite (Oc i j N).
              destruct (owned_pointer w i j Ho) as [X|(_ & _ & X)];
                [rewrite X; unfold Heap.NULL; lia | lia].
        -- run Eg. exists w'. split; [exact Ew|]. split; [exact Sw|].
           assert (Hnew : Heap.strVal (Heap.sheet w' row col) = new)
             by now rewrite Pw, Hcg, Cc.
           split; [|split; [|split]].
           ++ intros i j N. now rewrite Pw, Hcg, (Oc i j N).
           ++ rewrite Fw, Fg. lia.
           ++ rewrite Hnew, Fw, Fg. lia.
           ++ intros q. rewrite Bw, Hnew. cbn [sheet]. rewrite Hat.
              cbn [type]. rewrite Bg, Bf, Bc.
              destruct (Nat.eqb_spec q tmp) as [->|]; cbn [orb].
              ** destruct (Nat.eqb_spec tmp new); [lia|].
                 destruct (Nat.eqb_spec tmp old); [reflexivity|].
                 destruct (Nat.eqb_spec tmp text); cbn [orb]; [reflexivity|].
                 symmetry. apply Habove. lia.
              ** destruct (Nat.eqb_spec q text) as [->|]; cbn [orb].
                 --- destruct (Nat.eqb_spec text new); [lia|].
                     now rewrite orb_true_r.
                 --- destruct (Nat.eqb_spec q new); [reflexivity|].
                     now rewrite orb_false_r.
    + (* plain text *)
      injection Hcm as <- <-.
      run (eq_refl : Heap.ret text wc = Heap.Returns text wc).
      destruct (write_tail row col (mkworld sh1 (display wa)) w1a wc text s)
        as (w' & Ew & Sw & Pw & Fw & Bw); trivial.
      * split; simpl; [|now rewrite Dc].
        intros i j. destruct (pair_eq_dec (i, j) (row, col)) as [E|N].
        -- inversion E; subst i j. rewrite Hat, Hvc.
           unfold set_string_value. now rewrite store_same.
        -- rewrite (Hoff i j N), Hvc. unfold set_string_value.
           now rewrite store_other.
      * intros _ i j. destruct (pair_eq_dec (i, j) (row, col)) as [E|N].
        -- inversion E; subst i j. rewrite Cc. simpl. lia.
        -- rewrite (Oc i j N). apply Hun.
      * exists w'. split; [exact Ew|]. split; [exact Sw|].
        assert (Hnew : Heap.strVal (Heap.sheet w' row col) = new)
          by now rewrite Pw, Cc.
        split; [|split; [|split]].
        -- intros i j N. now rewrite Pw, (Oc i j N).
        -- rewrite Fw, Fc. lia.
        -- rewrite Hnew, Fw, Fc. lia.
        -- intros q. rewrite Bw, Hnew. cbn [sheet]. rewrite Hat.
           cbn [type]. rewrite Bc.
           destruct (Nat.eqb_spec q text) as [->|]; cbn [orb].
           ++ destruct (Nat.eqb_spec text new); [lia|].
              now rewrite orb_true_r.
           ++ destruct (Nat.eqb_spec q new); [reflexivity|].
              now rewrite orb_false_r.
Qed.


(** A write whose own formula keeps the evaluator from returning exits on
    the heap as well. *)
Lemma exits_initialised (wa : world) (w : Heap.world) (row col : nat)
    (text : Heap.pointer) (s : cstring) :
  similar wa w -> owned w -> unshared w text ->
  Heap.blocks (Heap.heap w) text = Some s -> in_grid row col = true ->
  Heap.type (Heap.sheet w row col) <> none ->
  committed (sheet wa) row col s = None ->
  Heap.set_cell_value row col text w = Heap.Exits.
Proof.
  intros Hsim Ho Hun Hs Hrc Hty Hcm.
  destruct (owned_text w text s Ho Hs) as [Htn Htf].
  unfold committed in Hcm.
  destruct (is_valid_num (Some s)) eqn:Hnum; [discriminate|].
  destruct (is_valid_formula s) eqn:Hf; [|discriminate].
  assert (Hne : s <> []) by (intros ->; discriminate).
  unfold Heap.set_cell_value.
  apply Nat.eqb_neq in Htn as Htn'. rewrite Htn'.
  run (read_run text w s Htn Hs).
  destruct s as [|c0 t0]; [contradiction|]. cbv iota.
  set (s := c0 :: t0) in *.
  rewrite Hrc. change (negb true) with false. cbv iota.
  run (get_cell_run row col w).
  assert (Hinit : match Heap.type (Heap.sheet w row col) with
                  | none => Heap.initialize_cell row col
                  | _ => Heap.ret tt
                  end w = Heap.Returns tt w).
  { destruct (Heap.type (Heap.sheet w row col)); trivial. contradiction. }
  run Hinit. run (read_run text w s Htn Hs). rewrite Hnum. cbv iota.
  destruct (string_commit wa w row col text s Hsim Ho Hun Hs)
    as (wc & Ec & Dc & Fc & Bc & Cc & Oc & Hsc & Hvc).
  run Ec. run (read_run text wc s Htn Hsc). rewrite Hf. cbv iota.
  pose proof (parse_run text wc s Htn Hsc) as Ep.
  rewrite (parse_ext (Heap.view wc) _ s Hvc) in Ep.
  destruct (parse_and_calculate_formula
              (set_string_value (sheet wa) row col s) s); try discriminate.
  rewrite ?bind_assoc. unfold Heap.bind at 1. now rewrite Ep.
Qed.

(** Ownership after a step that gave the cell at [row] and [col] a fresh
    block or the null pointer and changed no block another cell points
    to. *)
Lemma owned_rebuilt (w w' : Heap.world) (row col : nat) :
  owned w ->
  (forall i j, (i, j) <> (row, col) ->
     Heap.strVal (Heap.sheet w' i j) = Heap.strVal (Heap.sheet w i j)) ->
  Heap.fresh (Heap.heap w) <= Heap.fresh (Heap.heap w') ->
  Heap.blocks (Heap.heap w') Heap.NULL = None ->
  (Heap.strVal (Heap.sheet w' row col) = Heap.NULL
   \/ (Heap.fresh (Heap.heap w) <= Heap.strVal (Heap.sheet w' row col)
         < Heap.fresh (Heap.heap w')
       /\ Heap.blocks (Heap.heap w') (Heap.strVal (Heap.sheet w' row col))
          <> None)) ->
  (forall q, q <> Heap.strVal (Heap.sheet w' row col) ->
     Heap.blocks (Heap.heap w') q = None
     \/ Heap.blocks (Heap.heap w') q = Heap.blocks (Heap.heap w) q) ->
  (forall i j, (i, j) <> (row, col) ->
     Heap.strVal (Heap.sheet w i j) <> Heap.NULL ->
     Heap.blocks (Heap.heap w') (Heap.strVal (Heap.sheet w i j))
     = Heap.blocks (Heap.heap w) (Heap.strVal (Heap.sheet w i j))) ->
  owned w'.
Proof.
  intros Ho Hoff Hfr H0' Hnew Hbl Hkeep.
  pose proof Ho as (Hf0 & Habove & H0 & Hlive & Hshare).
  unfold owned. split; [lia|]. split; [|split; [exact H0'|split]].
  - intros q Hq.
    assert (Hqn : q <> Heap.strVal (Heap.sheet w' row col)).
    { destruct Hnew as [E|[E _]]; [rewrite E; unfold Heap.NULL; lia | lia]. }
    destruct (Hbl q Hqn) as [E|E]; [exact E|]. rewrite E. apply Habove. lia.
  - intros i j Hn. destruct (pair_eq_dec (i, j) (row, col)) as [E|N].
    + inversion E; subst. destruct Hnew as [X|[_ X]]; [contradiction|exact X].
    + rewrite (Hoff i j N) in *. rewrite (Hkeep i j N Hn). now apply Hlive.
  - intros i j a b Hn E.
    assert (Hlow : forall x y, (x, y) <> (row, col) ->
              Heap.strVal (Heap.sheet w' x y) = Heap.NULL
              \/ Heap.strVal (Heap.sheet w' x y) < Heap.fresh (Heap.heap w)).
    { intros x y N. rewrite (Hoff x y N).
      destruct (owned_pointer w x y Ho) as [X|(_ & _ & X)]; auto. }
    destruct (pair_eq_dec (i, j) (row, col)) as [E1|N1];
      destruct (pair_eq_dec (a, b) (row, col)) as [E2|N2];
      try congruence.
    + inversion E1; subst.
      destruct Hnew as [X|[X _]]; [contradiction|].
      destruct (Hlow a b N2) as [Y|Y]; [congruence | lia].
    + inversion E2; subst.
      destruct Hnew as [X|[X _]]; [congruence|].
      destruct (Hlow i j N1) as [Y|Y]; [contradiction | lia].
    + rewrite (Hoff i j N1), (Hoff a b N2) in E.
      rewrite (Hoff i j N1) in Hn. now apply Hshare in E.
Qed.

Lemma abstract_write_initialises (wa : world) (row col : nat)
    (s : cstring) :
  s <> [] -> type (sheet wa row col) = none ->
  set_cell_value row col (Some s) wa
  = set_cell_value row col (Some s)
      (mkworld (initialize_cell (sheet wa) row col) (display wa)).
Proof.
  intros Hne Ht. unfold set_cell_value.
  destruct s as [|c0 t0]; [contradiction|].
  destruct (negb (in_grid row col)); [reflexivity|].
  assert (E : type (initialize_cell (sheet wa) row col row col) = num)
    by (unfold initialize_cell; rewrite Ht, store_same; reflexivity).
  cbn [sheet display]. rewrite Ht, E. reflexivity.
Qed.

(** The lazy initialisation at the start of a write to an Empty cell: the
    write goes on as a write to the initialised cell. *)
Lemma lazy_initialisation (wa : world) (w : Heap.world) (row col : nat)
    (text : Heap.pointer) (s : cstring) :
  similar wa w -> owned w -> unshared w text ->
  Heap.blocks (Heap.heap w) text = Some s -> s <> [] ->
  in_grid row col = true ->
  Heap.type (Heap.sheet w row col) = none ->
  let old := Heap.strVal (Heap.sheet w row col) in
  let fr := Heap.fresh (Heap.heap w) in
  exists wi,
    Heap.set_cell_value row col text w = Heap.set_cell_value row col text wi
    /\ similar (mkworld (initialize_cell (sheet wa) row col) (display wa)) wi
    /\ owned wi /\ unshared wi text
    /\ Heap.blocks (Heap.heap wi) text = Some s
    /\ Heap.sheet wi row col = Heap.mkslot num dzero fr
    /\ (forall i j, (i, j) <> (row, col) ->
          Heap.sheet wi i j = Heap.sheet w i j)
    /\ Heap.fresh (Heap.heap wi) = S fr
    /\ (forall q, Heap.blocks (Heap.heap wi) q
                  = if q =? fr then Some []
                    else if q =? old then None
                    else Heap.blocks (Heap.heap w) q).
Proof.
  intros Hsim Ho Hun Hs Hne Hrc Hty old fr.
  destruct (owned_text w text s Ho Hs) as [Htn Htf].
  pose proof Ho as (Hf0 & Habove & H0 & Hlive & Hshare).
  pose proof Hsim as [Hcells Hdisp].
  assert (Hold : old = Heap.NULL \/ Heap.blocks (Heap.heap w) old <> None).
  { destruct (Nat.eq_dec old Heap.NULL) as [E|N]; [now left|right].
    now apply Hlive. }
  assert (Hto : text <> old) by (intros E; exact (Hun row col (eq_sym E))).
  destruct (initialize_cell_run row col w H0 Hold Hty)
    as (wi & Ei & Di & Fi & Bi & Ci & Oi).
  fold old fr in Bi, Ci, Fi.
  assert (Hsi : Heap.blocks (Heap.heap wi) text = Some s).
  { rewrite Bi. destruct (Nat.eqb_spec text fr); [unfold fr in *; lia|].
    apply Nat.eqb_neq in Hto. now rewrite Hto. }
  assert (Hkeep : forall i j, (i, j) <> (row, col) ->
            Heap.strVal (Heap.sheet w i j) <> Heap.NULL ->
            Heap.blocks (Heap.heap wi) (Heap.strVal (Heap.sheet w i j))
            = Heap.blocks (Heap.heap w) (Heap.strVal (Heap.sheet w i j))).
  { intros i j N Hp. rewrite Bi.
    destruct (owned_pointer w i j Ho) as [X|(_ & _ & X)]; [contradiction|].
    destruct (Nat.eqb_spec (Heap.strVal (Heap.sheet w i j)) fr);
      [unfold fr in *; lia|].
    destruct (Nat.eqb_spec (Heap.strVal (Heap.sheet w i j)) old) as [E|];
      [|reflexivity].
    apply Hshare in E; [contradiction | exact Hp]. }
  assert (Hta : type (sheet wa row col) = none).
  { rewrite Hcells. unfold Heap.view. simpl. exact Hty. }
  exists wi. split; [|split; [|split; [|split]]];
    [| | | |repeat (split; [assumption|]); assumption].
  - unfold Heap.set_cell_value.
    apply Nat.eqb_neq in Htn as Htn'. rewrite Htn'.
    run (read_run text w s Htn Hs). run (read_run text wi s Htn Hsi).
    destruct s as [|c0 t0]; [contradiction|]. cbv iota.
    rewrite Hrc. change (negb true) with false. cbv iota.
    run (get_cell_run row col w). run (get_cell_run row col wi).
    rewrite Hty, Ci. cbn [Heap.type].
    run Ei. run (eq_refl : Heap.ret tt wi = Heap.Returns tt wi).
    reflexivity.
  - split; simpl; [|now rewrite Di]. intros i j.
    unfold initialize_cell. rewrite Hta.
    destruct (pair_eq_dec (i, j) (row, col)) as [E|N].
    + inversion E; subst. rewrite store_same. unfold Heap.view, Heap.deref.
      rewrite Ci. simpl. rewrite Bi, Nat.eqb_refl.
      destruct (Nat.eqb_spec fr Heap.NULL);
        [unfold Heap.NULL, fr in *; lia|].
      reflexivity.
    + rewrite (store_other _ _ _ _ _ _ N), Hcells. symmetry.
      apply view_off_cell; [now apply Oi | now apply Hkeep].
  - apply (owned_rebuilt w wi row col Ho).
    + intros i j N. now rewrite (Oi i j N).
    + rewrite Fi. fold fr. lia.
    + rewrite Bi. destruct (Nat.eqb_spec Heap.NULL fr);
        [unfold Heap.NULL, fr in *; lia|]. now destruct (Heap.NULL =? old).
    + right. rewrite Ci, Fi. simpl. fold fr. split; [lia|].
      rewrite Bi, Nat.eqb_refl. discriminate.
    + intros q Hq. rewrite Ci in Hq. simpl in Hq. rewrite Bi.
      destruct (Nat.eqb_spec q fr); [contradiction|].
      destruct (q =? old); auto.
    + exact Hkeep.
  - intros i j. destruct (pair_eq_dec (i, j) (row, col)) as [E|N].
    + inversion E; subst. rewrite Ci. simpl. unfold fr. lia.
    + rewrite (Oi i j N). apply Hun.
Qed.

Lemma write_lazy (wa wa' : world) (w : Heap.world) (row col : nat)
    (text : Heap.pointer) (s : cstring) :
  similar wa w -> owned w -> unshared w text ->
  Heap.blocks (Heap.heap w) text = Some s -> s <> [] ->
  Heap.type (Heap.sheet w row col) = none ->
  set_cell_value row col (Some s) wa = Returns wa' ->
  exists w',
    Heap.set_cell_value row col text w = Heap.Returns tt w'
    /\ similar wa' w'
    /\ heap_after_write w w' row col text s.
Proof.
  intros Hsim Ho Hun Hs Hne Hty H.
  pose proof Ho as (Hf0 & Habove & H0 & Hlive & Hshare).
  assert (Hrc : in_grid row col = true).
  { destruct (in_grid row col) eqn:E; [reflexivity|].
    unfold set_cell_value in H. destruct s; [contradiction|].
    rewrite E in H. discriminate. }
  assert (Hta : type (sheet wa row col) = none).
  { destruct Hsim as [Hcells _]. rewrite Hcells. unfold Heap.view. simpl.
    exact Hty. }
  destruct (lazy_initialisation wa w row col text s Hsim Ho Hun Hs Hne Hrc Hty)
    as (wi & Eq & Hsimi & Hoi & Huni & Hsi & Ci & Oi & Fi & Bi).
  set (old := Heap.strVal (Heap.sheet w row col)) in *.
  set (fr := Heap.fresh (Heap.heap w)) in *.
  rewrite (abstract_write_initialises wa row col s Hne Hta) in H.
  destruct (write_initialised _ wa' wi row col text s Hsimi Hoi Huni Hsi Hne)
    as (w' & Ew & Sw & Hoff & Hfr & Hcase); trivial.
  { rewrite Ci. discriminate. }
  exists w'. split; [now rewrite Eq|]. split; [exact Sw|].
  unfold heap_after_write. fold old.
  rewrite Ci in Hcase. cbn [Heap.strVal] in Hcase.
  split; [|split].
  - intros i j N. now rewrite (Hoff i j N), (Oi i j N).
  - rewrite Fi in Hfr. fold fr. lia.
  - destruct (is_valid_num (Some s)).
    + destruct Hcase as [Hnew Hbl]. split; [exact Hnew|].
      intros q. rewrite Hbl, Bi.
      destruct (Nat.eqb_spec q fr) as [->|]; [|reflexivity].
      destruct (fr =? old); [reflexivity|]. symmetry. apply Habove.
      apply Nat.le_refl.
    + destruct Hcase as [Hnew Hbl]. rewrite Fi in Hnew. fold fr.
      split; [lia|].
      intros q. rewrite Hbl, Bi.
      destruct (Nat.eqb_spec q (Heap.strVal (Heap.sheet w' row col)));
        [reflexivity|].
      destruct (Nat.eqb_spec q fr) as [->|]; cbn [orb].
      * destruct ((fr =? old) || (fr =? text)); [reflexivity|].
        symmetry. apply Habove. apply Nat.le_refl.
      * destruct (Nat.eqb_spec q text) as [->|];
          [now rewrite orb_true_r|].
        rewrite orb_false_r. now destruct (q =? old).
Qed.

(** A write on the heap that the abstract model lets return. *)
Lemma write_on_heap (wa wa' : world) (w : Heap.world) (row col : nat)
    (text : Heap.pointer) (s : cstring) :
  similar wa w -> owned w -> unshared w text ->
  Heap.blocks (Heap.heap w) text = Some s ->
  set_cell_value row col (Some s) wa = Returns wa' ->
  exists w',
    Heap.set_cell_value row col text w = Heap.Returns tt w'
    /\ similar wa' w' /\ owned w'
    /\ (s = [] -> w' = w)
    /\ (s <> [] -> heap_after_write w w' row col text s).
Proof.
  intros Hsim Ho Hun Hs H.
  destruct (owned_text w text s Ho Hs) as [Htn Htf].
  destruct s as [|c0 t0].
  - simpl in H. inversion H; subst wa'. exists w.
    unfold Heap.set_cell_value. apply Nat.eqb_neq in Htn as Htn'.
    rewrite Htn'. run (read_run text w [] Htn Hs).
    split; [reflexivity|]. split; [exact Hsim|]. split; [exact Ho|].
    split; [reflexivity|]. intros X. contradiction.
  - assert (Hne : c0 :: t0 <> []) by discriminate.
    assert (Hw : exists w',
               Heap.set_cell_value row col text w = Heap.Returns tt w'
               /\ similar wa' w'
               /\ heap_after_write w w' row col text (c0 :: t0)).
    { destruct (Heap.type (Heap.sheet w row col)) eqn:Hty.
      - eapply write_lazy; eauto.
      - eapply write_initialised; eauto. rewrite Hty. discriminate.
      - eapply write_initialised; eauto. rewrite Hty. discriminate.
      - eapply write_initialised; eauto. rewrite Hty. discriminate. }
    destruct Hw as (w' & Ew & Sw & Hw).
    exists w'. split; [exact Ew|]. split; [exact Sw|].
    split; [eapply owned_after_write; eauto|].
    split; [discriminate | auto].
Qed.

Lemma committed_initialised (sh : grid) (row col : nat) (s : cstring) :
  committed (initialize_cell sh row col) row col s = committed sh row col s.
Proof.
  unfold committed.
  destruct (is_valid_num (Some s)); [reflexivity|].
  destruct (is_valid_formula s); [|reflexivity].
  rewrite (parse_ext (set_string_value (initialize_cell sh row col) row col s)
             (set_string_value sh row col s)); [reflexivity|].
  intros a b. unfold set_string_value, initialize_cell.
  destruct (pair_eq_dec (a, b) (row, col)) as [E|N].
  - inversion E; subst. now rewrite !store_same.
  - rewrite !store_other by exact N.
    destruct (type (sh row col)); trivial. now apply store_other.
Qed.

(** A write whose own formula keeps the evaluator from returning makes
    the process exit on the heap as well. *)
Lemma write_exits_on_heap (wa : world) (w : Heap.world) (row col : nat)
    (text : Heap.pointer) (s : cstring) :
  similar wa w -> owned w -> unshared w text ->
  Heap.blocks (Heap.heap w) text = Some s -> in_grid row col = true ->
  committed (sheet wa) row col s = None ->
  Heap.set_cell_value row col text w = Heap.Exits.
Proof.
  intros Hsim Ho Hun Hs Hrc Hcm.
  assert (Hne : s <> []).
  { intros ->. unfold committed in Hcm. simpl in Hcm. discriminate. }
  destruct (Heap.type (Heap.sheet w row col)) eqn:Hty.
  - destruct (lazy_initialisation wa w row col text s Hsim Ho Hun Hs Hne Hrc
                Hty)
      as (wi & Eq & Hsimi & Hoi & Huni & Hsi & Ci & _).
    rewrite Eq.
    apply (exits_initialised _ wi row col text s Hsimi Hoi Huni Hsi Hrc).
    + rewrite Ci. discriminate.
    + simpl. now rewrite committed_initialised.
  - apply (exits_initialised wa w row col text s); trivial.
    rewrite Hty. discriminate.
  - apply (exits_initialised wa w row col text s); trivial.
    rewrite Hty. discriminate.
  - apply (exits_initialised wa w row col text s); trivial.
    rewrite Hty. discriminate.
Qed.

(** Clearing a cell on the heap. *)
Lemma clear_on_heap (wa : world) (w : Heap.world) (row col : nat) :
  similar wa w -> owned w -> in_grid row col = true ->
  exists wa' w',
    clear_cell row col wa = Returns wa'
    /\ Heap.clear_cell row col w = Heap.Returns tt w'
    /\ similar wa' w' /\ owned w'
    /\ (forall i j, (i, j) <> (row, col) ->
          Heap.sheet w' i j = Heap.sheet w i j)
    /\ (Heap.type (Heap.sheet w row col) = none -> w' = w)
    /\ (Heap.type (Heap.sheet w row col) <> none ->
        Heap.sheet w' row col = Heap.mkslot none dzero Heap.NULL
        /\ forall q,
             Heap.blocks (Heap.heap w') q
             = if q =? Heap.strVal (Heap.sheet w row col) then None
               else Heap.blocks (Heap.heap w) q).
Proof.
  intros Hsim Ho Hin.
  pose proof Ho as (Hf0 & Habove & H0 & Hlive & Hshare).
  pose proof Hsim as [Hcells Hdisp].
  assert (Hta : type (sheet wa row col) = Heap.type (Heap.sheet w row col))
    by now rewrite Hcells.
  unfold clear_cell, Heap.clear_cell. rewrite Hin.
  change (negb true) with false. cbv iota.
  run (get_cell_run row col w). rewrite Hta.
  set (old := Heap.strVal (Heap.sheet w row col)).
  assert (Hold : old = Heap.NULL \/ Heap.blocks (Heap.heap w) old <> None).
  { destruct (Nat.eq_dec old Heap.NULL) as [E|N]; [now left|right].
    now apply Hlive. }
  destruct (free_run old w H0 Hold) as (w1 & E1 & S1 & D1 & B1 & F1).
  destruct (assign_run row col (Heap.mkslot none dzero Heap.NULL) w1)
    as (w2 & E2 & H2 & D2 & C2 & O2).
  assert (Hgo : exists wa' w',
            update_cell_display row col []
              (mkworld (store (sheet wa) row col zero_cell) (display wa))
            = Returns wa'
            /\ Heap.bind (Heap.free old)
                 (fun _ =>
                    Heap.bind
                      (Heap.assign row col (Heap.mkslot none dzero Heap.NULL))
                      (fun _ => Heap.show row col [])) w
               = Heap.Returns tt w'
            /\ similar wa' w' /\ owned w'
            /\ (forall i j, (i, j) <> (row, col) ->
                  Heap.sheet w' i j = Heap.sheet w i j)
            /\ Heap.sheet w' row col = Heap.mkslot none dzero Heap.NULL
            /\ forall q,
                 Heap.blocks (Heap.heap w') q
                 = if q =? old then None else Heap.blocks (Heap.heap w) q).
  { eexists. eexists. split; [reflexivity|].
    split; [run E1; run E2; reflexivity|].
    assert (Hkeep : forall i j, (i, j) <> (row, col) ->
              Heap.strVal (Heap.sheet w i j) <> Heap.NULL ->
              Heap.blocks (Heap.heap w1) (Heap.strVal (Heap.sheet w i j))
              = Heap.blocks (Heap.heap w) (Heap.strVal (Heap.sheet w i j))).
    { intros i j N Hp. rewrite B1.
      destruct (Nat.eqb_spec (Heap.strVal (Heap.sheet w i j)) old) as [E|];
        [|reflexivity].
      apply Hshare in E; [contradiction | exact Hp]. }
    cbn [Heap.sheet Heap.display Heap.heap Heap.show].
    split; [split|split; [|split; [|split]]]; simpl.
    - intros i j. unfold store.
      destruct (pair_eq_dec (i, j) (row, col)) as [E|N].
      + inversion E; subst. rewrite !Nat.eqb_refl. simpl.
        unfold Heap.view. simpl. now rewrite C2.
      + rewrite (off_cell row col i j N), Hcells. symmetry.
        unfold Heap.view at 1. simpl. rewrite (O2 i j N), H2, S1.
        unfold Heap.view, Heap.deref.
        destruct (Nat.eqb_spec (Heap.strVal (Heap.sheet w i j)) Heap.NULL);
          [reflexivity|]. now rewrite (Hkeep i j N).
    - now rewrite D2, D1, Hdisp.
    - match goal with |- owned ?x => apply (owned_rebuilt w x row col Ho) end;
        simpl.
      + intros i j N. now rewrite (O2 i j N), S1.
      + rewrite H2, F1. apply Nat.le_refl.
      + rewrite H2, B1. now destruct (Heap.NULL =? old).
      + left. now rewrite C2.
      + intros q _. rewrite H2, B1. destruct (q =? old); auto.
      + intros i j N Hp. rewrite H2. now apply Hkeep.
    - intros i j N. now rewrite (O2 i j N), S1.
    - exact C2.
    - intros q. now rewrite H2, B1. }
  destruct (Heap.type (Heap.sheet w row col)) eqn:Hty.
  - exists wa, w. split; [reflexivity|]. split; [reflexivity|].
    split; [exact Hsim|]. split; [exact Ho|].
    split; [intros; reflexivity|]. split; [reflexivity|].
    intros X. contradiction.
  - destruct Hgo as (wa' & w' & Ea & Eh & Sw & Ow & Off & Hc & Hb).
    exists wa', w'. split; [exact Ea|]. split; [exact Eh|].
    split; [exact Sw|]. split; [exact Ow|]. split; [exact Off|].
    split; [discriminate|]. intros _. now split.
  - destruct Hgo as (wa' & w' & Ea & Eh & Sw & Ow & Off & Hc & Hb).
    exists wa', w'. split; [exact Ea|]. split; [exact Eh|].
    split; [exact Sw|]. split; [exact Ow|]. split; [exact Off|].
    split; [discriminate|]. intros _. now split.
  - destruct Hgo as (wa' & w' & Ea & Eh & Sw & Ow & Off & Hc & Hb).
    exists wa', w'. split; [exact Ea|]. split; [exact Eh|].
    split; [exact Sw|]. split; [exact Ow|]. split; [exact Off|].
    split; [discriminate|]. intros _. now split.
Qed.

Lemma owned_with_block (w w' : Heap.world) (p : Heap.pointer) :
  owned w ->
  (forall i j, Heap.sheet w' i j = Heap.sheet w i j) ->
  Heap.fresh (Heap.heap w) <= p < Heap.fresh (Heap.heap w') ->
  (forall q, q <> p ->
     Heap.blocks (Heap.heap w') q = Heap.blocks (Heap.heap w) q) ->
  owned w'.
Proof.
  intros Ho Hsh Hp Hbl.
  pose proof Ho as (Hf0 & Habove & H0 & Hlive & Hshare).
  unfold owned. split; [lia|]. split; [|split; [|split]].
  - intros q Hq. rewrite Hbl by lia. apply Habove. lia.
  - rewrite Hbl; [exact H0 | unfold Heap.NULL; lia].
  - intros i j Hn. rewrite Hsh in *.
    destruct (owned_pointer w i j Ho) as [X|(X & _ & Y)]; [contradiction|].
    rewrite Hbl; [exact X | lia].
  - intros i j a b Hn E. rewrite !Hsh in *. now apply Hshare in E.
Qed.

Lemma similar_with_block (wa : world) (w w' : Heap.world) (p : Heap.pointer) :
  similar wa w -> owned w ->
  (forall i j, Heap.sheet w' i j = Heap.sheet w i j) ->
  Heap.display w' = Heap.display w ->
  Heap.fresh (Heap.heap w) <= p ->
  (forall q, q <> p ->
     Heap.blocks (Heap.heap w') q = Heap.blocks (Heap.heap w) q) ->
  similar wa w'.
Proof.
  intros [Hc Hd] Ho Hsh Hdi Hp Hbl. split; [|now rewrite Hdi].
  intros i j. rewrite Hc. symmetry.
  apply view_off_cell; [apply Hsh|]. intros Hn.
  destruct (owned_pointer w i j Ho) as [X|(_ & _ & Y)]; [contradiction|].
  apply Hbl. lia.
Qed.

(** Reading a cell on the heap: the caller gets a block of its own, and
    giving it back leaves the heap as it was. *)
Lemma read_on_heap (wa : world) (w : Heap.world) (row col : nat)
    (t : cstring) :
  similar wa w -> owned w ->
  get_textual_value wa row col = Some t ->
  let p := Heap.fresh (Heap.heap w) in
  exists w',
    Heap.get_textual_value row col w = Heap.Returns p w'
    /\ Heap.blocks (Heap.heap w') p = Some t
    /\ (forall q, q <> p ->
          Heap.blocks (Heap.heap w') q = Heap.blocks (Heap.heap w) q)
    /\ unshared w' p
    /\ similar wa w' /\ owned w'
    /\ exists w'',
         Heap.free_textual_value p w' = Heap.Returns tt w''
         /\ (forall q,
               Heap.blocks (Heap.heap w'') q = Heap.blocks (Heap.heap w) q)
         /\ (forall i j, Heap.sheet w'' i j = Heap.sheet w i j)
         /\ similar wa w'' /\ owned w''.
Proof.
  intros Hsim Ho Hget p.
  pose proof Ho as (Hf0 & Habove & H0 & Hlive & Hshare).
  pose proof Hsim as [Hcells Hdisp].
  unfold get_textual_value in Hget. unfold Heap.get_textual_value.
  destruct (negb (in_grid row col)); [discriminate|].
  run (get_cell_run row col w).
  rewrite Hcells in Hget. unfold Heap.view in Hget. simpl in Hget.
  assert (Hgo : forall content,
            exists w',
              Heap.allocate content w = Heap.Returns p w'
              /\ Heap.blocks (Heap.heap w') p = Some content
              /\ (forall q, q <> p ->
                    Heap.blocks (Heap.heap w') q = Heap.blocks (Heap.heap w) q)
              /\ unshared w' p
              /\ similar wa w' /\ owned w'
              /\ exists w'',
                   Heap.free_textual_value p w' = Heap.Returns tt w''
                   /\ (forall q, Heap.blocks (Heap.heap w'') q
                                 = Heap.blocks (Heap.heap w) q)
                   /\ (forall i j, Heap.sheet w'' i j = Heap.sheet w i j)
                   /\ similar wa w'' /\ owned w'').
  { intros content.
    destruct (allocate_run content w) as (w' & E' & S' & D' & B' & F').
    fold p in E', B', F'.
    assert (Hpn : p <> Heap.NULL) by (unfold p, Heap.NULL; lia).
    assert (Hbp : Heap.blocks (Heap.heap w') p = Some content)
      by (rewrite B'; now rewrite Nat.eqb_refl).
    assert (Hbq : forall q, q <> p ->
              Heap.blocks (Heap.heap w') q = Heap.blocks (Heap.heap w) q).
    { intros q Hq. rewrite B'. apply Nat.eqb_neq in Hq. now rewrite Hq. }
    assert (Hun : unshared w' p).
    { intros i j. rewrite S'.
      destruct (owned_pointer w i j Ho) as [X|(_ & _ & Y)];
        [rewrite X; auto | unfold p; lia]. }
    exists w'. split; [exact E'|]. split; [exact Hbp|]. split; [exact Hbq|].
    split; [exact Hun|].
    split; [apply (similar_with_block wa w w' p); auto; unfold p; lia|].
    split; [apply (owned_with_block w w' p); auto; rewrite F'; unfold p; lia|].
    unfold Heap.free_textual_value, Heap.free.
    apply Nat.eqb_neq in Hpn as Hpn'. rewrite Hpn', Hbp.
    eexists. split; [reflexivity|]. simpl.
    assert (Hall : forall q,
              (if q =? p then None else Heap.blocks (Heap.heap w') q)
              = Heap.blocks (Heap.heap w) q).
    { intros q. destruct (Nat.eqb_spec q p) as [->|N]; [|now apply Hbq].
      symmetry. apply Habove. apply Nat.le_refl. }
    split; [exact Hall|]. split; [exact S'|]. split.
    - split; simpl; [|now rewrite D'].
      intros i j. rewrite Hcells. unfold Heap.view.
      cbn [Heap.sheet Heap.heap]. rewrite S'. unfold Heap.deref.
      cbn [Heap.blocks].
      destruct (Heap.strVal (Heap.sheet w i j) =? Heap.NULL); [reflexivity|].
      now rewrite Hall.
    - unfold owned. cbn [Heap.sheet Heap.heap Heap.blocks Heap.fresh].
      rewrite F'.
      split; [lia|]. split; [|split; [|split]].
      + intros q Hq. rewrite Hall. apply Habove. unfold p in Hq. lia.
      + now rewrite Hall.
      + intros i j Hn. rewrite S' in *. rewrite Hall. now apply Hlive.
      + intros i j a b Hn E. rewrite !S' in *. now apply Hshare in E. }
  destruct (Heap.type (Heap.sheet w row col)) eqn:Hty.
  - inversion Hget; subst t. apply Hgo.
  - unfold Heap.deref in Hget.
    destruct (Nat.eqb_spec (Heap.strVal (Heap.sheet w row col)) Heap.NULL);
      [discriminate|].
    destruct (Heap.blocks (Heap.heap w) (Heap.strVal (Heap.sheet w row col)))
      as [s|] eqn:Hs; [|discriminate].
    inversion Hget; subst t. run (read_run _ w s n Hs). apply Hgo.
  - unfold Heap.deref in Hget.
    destruct (Nat.eqb_spec (Heap.strVal (Heap.sheet w row col)) Heap.NULL);
      [discriminate|].
    destruct (Heap.blocks (Heap.heap w) (Heap.strVal (Heap.sheet w row col)))
      as [s|] eqn:Hs; [|discriminate].
    inversion Hget; subst t. run (read_run _ w s n Hs). apply Hgo.
  - unfold Heap.deref in Hget.
    destruct (Nat.eqb_spec (Heap.strVal (Heap.sheet w row col)) Heap.NULL);
      [discriminate|].
    destruct (Heap.blocks (Heap.heap w) (Heap.strVal (Heap.sheet w row col)))
      as [s|] eqn:Hs; [|discriminate].
    inversion Hget; subst t. run (read_run _ w s n Hs). apply Hgo.
Qed.

(** Reading a cell whose string is the null pointer is undefined on the
    heap as well. *)
Lemma read_of_null_on_heap (wa : world) (w : Heap.world) (row col : nat) :
  similar wa w -> get_textual_value wa row col = None ->
  Heap.get_textual_value row col w = Heap.Undefined.
Proof.
  intros [Hcells _] Hget. unfold get_textual_value in Hget.
  unfold Heap.get_textual_value.
  destruct (negb (in_grid row col)); [reflexivity|].
  run (get_cell_run row col w).
  rewrite Hcells in Hget. unfold Heap.view in Hget. simpl in Hget.
  destruct (Heap.type (Heap.sheet w row col)); try discriminate;
    unfold Heap.bind, Heap.read;
    destruct (Heap.deref (Heap.heap w) (Heap.strVal (Heap.sheet w row col)));
    try discriminate; reflexivity.
Qed.

Lemma initial_owned : owned Heap.initial_world.
Proof.
  unfold owned. simpl. repeat split; auto.
  intros i j a b X. contradiction.
Qed.

Lemma initial_similar : similar initial_world Heap.initial_world.
Proof. split; [intros i j|]; reflexivity. Qed.

Lemma release_keeps (wa : world) (w w' : Heap.world) (p : Heap.pointer) :
  similar wa w -> owned w -> p = Heap.NULL \/ unshared w p ->
  Heap.free p w = Heap.Returns tt w' ->
  similar wa w' /\ owned w'
  /\ (forall i j, Heap.sheet w' i j = Heap.sheet w i j)
  /\ forall q, Heap.blocks (Heap.heap w') q
               = if q =? p then None else Heap.blocks (Heap.heap w) q.
Proof.
  intros Hsim Ho Hp H.
  pose proof Ho as (Hf0 & Habove & H0 & Hlive & Hshare).
  pose proof Hsim as [Hcells Hdisp].
  unfold Heap.free in H. destruct (Nat.eqb_spec p Heap.NULL) as [->|Hn].
  - inversion H; subst w'. split; [exact Hsim|]. split; [exact Ho|].
    split; [reflexivity|].
    intros q. destruct (Nat.eqb_spec q Heap.NULL) as [->|];
      [exact H0 | reflexivity].
  - destruct Hp as [Hp|Hun]; [contradiction|].
    destruct (Heap.blocks (Heap.heap w) p) eqn:Hb; [|discriminate].
    inversion H; subst w'. clear H. split; [|split; [|split]].
    + split; [|exact Hdisp]. intros i j. rewrite Hcells.
      unfold Heap.view, Heap.deref.
      cbn [Heap.heap Heap.sheet Heap.blocks Heap.fresh].
      destruct (Heap.strVal (Heap.sheet w i j) =? Heap.NULL); [reflexivity|].
      destruct (Nat.eqb_spec (Heap.strVal (Heap.sheet w i j)) p) as [E|];
        [|reflexivity]. now apply Hun in E.
    + unfold owned. cbn [Heap.heap Heap.sheet Heap.blocks Heap.fresh].
      split; [exact Hf0|]. split; [|split; [|split]].
      * intros q Hq. destruct (q =? p); [reflexivity | now apply Habove].
      * destruct (Heap.NULL =? p); [reflexivity | exact H0].
      * intros i j Hnn.
        destruct (Nat.eqb_spec (Heap.strVal (Heap.sheet w i j)) p) as [E|];
          [now apply Hun in E | now apply Hlive].
      * exact Hshare.
    + reflexivity.
    + reflexivity.
Qed.

(** Under the calling discipline the sheet owns its strings, and the
    world stands for a world of the abstract model. *)
Lemma served_invariant (w : Heap.world) :
  served w -> owned w /\ exists wa, reachable wa /\ similar wa w.
Proof.
  induction 1 as [|w s p w' _ [Ho (wa & Hr & Hsim)] H
                  |w p w' _ [Ho (wa & Hr & Hsim)] Hp H
                  |w row col text w' _ [Ho (wa & Hr & Hsim)] Ht H
                  |w row col w' _ [Ho (wa & Hr & Hsim)] H
                  |w row col p w' _ [Ho (wa & Hr & Hsim)] H].
  - split; [exact initial_owned|]. exists initial_world.
    split; [exact reach_initial | exact initial_similar].
  - destruct (allocate_run s w) as (w1 & E1 & S1 & D1 & B1 & F1).
    rewrite E1 in H. inversion H; subst p w1. clear H.
    assert (Hbq : forall q, q <> Heap.fresh (Heap.heap w) ->
              Heap.blocks (Heap.heap w') q = Heap.blocks (Heap.heap w) q).
    { intros q Hq. rewrite B1. apply Nat.eqb_neq in Hq. now rewrite Hq. }
    split.
    + apply (owned_with_block w w' (Heap.fresh (Heap.heap w))); auto.
      rewrite F1. lia.
    + exists wa. split; [exact Hr|].
      apply (similar_with_block wa w w' (Heap.fresh (Heap.heap w))); auto.
  - destruct (release_keeps wa w w' p Hsim Ho Hp H) as (S' & O' & _).
    split; [exact O'|]. now exists wa.
  - assert (Hsame : w' = w -> owned w' /\ exists wa, reachable wa /\ similar wa w')
      by (intros ->; split; [exact Ho | now exists wa]).
    pose proof H as Hfold. unfold Heap.set_cell_value in H.
    destruct (Nat.eqb_spec text Heap.NULL) as [->|Htn].
    { apply Hsame. now inversion H. }
    destruct Ht as [Ht|Hun]; [contradiction|].
    destruct (Heap.blocks (Heap.heap w) text) as [s|] eqn:Hs.
    2:{ exfalso. unfold Heap.bind, Heap.read, Heap.deref in H.
        apply Nat.eqb_neq in Htn. rewrite Htn, Hs in H. discriminate. }
    pose proof H as H'. rewrite (run_bind _ _ _ _ _ (read_run text w s Htn Hs))
      in H'.
    destruct s as [|c0 t0]; [apply Hsame; now inversion H'|].
    destruct (in_grid row col) eqn:Hrc; [|discriminate].
    clear H' H.
    destruct (committed (sheet wa) row col (c0 :: t0)) as [[c shown]|] eqn:Hcm.
    + destruct (set_cell_value_total row col (c0 :: t0) wa
                  (reachable_evaluable wa Hr) ltac:(discriminate) Hrc _ _ Hcm)
        as (w1 & evs & Hset & _).
      destruct (write_on_heap wa _ w row col text (c0 :: t0) Hsim Ho Hun Hs
                  Hset) as (w'' & Ew & Sw & Ow & _).
      rewrite Hfold in Ew. inversion Ew; subst w''.
      split; [exact Ow|]. eexists. split; [|exact Sw].
      eapply reach_set; eauto.
    + rewrite (write_exits_on_heap wa w row col text (c0 :: t0) Hsim Ho Hun Hs
                 Hrc Hcm) in Hfold. discriminate.
  - destruct (in_grid row col) eqn:Hrc;
      [|unfold Heap.clear_cell in H; rewrite Hrc in H; discriminate].
    destruct (clear_on_heap wa w row col Hsim Ho Hrc)
      as (wa' & w'' & Ea & Eh & Sw & Ow & _).
    rewrite H in Eh. inversion Eh; subst w''.
    split; [exact Ow|]. exists wa'. split; [|exact Sw].
    eapply reach_clear; eauto.
  - destruct (get_textual_value wa row col) as [t|] eqn:Hget.
    + destruct (read_on_heap wa w row col t Hsim Ho Hget)
        as (w'' & Eh & _ & _ & _ & Sw & Ow & _).
      rewrite H in Eh. inversion Eh; subst w''.
      split; [exact Ow|]. now exists wa.
    + rewrite (read_of_null_on_heap wa w row col Hsim Hget) in H.
      discriminate.
Qed.

(** A write on the heap that returns is a write the abstract model lets
    return. *)
Lemma returned_write (wa : world) (w w' : Heap.world) (row col : nat)
    (text : Heap.pointer) (s : cstring) :
  reachable wa -> similar wa w -> owned w -> unshared w text ->
  Heap.blocks (Heap.heap w) text = Some s -> s <> [] ->
  Heap.set_cell_value row col text w = Heap.Returns tt w' ->
  in_grid row col = true
  /\ exists wa', set_cell_value row col (Some s) wa = Returns wa'.
Proof.
  intros Hr Hsim Ho Hun Hs Hne H.
  destruct (owned_text w text s Ho Hs) as [Htn Htf].
  assert (Hrc : in_grid row col = true).
  { destruct (in_grid row col) eqn:Hrc; [reflexivity|].
    unfold Heap.set_cell_value in H. apply Nat.eqb_neq in Htn as Htn'.
    rewrite Htn' in H.
    rewrite (run_bind _ _ _ _ _ (read_run text w s Htn Hs)) in H.
    destruct s; [contradiction|]. rewrite Hrc in H. discriminate. }
  split; [exact Hrc|].
  destruct (committed (sheet wa) row col s) as [[c shown]|] eqn:Hcm.
  - destruct (set_cell_value_total row col s wa (reachable_evaluable wa Hr)
                Hne Hrc _ _ Hcm) as (w1 & evs & Hset & _).
    eexists. exact Hset.
  - rewrite (write_exits_on_heap wa w row col text s Hsim Ho Hun Hs Hrc Hcm)
      in H. discriminate.
Qed.

(** X17: as long as the caller keeps to the calling discipline (it
    hands to [set_cell_value] the null pointer or a live block that is the
    string of no cell, and releases only such blocks), the string pointer of
    every cell is null or points to a live block, no two cells point to the
    same block, and the sheet with its strings read through the pointers is a
    world the abstract model can reach. *)
Theorem sheet_owns_its_strings (w : Heap.world) :
  served w ->
  (forall i j,
     Heap.strVal (Heap.sheet w i j) = Heap.NULL
     \/ Heap.blocks (Heap.heap w) (Heap.strVal (Heap.sheet w i j)) <> None)
  /\ (forall i j a b,
        Heap.strVal (Heap.sheet w i j) <> Heap.NULL ->
        Heap.strVal (Heap.sheet w i j) = Heap.strVal (Heap.sheet w a b) ->
        (i, j) = (a, b))
  /\ exists wa, reachable wa /\ similar wa w.
Proof.
  intros Hs. destruct (served_invariant w Hs) as [Ho Ha].
  split; [|split; [apply Ho | exact Ha]].
  intros i j. destruct (owned_pointer w i j Ho) as [E|(E & _)]; auto.
Qed.

(** X18: under the calling discipline, a write of a non-empty text
    that returns has released the caller's block unless the text is a plain
    number, in which case the block is still live and still the caller's.
    The old string of the written cell is released, the only new live block
    is the copy of the text that the cell holds when the text is no number,
    every other block is as before, and no other cell's pointer changes. *)
Theorem write_takes_text_unless_number (w w' : Heap.world) (row col : nat)
    (text : Heap.pointer) (s : cstring) :
  served w -> unshared w text ->
  Heap.blocks (Heap.heap w) text = Some s -> s <> [] ->
  Heap.set_cell_value row col text w = Heap.Returns tt w' ->
  Heap.blocks (Heap.heap w') text
  = (if is_valid_num (Some s) then Some s else None)
  /\ heap_after_write w w' row col text s.
Proof.
  intros Hsv Hun Hs Hne H.
  destruct (served_invariant w Hsv) as [Ho (wa & Hr & Hsim)].
  destruct (returned_write wa w w' row col text s Hr Hsim Ho Hun Hs Hne H)
    as (Hrc & wa' & Hset).
  destruct (write_on_heap wa wa' w row col text s Hsim Ho Hun Hs Hset)
    as (w'' & Ew & _ & _ & _ & Hw).
  rewrite H in Ew. inversion Ew; subst w''. specialize (Hw Hne).
  split; [|exact Hw].
  destruct (owned_text w text s Ho Hs) as [Htn Htf].
  destruct Hw as (_ & _ & Hcase).
  destruct (is_valid_num (Some s)).
  - destruct Hcase as [_ Hbl]. rewrite Hbl.
    destruct (Nat.eqb_spec text (Heap.strVal (Heap.sheet w row col))) as [E|];
      [|exact Hs]. symmetry in E. now apply Hun in E.
  - destruct Hcase as [Hnew Hbl]. rewrite Hbl.
    destruct (Nat.eqb_spec text (Heap.strVal (Heap.sheet w' row col)));
      [lia|]. now rewrite Nat.eqb_refl, orb_true_r.
Qed.

(** X19: under the calling discipline, on a cell of the sheet, no
    write and no clear has undefined behaviour: nothing is released twice
    and no released block is read.  [get_textual_value] has undefined
    behaviour exactly on a Numeric cell whose string is the null pointer. *)
Theorem disciplined_calls_are_defined (w : Heap.world) (row col : nat) :
  served w -> in_grid row col = true ->
  (forall text,
     text = Heap.NULL
     \/ (unshared w text /\ Heap.blocks (Heap.heap w) text <> None) ->
     Heap.set_cell_value row col text w <> Heap.Undefined)
  /\ Heap.clear_cell row col w <> Heap.Undefined
  /\ (Heap.get_textual_value row col w = Heap.Undefined
      <-> Heap.type (Heap.sheet w row col) = num
          /\ Heap.strVal (Heap.sheet w row col) = Heap.NULL).
Proof.
  intros Hsv Hrc.
  destruct (served_invariant w Hsv) as [Ho (wa & Hr & Hsim)].
  pose proof Hsim as [Hcells _].
  split; [|split].
  - intros text [->|[Hun Hl]]; [discriminate|].
    destruct (Heap.blocks (Heap.heap w) text) as [s|] eqn:Hs;
      [|contradiction].
    destruct (committed (sheet wa) row col s) as [[c shown]|] eqn:Hcm.
    + destruct s as [|c0 t0].
      * destruct (write_on_heap wa wa w row col text [] Hsim Ho Hun Hs
                    eq_refl) as (w' & Ew & _). now rewrite Ew.
      * destruct (set_cell_value_total row col (c0 :: t0) wa
                    (reachable_evaluable wa Hr) ltac:(discriminate) Hrc _ _
                    Hcm) as (w1 & evs & Hset & _).
        destruct (write_on_heap wa _ w row col text (c0 :: t0) Hsim Ho Hun Hs
                    Hset) as (w' & Ew & _). now rewrite Ew.
    + now rewrite (write_exits_on_heap wa w row col text s Hsim Ho Hun Hs Hrc
                     Hcm).
  - destruct (clear_on_heap wa w row col Hsim Ho Hrc)
      as (wa' & w' & _ & Eh & _). now rewrite Eh.
  - pose proof (reachable_strings wa Hr row col) as Hk.
    rewrite Hcells in Hk. unfold Heap.view in Hk. cbn [type strVal] in Hk.
    split.
    + intros Hu.
      destruct (get_textual_value wa row col) as [t|] eqn:Hget.
      * destruct (read_on_heap wa w row col t Hsim Ho Hget) as (w' & Eh & _).
        rewrite Eh in Hu. discriminate.
      * unfold get_textual_value in Hget. rewrite Hrc in Hget.
        change (negb true) with false in Hget. cbv iota in Hget.
        rewrite Hcells in Hget. unfold Heap.view in Hget.
        cbn [type strVal] in Hget.
        destruct (Heap.type (Heap.sheet w row col)); try discriminate;
          destruct (Heap.deref (Heap.heap w)
                      (Heap.strVal (Heap.sheet w row col))) eqn:Hd;
          try discriminate; try contradiction.
        split; [reflexivity|].
        destruct (owned_pointer w row col Ho) as [E|(Hl & Hn & _)];
          [exact E|].
        unfold Heap.deref in Hd. apply Nat.eqb_neq in Hn. rewrite Hn in Hd.
        contradiction.
    + intros [Ht Hp]. apply (read_of_null_on_heap wa w row col Hsim).
      unfold get_textual_value. rewrite Hrc.
      change (negb true) with false. cbv iota. rewrite Hcells.
      unfold Heap.view. cbn [type strVal]. rewrite Ht, Hp. reflexivity.
Qed.

(** X20: under the calling discipline [clear_cell] on a cell of the
    sheet returns; on an Empty cell it changes nothing, on any other cell it
    releases the cell's string, that block and no other, and leaves the cell
    all zero with a null string; no other cell changes. *)
Theorem clear_releases_string (w : Heap.world) (row col : nat) :
  served w -> in_grid row col = true ->
  exists w',
    Heap.clear_cell row col w = Heap.Returns tt w'
    /\ (forall i j, (i, j) <> (row, col) ->
          Heap.sheet w' i j = Heap.sheet w i j)
    /\ (Heap.type (Heap.sheet w row col) = none -> w' = w)
    /\ (Heap.type (Heap.sheet w row col) <> none ->
        Heap.sheet w' row col = Heap.mkslot none dzero Heap.NULL
        /\ forall q,
             Heap.blocks (Heap.heap w') q
             = if q =? Heap.strVal (Heap.sheet w row col) then None
               else Heap.blocks (Heap.heap w) q).
Proof.
  intros Hsv Hrc.
  destruct (served_invariant w Hsv) as [Ho (wa & Hr & Hsim)].
  destruct (clear_on_heap wa w row col Hsim Ho Hrc)
    as (wa' & w' & _ & Eh & _ & _ & Hoff & Hnone & Hsome).
  exists w'. auto.
Qed.

(** X21: under the calling discipline, when [get_textual_value]
    returns, its result is a block that was not live before and that no
    cell points to, holding the empty text for an Empty cell and otherwise
    the first 255 characters of the cell's string; the sheet, the display
    and all other blocks are as before, and [free_textual_value] on the
    result returns and leaves every block as it was before the read. *)
Theorem read_gives_own_block (w w' : Heap.world) (row col : nat)
    (p : Heap.pointer) :
  served w ->
  Heap.get_textual_value row col w = Heap.Returns p w' ->
  Heap.blocks (Heap.heap w) p = None
  /\ unshared w' p
  /\ (exists t,
        Heap.blocks (Heap.heap w') p = Some t
        /\ length t <= MAX_LEN - 1
        /\ match Heap.type (Heap.sheet w row col) with
           | none => t = []
           | _ =>
               exists s,
                 Heap.blocks (Heap.heap w)
                   (Heap.strVal (Heap.sheet w row col)) = Some s
                 /\ t = firstn (MAX_LEN - 1) s
           end)
  /\ (forall q, q <> p ->
        Heap.blocks (Heap.heap w') q = Heap.blocks (Heap.heap w) q)
  /\ (forall i j, Heap.sheet w' i j = Heap.sheet w i j)
  /\ Heap.display w' = Heap.display w
  /\ exists w'',
       Heap.free_textual_value p w' = Heap.Returns tt w''
       /\ (forall q,
             Heap.blocks (Heap.heap w'') q = Heap.blocks (Heap.heap w) q)
       /\ (forall i j, Heap.sheet w'' i j = Heap.sheet w i j).
Proof.
  intros Hsv H.
  destruct (served_invariant w Hsv) as [Ho (wa & Hr & Hsim)].
  pose proof Ho as (Hf0 & Habove & H0 & Hlive & Hshare).
  pose proof Hsim as [Hcells _].
  destruct (get_textual_value wa row col) as [t|] eqn:Hget;
    [|rewrite (read_of_null_on_heap wa w row col Hsim Hget) in H;
      discriminate].
  destruct (read_on_heap wa w row col t Hsim Ho Hget)
    as (w1 & Eh & Hbp & Hbq & Hun & _ & _ & w2 & Ef & Hb2 & Hs2 & _).
  rewrite H in Eh. inversion Eh; subst p w1. clear Eh.
  split; [apply Habove, Nat.le_refl|]. split; [exact Hun|].
  split; [|split; [exact Hbq|]].
  - exists t. split; [exact Hbp|].
    unfold get_textual_value in Hget.
    destruct (negb (in_grid row col)); [discriminate|].
    rewrite Hcells in Hget. unfold Heap.view in Hget.
    cbn [type strVal] in Hget.
    assert (Hcase : forall s0 : option (cstring),
              s0 = Heap.deref (Heap.heap w)
                     (Heap.strVal (Heap.sheet w row col)) ->
              match s0 with
              | Some s => Some (firstn (MAX_LEN - 1) s)
              | None => None
              end = Some t ->
              length t <= MAX_LEN - 1
              /\ exists s,
                   Heap.blocks (Heap.heap w)
                     (Heap.strVal (Heap.sheet w row col)) = Some s
                   /\ t = firstn (MAX_LEN - 1) s).
    { intros [s|] Hd X; [|discriminate].
      assert (Et : t = firstn (MAX_LEN - 1) s) by congruence.
      split; [rewrite Et; apply firstn_le_length|]. exists s.
      split; [|exact Et].
      unfold Heap.deref in Hd.
      destruct (Heap.strVal (Heap.sheet w row col) =? Heap.NULL);
        [discriminate | now symmetry]. }
    destruct (Heap.type (Heap.sheet w row col));
      try (destruct (Hcase _ eq_refl Hget); split; assumption).
    assert (Et : t = []) by congruence.
    split; [rewrite Et; apply Nat.le_0_l | exact Et].
  - unfold Heap.get_textual_value in H.
    destruct (negb (in_grid row col)); [discriminate|].
    rewrite (run_bind _ _ _ _ _ (get_cell_run row col w)) in H.
    assert (Hal : forall content,
              Heap.allocate content w = Heap.Returns (Heap.fresh (Heap.heap w)) w' ->
              (forall i j, Heap.sheet w' i j = Heap.sheet w i j)
              /\ Heap.display w' = Heap.display w).
    { intros content X. unfold Heap.allocate in X. inversion X. now split. }
    assert (Hsd : (forall i j, Heap.sheet w' i j = Heap.sheet w i j)
                  /\ Heap.display w' = Heap.display w).
    { destruct (Heap.type (Heap.sheet w row col)); [now apply (Hal [])| | |];
        unfold Heap.bind, Heap.read in H;
        destruct (Heap.deref (Heap.heap w)
                    (Heap.strVal (Heap.sheet w row col))) as [s|];
        try discriminate; now apply (Hal (firstn (MAX_LEN - 1) s)). }
    destruct Hsd as [Hsh Hdi].
    split; [exact Hsh|]. split; [exact Hdi|].
    exists w2. split; [exact Ef|]. split; [exact Hb2 | exact Hs2].
Qed.

End Strings.

(** * The claims on the reference platform *)

(** C1 at work: 5 is written to A1 of the empty sheet. *)
Lemma plain_number_has_null_string_witness :
  exists w',
    set_cell_value 0 0 (Some (cstr "5")) initial_world = Returns w'
    /\ reachable w'
    /\ type (sheet w' 0 0) = num
    /\ strVal (sheet w' 0 0) = None
    /\ get_textual_value w' 0 0 = None.
Proof.
  apply (plain_number_has_null_string initial_world 0 0 (cstr "5")).
  - exact reach_initial.
  - reflexivity.
  - reflexivity.
Defined.

(** C2 (amended) at work: [=1] is written to A1 of the empty sheet. *)
Lemma formula_write_stays_formula_witness :
  exists w' evs,
    set_cell_value 0 0 (Some (cstr "=1")) initial_world = Returns w'
    /\ type (sheet w' 0 0) = eqn
    /\ strVal (sheet w' 0 0) = Some (cstr "=1")
    /\ get_textual_value w' 0 0 = Some (firstn (MAX_LEN - 1) (cstr "=1"))
    /\ display w' = display initial_world ++ evs
                    ++ [notify 0 0 (snprintf_lg number_1)]
    /\ Forall (fun n => ~ about (0, 0) n) evs.
Proof.
  apply (formula_write_stays_formula initial_world 0 0 (cstr "=1") number_1).
  - exact reach_initial.
  - reflexivity.
  - reflexivity.
  - reflexivity.
Defined.

(** C2, as stated, fails: after the write of [=1] into A1 of the empty
    sheet has returned, A1 is a Formula cell, not a Numeric cell, and its
    number is zero, not the result 1 of the formula. *)
Lemma formula_write_not_numeric :
  reachable initial_world
  /\ is_valid_formula (cstr "=1") = true
  /\ parse_and_calculate_formula
       (set_string_value (sheet initial_world) 0 0 (cstr "=1")) (cstr "=1")
     = Done number_1
  /\ exists w',
       set_cell_value 0 0 (Some (cstr "=1")) initial_world = Returns w'
       /\ type (sheet w' 0 0) <> num
       /\ numVal (sheet w' 0 0) <> number_1.
Proof.
  split; [exact reach_initial|]. split; [reflexivity|].
  split; [reflexivity|].
  eexists. split; [reflexivity|]. split; vm_compute; discriminate.
Qed.

Lemma world_b1_returned :
  set_cell_value 0 1 (Some (cstr "=A1")) initial_world = Returns world_b1.
Proof. reflexivity. Qed.

Lemma world_a1_returned :
  set_cell_value 0 0 (Some (cstr "1")) world_b1 = Returns world_a1.
Proof. reflexivity. Qed.

Lemma world_a2_returned :
  set_cell_value 0 0 (Some (cstr "2")) world_a1 = Returns world_a2.
Proof. reflexivity. Qed.

Lemma world_a1_reachable : reachable world_a1.
Proof.
  eapply reach_set; [|exact world_a1_returned].
  eapply reach_set; [exact reach_initial | exact world_b1_returned].
Qed.

(** The first write after a formula: B1 holds [=A1] and 1 is written to
    A1. *)
Lemma formula_cell_on_next_write_witness :
  strVal (sheet world_a1 0 1) = strVal (sheet world_b1 0 1)
  /\ (type (sheet world_b1 0 1) <> eqn ->
      sheet world_a1 0 1 = sheet world_b1 0 1)
  /\ (forall f,
        type (sheet world_b1 0 1) = eqn ->
        strVal (sheet world_b1 0 1) = Some f ->
        exists g,
          g 0 0 = sheet world_a1 0 0
          /\ (forall a b, g a b = sheet world_b1 a b
                          \/ g a b = sheet world_a1 a b)
          /\ ((exists r,
                 parse_and_calculate_formula g f = Done r
                 /\ sheet world_a1 0 1 = mkcell num r (Some f))
              \/ (exists e,
                 parse_and_calculate_formula g f = Failed e
                 /\ sheet world_a1 0 1 = sheet world_b1 0 1))).
Proof.
  apply (formula_cell_on_next_write world_b1 world_a1 0 0 (cstr "1") 0 1).
  - discriminate.
  - discriminate.
  - reflexivity.
  - reflexivity.
Defined.

(** C3 (the code breaks it): B1 is written with the formula [=A1], then 1
    is written to A1, then 2.  B1 still holds its formula text, but the
    pass of the first of the two writes has made it a Numeric cell, so the
    write of 2 does not evaluate it again: it sends no notification about
    B1 and leaves B1 with the number 1, while the formula evaluates to 2
    on the sheet. *)
Theorem formula_cell_stale_after_second_write :
  reachable world_a1
  /\ strVal (sheet world_a1 0 1) = Some (cstr "=A1")
  /\ set_cell_value 0 0 (Some (cstr "2")) world_a1 = Returns world_a2
  /\ display world_a2 = display world_a1 ++ [notify 0 0 (cstr "2")]
  /\ sheet world_a2 0 1 = sheet world_a1 0 1
  /\ numVal (sheet world_a2 0 1) = number_1
  /\ parse_and_calculate_formula (sheet world_a2) (cstr "=A1") = Done number_2
  /\ number_1 <> number_2.
Proof.
  split; [exact world_a1_reachable|].
  repeat split; try reflexivity.
  vm_compute. discriminate.
Qed.

(** C4 (the code breaks it): B1 is written with [=A1], then 5 is written
    to A1.  The pass of the second write stores the new result 5 in B1,
    but the notification it sends about B1 shows the formula text [=A1],
    where the formatted result is [5]. *)
Theorem recalculation_shows_formula_text :
  set_cell_value 0 1 (Some (cstr "=A1")) initial_world = Returns world_b1
  /\ type (sheet world_b1 0 1) = eqn
  /\ exists w2,
       set_cell_value 0 0 (Some (cstr "5")) world_b1 = Returns w2
       /\ display w2
          = display world_b1
            ++ [notify 0 1 (cstr "=A1"); notify 0 0 (cstr "5")]
       /\ type (sheet w2 0 1) = num
       /\ numVal (sheet w2 0 1) = strtod_value (cstr "5")
       /\ snprintf_lg (numVal (sheet w2 0 1)) = cstr "5"
       /\ strVal (sheet w2 0 1) = Some (cstr "=A1").
Proof.
  split; [reflexivity|]. split; [reflexivity|].
  eexists. split; [reflexivity|].
  repeat split; reflexivity.
Qed.

(** C5 (amended) at work: [ =A1 + 2.5+B01] on the sheet with 2 in A1. *)
Lemma formula_sums_operands_witness :
  parse_and_calculate_formula (sheet world_a2)
    (formula_text 1
       [mkterm 0 (Reference "A" (cstr "1")) 1;
        mkterm 1 (Literal (cstr "2.5")) 0]
       0 (Reference "B" (cstr "01")))
  = Done (sum_of (map (contribution (sheet world_a2))
                    [Reference "A" (cstr "1"); Literal (cstr "2.5");
                     Reference "B" (cstr "01")])).
Proof.
  apply (formula_sums_operands (sheet world_a2) 1
           [mkterm 0 (Reference "A" (cstr "1")) 1;
            mkterm 1 (Literal (cstr "2.5")) 0]
           0 (Reference "B" (cstr "01"))).
  - vm_compute. discriminate.
  - repeat constructor.
  - reflexivity.
  - reflexivity.
Defined.

(** C5, as stated, fails: [=A0] is a formula of the grammar, an equals
    sign and one reference made of a column letter and a row number, and
    its evaluation fails instead of returning a sum. *)
Lemma reference_outside_sheet_fails :
  formula_text 0 [] 0 (Reference "A" (cstr "0")) = cstr "=A0"
  /\ well_formed (Reference "A" (cstr "0")) = true
  /\ is_valid_formula (cstr "=A0") = true
  /\ parse_and_calculate_formula empty_sheet (cstr "=A0") = Failed OutOfRange.
Proof. repeat split. Qed.

(** C6, as stated, fails: [1 ] is a decimal literal with white space
    behind it, and it is not classified Numeric. *)
Lemma trailing_space_not_numeric :
  padded_decimal (cstr "1 ") /\ is_valid_num (Some (cstr "1 ")) = false.
Proof.
  split; [|reflexivity].
  exists [], ["1"%char], [" "%char]. repeat split; repeat constructor.
Qed.

(** C7 at work on the empty sheet of 10 rows and 7 columns. *)
Lemma arity_is_checked_witness :
  (forall r, parse_and_calculate_formula empty_sheet (cstr "=1+2") = Done r ->
     exists st ops,
       scan empty_sheet (cstr "=1+2") make_double_assist 0 = Scanned st ops
       /\ size st = ops + 1 /\ r = drain (size st) st dzero)
  /\ (forall st ops,
        is_valid_formula (cstr "=1+2") = true ->
        scan empty_sheet (cstr "=1+2") make_double_assist 0 = Scanned st ops ->
        size st <> ops + 1 ->
        parse_and_calculate_formula empty_sheet (cstr "=1+2")
        = Failed ArityMismatch)
  /\ (forall lead toks,
        forallb token_ok toks = true -> separated toks = true ->
        parse_and_calculate_formula empty_sheet (tokens_text lead toks)
        = if length (operands_of toks) =? pluses_of toks + 1
          then Done (sum_of (map (contribution empty_sheet)
                               (operands_of toks)))
          else Failed ArityMismatch)
  /\ parse_and_calculate_formula empty_sheet (cstr "=A1+")
     = Failed ArityMismatch
  /\ parse_and_calculate_formula empty_sheet (cstr "=A1 B2")
     = Failed ArityMismatch.
Proof.
  apply (arity_is_checked empty_sheet (cstr "=1+2")).
  - simpl. lia.
  - simpl. lia.
  - vm_compute. discriminate.
Defined.

(** C8 (amended) at work: [=Z99], a reference outside the sheet, is
    written to D3. *)
Lemma failed_formula_shows_error_witness :
  exists w' evs,
    set_cell_value 2 3 (Some (cstr "=Z99")) world_a1 = Returns w'
    /\ type (sheet w' 2 3) = str
    /\ strVal (sheet w' 2 3) = Some (cstr "=Z99")
    /\ get_textual_value w' 2 3 = Some (firstn (MAX_LEN - 1) (cstr "=Z99"))
    /\ display w' = display world_a1 ++ evs ++ [notify 2 3 ERROR]
    /\ Forall (fun n => ~ about (2, 3) n) evs.
Proof.
  apply (failed_formula_shows_error world_a1 2 3 (cstr "=Z99") OutOfRange).
  - exact world_a1_reachable.
  - reflexivity.
  - reflexivity.
  - reflexivity.
Defined.

(** C8, as stated, fails: [=Z99] passes the grammar check and its
    evaluation fails; after it was written to A1 of the empty sheet the
    display was notified of ERROR, but the string the cell holds, and the
    text that reading the cell gives, is [=Z99], not the marker. *)
Lemma failed_formula_keeps_its_text :
  is_valid_formula (cstr "=Z99") = true
  /\ parse_and_calculate_formula
       (set_string_value (sheet initial_world) 0 0 (cstr "=Z99"))
       (cstr "=Z99")
     = Failed OutOfRange
  /\ exists w',
       set_cell_value 0 0 (Some (cstr "=Z99")) initial_world = Returns w'
       /\ display w' = [notify 0 0 ERROR]
       /\ strVal (sheet w' 0 0) = Some (cstr "=Z99")
       /\ get_textual_value w' 0 0 = Some (cstr "=Z99")
       /\ cstr "=Z99" <> ERROR.
Proof.
  split; [reflexivity|]. split; [reflexivity|].
  eexists. split; [reflexivity|].
  repeat split; try reflexivity.
  vm_compute. discriminate.
Qed.

(** C9 at work: the text [=A1+b2] and its letter b. *)
Lemma lowercase_rejected_witness :
  is_valid_formula (cstr "=A1+b2") = false
  /\ (forall sh,
        parse_and_calculate_formula sh (cstr "=A1+b2")
        = Failed InvalidFormulaSyntax)
  /\ (forall w row col,
        reachable w -> in_grid row col = true ->
        exists w' evs,
          set_cell_value row col (Some (cstr "=A1+b2")) w = Returns w'
          /\ type (sheet w' row col) = str
          /\ strVal (sheet w' row col) = Some (cstr "=A1+b2")
          /\ display w' = display w ++ evs ++ [notify row col (cstr "=A1+b2")]).
Proof.
  apply (lowercase_rejected (cstr "=A1+b2") "b"%char).
  - simpl. tauto.
  - reflexivity.
Defined.

(** C10 at work: the pass started by a write to B2 meets the formula cell
    A1, whose text [=A1+] fails to evaluate. *)
Lemma failed_recalculation_leaves_cell_witness :
  sheet (mkworld (sheet world_broken) [notify 0 0 ERROR]) 0 0
  = sheet world_broken 0 0
  /\ exists evs1 evs2,
       display (mkworld (sheet world_broken) [notify 0 0 ERROR])
       = display world_broken ++ evs1 ++ notify 0 0 ERROR :: evs2
       /\ Forall (fun n => ~ about (0, 0) n) (evs1 ++ evs2).
Proof.
  apply (failed_recalculation_leaves_cell 1 1 world_broken
           (mkworld (sheet world_broken) [notify 0 0 ERROR])
           0 0 (cstr "=A1+") ArityMismatch).
  - reflexivity.
  - reflexivity.
  - discriminate.
  - reflexivity.
  - reflexivity.
  - reflexivity.
Defined.

(** * Further behaviour on the reference platform *)

(** The example of the specification: with 3 in A1 and 4 in B2, the write
    of [=A1+B2] to C1 shows [7]. *)
Example three_plus_four :
  exists w1 w2 w3,
    set_cell_value 0 0 (Some (cstr "3")) initial_world = Returns w1
    /\ set_cell_value 1 1 (Some (cstr "4")) w1 = Returns w2
    /\ set_cell_value 0 2 (Some (cstr "=A1+B2")) w2 = Returns w3
    /\ parse_and_calculate_formula (sheet w3) (cstr "=A1+B2")
       = Done (strtod_value (cstr "7"))
    /\ display w3
       = [notify 0 0 (cstr "3"); notify 1 1 (cstr "4"); notify 0 2 (cstr "7")].
Proof. do 3 eexists. repeat split; reflexivity. Qed.

(** [strtod] reads an exponent with its sign, so the plus sign of [=1E+5]
    is no operator and the text evaluates to 100000. *)
Example exponent_sign_is_no_operator :
  parse_and_calculate_formula empty_sheet (cstr "=1E+5")
  = Done (strtod_value (cstr "100000")).
Proof. reflexivity. Qed.

(** [strtod] reads hexadecimal constants. *)
Example hexadecimal_literal :
  parse_and_calculate_formula empty_sheet (cstr "=0X1F")
  = Done (strtod_value (cstr "31")).
Proof. reflexivity. Qed.

(** A row number is narrowed to 32 bits before it is checked: 2^32 + 1
    names row 1. *)
Example row_number_wraps :
  parse_and_calculate_formula (sheet world_a1) (cstr "=A4294967297")
  = parse_and_calculate_formula (sheet world_a1) (cstr "=A1")
  /\ parse_and_calculate_formula (sheet world_a1) (cstr "=A1")
     = Done number_1.
Proof. split; reflexivity. Qed.

(** The grammar check skips every white space, the evaluator only blanks:
    a tab inside a formula passes the check and fails the evaluation. *)
Example tab_is_no_blank :
  let text := cstr "=A1" ++ ascii_of_nat 9 :: cstr "+B1" in
  is_valid_formula text = true
  /\ parse_and_calculate_formula empty_sheet text = Failed InvalidToken.
Proof. split; reflexivity. Qed.

(** White space behind the last operand fails the grammar check. *)
Example trailing_blank_rejected :
  is_valid_formula (cstr "=A1 ") = false
  /\ is_valid_formula (cstr "=A1") = true.
Proof. split; reflexivity. Qed.

(** After a formula was written, the number of its cell is still zero:
    another formula that reads the cell before the next write sees zero. *)
Example formula_cell_reads_as_zero :
  exists w1 w2,
    set_cell_value 0 0 (Some (cstr "=1")) initial_world = Returns w1
    /\ set_cell_value 0 1 (Some (cstr "=A1")) w1 = Returns w2
    /\ numVal (sheet w1 0 0) = dzero
    /\ display w2
       = [notify 0 0 (cstr "1"); notify 0 0 (cstr "=1");
          notify 0 1 (cstr "0")].
Proof. do 2 eexists. repeat split; reflexivity. Qed.

(** The arity check only counts: a plus sign in front makes up for one
    that is missing between two operands. *)
Example leading_operator_counts :
  parse_and_calculate_formula empty_sheet (cstr "=+1 2")
  = Done (strtod_value (cstr "3")).
Proof. reflexivity. Qed.

(** * The further properties on the reference platform *)

Lemma world_b1_reachable : reachable world_b1.
Proof. eapply reach_set; [exact reach_initial | exact world_b1_returned]. Qed.

(** X3 at work: B1 of the sheet in which B1 was written with [=A1] and
    then A1 with 1. *)
Lemma reachable_cell_shapes_witness :
  match type (sheet world_a1 0 1) with
  | none => sheet world_a1 0 1 = zero_cell
  | str => exists s, sheet world_a1 0 1 = mkcell str dzero (Some s) /\ s <> []
  | eqn =>
      exists f,
        sheet world_a1 0 1 = mkcell eqn dzero (Some f)
        /\ forall sh, exists r, parse_and_calculate_formula sh f = Done r
  | num =>
      strVal (sheet world_a1 0 1) = None
      \/ exists f,
           strVal (sheet world_a1 0 1) = Some f
           /\ forall sh, exists r, parse_and_calculate_formula sh f = Done r
  end
  /\ (in_grid 0 1 = false -> sheet world_a1 0 1 = zero_cell).
Proof.
  apply (reachable_cell_shapes world_a1 0 1). exact world_a1_reachable.
Defined.

(** X4 at work: B1 is the formula cell of the sheet in which only B1 was
    written. *)
Lemma at_most_one_formula_cell_witness :
  type (sheet world_b1 0 1) = eqn /\ (0, 1) = (0, 1).
Proof.
  split; [reflexivity|].
  apply (at_most_one_formula_cell world_b1 0 1 0 1).
  - exact world_b1_reachable.
  - reflexivity.
  - reflexivity.
Defined.

(** X5 at work: [hello] is written to A1 of the empty sheet. *)
Lemma plain_text_is_stored_witness :
  exists w' evs,
    set_cell_value 0 0 (Some (cstr "hello")) initial_world = Returns w'
    /\ sheet w' 0 0 = mkcell str dzero (Some (cstr "hello"))
    /\ get_textual_value w' 0 0 = Some (firstn (MAX_LEN - 1) (cstr "hello"))
    /\ display w' = display initial_world ++ evs
                    ++ [notify 0 0 (cstr "hello")]
    /\ Forall (fun n => ~ about (0, 0) n) evs.
Proof.
  apply (plain_text_is_stored initial_world 0 0 (cstr "hello")).
  - exact reach_initial.
  - reflexivity.
  - discriminate.
  - reflexivity.
  - reflexivity.
Defined.

(** X6 at work: [ 2.5], with a blank in front, is written to A1. *)
Lemma number_write_stores_value_witness :
  exists w' evs,
    set_cell_value 0 0 (Some (cstr " " ++ cstr "2.5")) initial_world
    = Returns w'
    /\ sheet w' 0 0 = mkcell num (strtod_value (cstr "2.5")) None
    /\ display w' = display initial_world ++ evs
                    ++ [notify 0 0 (cstr " " ++ cstr "2.5")]
    /\ Forall (fun n => ~ about (0, 0) n) evs.
Proof.
  apply (number_write_stores_value initial_world 0 0 (cstr " ") (cstr "2.5")).
  - exact reach_initial.
  - reflexivity.
  - repeat constructor.
  - reflexivity.
Defined.


(** X8 at work: A1, which holds 1, is cleared. *)
Lemma clear_cell_empties_witness :
  exists w',
    clear_cell 0 0 world_a1 = Returns w'
    /\ type (sheet w' 0 0) = none
    /\ (type (sheet world_a1 0 0) <> none -> sheet w' 0 0 = zero_cell)
    /\ get_textual_value w' 0 0 = Some []
    /\ (forall i j, (i, j) <> (0, 0) -> sheet w' i j = sheet world_a1 i j)
    /\ display w'
       = display world_a1 ++ match type (sheet world_a1 0 0) with
                             | none => []
                             | _ => [notify 0 0 []]
                             end
    /\ clear_cell 0 0 w' = Returns w'.
Proof. apply (clear_cell_empties world_a1 0 0). reflexivity. Defined.



(** X11 at work: the number 1 is pushed on the empty stack. *)
Lemma push_then_pop_witness :
  within_capacity (double_assist_push make_double_assist number_1)
  /\ exists st',
       double_assist_pop (double_assist_push make_double_assist number_1)
       = Some (number_1, st')
       /\ elems st' = elems make_double_assist
       /\ capacity st'
          = (if size make_double_assist =? capacity make_double_assist
             then 2 * capacity make_double_assist
             else capacity make_double_assist).
Proof.
  apply (push_then_pop make_double_assist number_1).
  unfold within_capacity, size. simpl. lia.
Defined.

(** X12 at work: the scan of [=1+2]. *)
Lemma operand_stack_stays_in_bounds_witness :
  size (double_assist_push (double_assist_push make_double_assist number_1)
          number_2)
  <= capacity (double_assist_push
                 (double_assist_push make_double_assist number_1) number_2)
  /\ size (double_assist_push (double_assist_push make_double_assist number_1)
             number_2) + 1
     <= length (cstr "=1+2").
Proof.
  apply (operand_stack_stays_in_bounds empty_sheet (cstr "=1+2")
           (double_assist_push (double_assist_push make_double_assist number_1)
              number_2) 1).
  reflexivity.
Defined.

(** X13 at work: [=A1+1] on the empty sheet and on a sheet whose A1 is a
    Text cell. *)
Lemma evaluation_reads_numbers_of_sheet_witness :
  parse_and_calculate_formula empty_sheet (cstr "=A1+1")
  = parse_and_calculate_formula
      (store empty_sheet 0 0 (mkcell str dzero (Some (cstr "x"))))
      (cstr "=A1+1").
Proof.
  apply (evaluation_reads_numbers_of_sheet empty_sheet
           (store empty_sheet 0 0 (mkcell str dzero (Some (cstr "x"))))
           (cstr "=A1+1")).
  intros a b _. unfold store.
  destruct ((a =? 0) && (b =? 0)); reflexivity.
Defined.

(** X15 at work: [=A1Z99] on the sheet of 10 rows and 7 columns, the
    reference Z99 directly behind the operand A1. *)
Lemma reference_outside_sheet_is_refused_witness :
  parse_and_calculate_formula empty_sheet
    (tokens_text 0 [mkspaced 0 (Operand (Reference "A" (cstr "1")))]
     ++ spaces 0 ++ "Z"%char :: cstr "99" ++ [])
  = Failed OutOfRange.
Proof.
  apply (reference_outside_sheet_is_refused empty_sheet 0
           [mkspaced 0 (Operand (Reference "A" (cstr "1")))]
           0 "Z"%char (cstr "99") []).
  - vm_compute. discriminate.
  - reflexivity.
  - reflexivity.
  - right. split; discriminate.
  - reflexivity.
  - reflexivity.
  - vm_compute. discriminate.
  - exact I.
  - reflexivity.
Defined.

(** X16 at work: [=1], a tabulator and [+2]. *)
Lemma stray_character_is_refused_witness :
  parse_and_calculate_formula empty_sheet
    (tokens_text 0 [mkspaced 0 (Operand (Literal (cstr "1")))]
     ++ spaces 0 ++ "009"%char :: cstr "+2")
  = Failed InvalidToken.
Proof.
  apply (stray_character_is_refused empty_sheet 0
           [mkspaced 0 (Operand (Literal (cstr "1")))]
           0 "009"%char (cstr "+2")).
  - vm_compute. discriminate.
  - reflexivity.
  - reflexivity.
  - right. split; [reflexivity | discriminate].
  - reflexivity.
Defined.

(** ** On the heap *)

Lemma heap_formula_served : served heap_formula.
Proof.
  apply (served_allocate Heap.initial_world (cstr "=1+2") 1 heap_formula).
  - exact served_initial.
  - reflexivity.
Qed.

Lemma heap_formula_unshared : unshared heap_formula 1.
Proof. intros i j. discriminate. Qed.

Lemma heap_written_returned :
  Heap.set_cell_value 0 0 1 heap_formula = Heap.Returns tt heap_written.
Proof. reflexivity. Qed.

Lemma heap_written_served : served heap_written.
Proof.
  apply (served_set heap_formula 0 0 1 heap_written).
  - exact heap_formula_served.
  - right. exact heap_formula_unshared.
  - exact heap_written_returned.
Qed.

(** X17 at work: the heap after [=1+2] was written to A1. *)
Lemma sheet_owns_its_strings_witness :
  (forall i j,
     Heap.strVal (Heap.sheet heap_written i j) = Heap.NULL
     \/ Heap.blocks (Heap.heap heap_written)
          (Heap.strVal (Heap.sheet heap_written i j)) <> None)
  /\ (forall i j a b,
        Heap.strVal (Heap.sheet heap_written i j) <> Heap.NULL ->
        Heap.strVal (Heap.sheet heap_written i j)
        = Heap.strVal (Heap.sheet heap_written a b) ->
        (i, j) = (a, b))
  /\ exists wa, reachable wa /\ similar wa heap_written.
Proof. apply (sheet_owns_its_strings heap_written). exact heap_written_served. Defined.

(** X18 at work: the caller's block 1 holds [=1+2] and is written to A1. *)
Lemma write_takes_text_unless_number_witness :
  Heap.blocks (Heap.heap heap_written) 1
  = (if is_valid_num (Some (cstr "=1+2")) then Some (cstr "=1+2") else None)
  /\ heap_after_write heap_formula heap_written 0 0 1 (cstr "=1+2").
Proof.
  apply (write_takes_text_unless_number heap_formula heap_written 0 0 1
           (cstr "=1+2")).
  - exact heap_formula_served.
  - exact heap_formula_unshared.
  - reflexivity.
  - discriminate.
  - exact heap_written_returned.
Defined.

(** X19 at work: the calls on A1 after [=1+2] was written to it. *)
Lemma disciplined_calls_are_defined_witness :
  (forall text,
     text = Heap.NULL
     \/ (unshared heap_written text
         /\ Heap.blocks (Heap.heap heap_written) text <> None) ->
     Heap.set_cell_value 0 0 text heap_written <> Heap.Undefined)
  /\ Heap.clear_cell 0 0 heap_written <> Heap.Undefined
  /\ (Heap.get_textual_value 0 0 heap_written = Heap.Undefined
      <-> Heap.type (Heap.sheet heap_written 0 0) = num
          /\ Heap.strVal (Heap.sheet heap_written 0 0) = Heap.NULL).
Proof.
  apply (disciplined_calls_are_defined heap_written 0 0).
  - exact heap_written_served.
  - reflexivity.
Defined.

(** X20 at work: A1 is cleared after [=1+2] was written to it. *)
Lemma clear_releases_string_witness :
  exists w',
    Heap.clear_cell 0 0 heap_written = Heap.Returns tt w'
    /\ (forall i j, (i, j) <> (0, 0) ->
          Heap.sheet w' i j = Heap.sheet heap_written i j)
    /\ (Heap.type (Heap.sheet heap_written 0 0) = none -> w' = heap_written)
    /\ (Heap.type (Heap.sheet heap_written 0 0) <> none ->
        Heap.sheet w' 0 0 = Heap.mkslot none dzero Heap.NULL
        /\ forall q,
             Heap.blocks (Heap.heap w') q
             = if q =? Heap.strVal (Heap.sheet heap_written 0 0) then None
               else Heap.blocks (Heap.heap heap_written) q).
Proof.
  apply (clear_releases_string heap_written 0 0).
  - exact heap_written_served.
  - reflexivity.
Defined.

(** X21 at work: A1 is read after [=1+2] was written to it. *)
Lemma read_gives_own_block_witness :
  Heap.blocks (Heap.heap heap_written) 5 = None
  /\ unshared heap_read 5
  /\ (exists t,
        Heap.blocks (Heap.heap heap_read) 5 = Some t
        /\ length t <= MAX_LEN - 1
        /\ match Heap.type (Heap.sheet heap_written 0 0) with
           | none => t = []
           | _ =>
               exists s,
                 Heap.blocks (Heap.heap heap_written)
                   (Heap.strVal (Heap.sheet heap_written 0 0)) = Some s
                 /\ t = firstn (MAX_LEN - 1) s
           end)
  /\ (forall q, q <> 5 ->
        Heap.blocks (Heap.heap heap_read) q
        = Heap.blocks (Heap.heap heap_written) q)
  /\ (forall i j, Heap.sheet heap_read i j = Heap.sheet heap_written i j)
  /\ Heap.display heap_read = Heap.display heap_written
  /\ exists w'',
       Heap.free_textual_value 5 heap_read = Heap.Returns tt w''
       /\ (forall q,
             Heap.blocks (Heap.heap w'') q
             = Heap.blocks (Heap.heap heap_written) q)
       /\ (forall i j, Heap.sheet w'' i j = Heap.sheet heap_written i j).
Proof.
  apply (read_gives_own_block heap_written heap_read 0 0 5).
  - exact heap_written_served.
  - reflexivity.
Defined.
